(** * trappy.utils: handle_duplicate_index and squash_into_window

    A shallow embedding of [trappy/utils.py].  The two functions are
    written against pandas; the pandas and numpy operations they call are
    modelled below, each next to the call it stands for.

    - Timestamps (float64 in the source) are rationals [Q]: every finite
      float64 is one, and comparing them is the same in both.  The
      arithmetic of [handle_duplicate_index] is embedded twice.
      [handle_duplicate_index_r rnd] passes the result of every
      subtraction, division and addition through [rnd]; with [round64]
      (round to nearest, ties to even) this is float64 arithmetic, apart
      from overflow, inf and nan.  [handle_duplicate_index] computes
      exactly; it is [handle_duplicate_index_r] with the identity for
      [rnd].  The statements that do not depend on the arithmetic, and
      the evaluations, are made on the exact run.  The general
      statements about the adjusted timestamps are made on the rounded
      run, for every [rnd] that returns a float64 unchanged, under the
      hypothesis [exact64b] that every number the run computes is a
      float64.  Two timestamps are the same label when they are [==]
      (Qeq).
    - The buffer behind a pandas index is a numpy array, held by
      reference.  [data.index.values] is a view of that buffer, not a copy,
      so the store below maps references to buffers and the functions run
      in a state-and-exception monad over it.  (The tests of the
      repository pin this down: reindexing a series whose index has
      duplicates raises ValueError unless the target equals the current
      index, and [handle_duplicate_index] returns the values under the
      new labels only because its writes have gone to the index itself.)
    - [searchsorted] is numpy's binary search, not a count of smaller
      labels: the loop searches the buffer it is modifying, which need
      not stay sorted.
    - The values of a series or frame are never assigned to by either
      function; they are kept as an immutable list in the record.

    The definitions come first: the embedding of the source, then the
    closed forms and predicates the statements use.  The properties
    follow: how each function runs on a store, then the claims C1 to C10
    with their witnesses and counterexamples, then further properties
    X1 to X19 of [handle_duplicate_index], [squash_into_window] and
    [listify], among them the repository's tests evaluated on the model,
    and last the run in float64 evaluated on inputs where it rounds. *)

From Stdlib Require Import List ZArith QArith Qminmax Bool Arith Lia Lqa Permutation.
Import ListNotations.

Open Scope Q_scope.

(** ** Comparisons on timestamps *)

Definition Qlt_bool (x y : Q) : bool := negb (Qle_bool y x).

(** ** The store of index buffers *)

Definition loc := nat.
Definition heap := list (list Q).

Fixpoint upd {A : Type} (l : list A) (i : nat) (x : A) : list A :=
  match l, i with
  | [], _ => []
  | _ :: t, O => x :: t
  | y :: t, S i' => y :: upd t i' x
  end.

(** ** Python control flow: state and exceptions

    [IndexError] and [ValueError] are the Python exceptions the source can
    meet.  [Dangling] (a reference the store does not hold) and
    [OutOfFuel] (a loop of the model ran out of its iteration budget) are
    not Python behaviours; the theorems show that neither is ever reached
    from a well-formed call. *)

Inductive exn : Type := IndexError | ValueError | Dangling | OutOfFuel.

Definition exn_eqb (a b : exn) : bool :=
  match a, b with
  | IndexError, IndexError | ValueError, ValueError
  | Dangling, Dangling | OutOfFuel, OutOfFuel => true
  | _, _ => false
  end.

Inductive outcome (A : Type) : Type :=
| Ok (a : A) (h : heap)
| Raise (e : exn) (h : heap).
Arguments Ok {A} a h.
Arguments Raise {A} e h.

Definition M (A : Type) : Type := heap -> outcome A.

Definition ret {A : Type} (a : A) : M A := fun h => Ok a h.

Definition bind {A B : Type} (m : M A) (f : A -> M B) : M B :=
  fun h => match m h with
           | Ok a h' => f a h'
           | Raise e h' => Raise e h'
           end.

Definition raise {A : Type} (e : exn) : M A := fun h => Raise e h.

(** [try: body except e: handler] *)
Definition try_except {A : Type} (body : M A) (e : exn) (handler : M A) : M A :=
  fun h => match body h with
           | Ok a h' => Ok a h'
           | Raise e' h' => if exn_eqb e' e then handler h' else Raise e' h'
           end.

Notation "x <- m ;; k" := (bind m (fun x => k))
  (at level 61, m at next level, right associativity).
Notation "m ;;; k" := (bind m (fun _ => k))
  (at level 61, right associativity).

(** [for x in l: body x] *)
Fixpoint for_each {A : Type} (l : list A) (body : A -> M unit) : M unit :=
  match l with
  | [] => ret tt
  | x :: rest => body x ;;; for_each rest body
  end.

(** ** numpy arrays in the store *)

Definition load (arr : loc) : M (list Q) :=
  fun h => match nth_error h arr with
           | Some a => Ok a h
           | None => Raise Dangling h
           end.

Definition store (arr : loc) (a : list Q) : M unit :=
  fun h => if (arr <? length h)%nat then Ok tt (upd h arr a) else Raise Dangling h.

Definition alloc (a : list Q) : M loc :=
  fun h => Ok (length h) (h ++ [a]).

(** Scalar indexing: a negative index counts from the end, anything
    outside [-len, len) raises IndexError. *)
Definition norm_index (len : nat) (i : Z) : option nat :=
  if ((0 <=? i) && (i <? Z.of_nat len))%Z then Some (Z.to_nat i)
  else if ((- Z.of_nat len <=? i) && (i <? 0))%Z then Some (Z.to_nat (Z.of_nat len + i))
  else None.

(** [arr[i]] *)
Definition getitem (arr : loc) (i : Z) : M Q :=
  a <- load arr ;;
  match norm_index (length a) i with
  | Some n => ret (nth n a 0)
  | None => raise IndexError
  end.

(** [arr[i] += x].  The sum is exact here; [iadd_item_r] below rounds
    it, as numpy does. *)
Definition iadd_item (arr : loc) (i : Z) (x : Q) : M unit :=
  a <- load arr ;;
  match norm_index (length a) i with
  | Some n => store arr (upd a n (nth n a 0 + x))
  | None => raise IndexError
  end.

(** *** searchsorted

    numpy's binary search, for one key: [min_idx = 0], [max_idx = len];
    while [min_idx < max_idx], probe the middle and move one bound.  The
    comparison is [<] for side="left" and [<=] for side="right".  The
    array is not required to be sorted: the result is whatever the probes
    lead to. *)

Inductive side : Type := Left | Right.

Definition side_cmp (s : side) (mid_val key_val : Q) : bool :=
  match s with
  | Left => Qlt_bool mid_val key_val
  | Right => Qle_bool mid_val key_val
  end.

Fixpoint binsearch (fuel : nat) (s : side) (arr : list Q) (key_val : Q)
         (min_idx max_idx : nat) : option nat :=
  match fuel with
  | O => None
  | S fuel' =>
      if (min_idx <? max_idx)%nat then
        let mid_idx := (min_idx + Nat.div2 (max_idx - min_idx))%nat in
        let mid_val := nth mid_idx arr 0 in
        if side_cmp s mid_val key_val
        then binsearch fuel' s arr key_val (mid_idx + 1)%nat max_idx
        else binsearch fuel' s arr key_val min_idx mid_idx
      else Some min_idx
  end.

Definition searchsorted (index : loc) (key : Q) (s : side) : M Z :=
  a <- load index ;;
  match binsearch (S (length a)) s a key 0 (length a) with
  | Some i => ret (Z.of_nat i)
  | None => raise OutOfFuel
  end.

(** *** Index.get_duplicates

    pandas (of the source's time): count every label in a dictionary,
    return the sorted labels whose count exceeds one. *)

Fixpoint counter_incr (k : Q) (counter : list (Q * nat)) : list (Q * nat) :=
  match counter with
  | [] => [(k, 1%nat)]
  | (k', v) :: rest =>
      if Qeq_bool k' k then (k', S v) :: rest else (k', v) :: counter_incr k rest
  end.

Definition count_labels (labels : list Q) : list (Q * nat) :=
  fold_left (fun counter k => counter_incr k counter) labels [].

Fixpoint insert_sorted (k : Q) (l : list Q) : list Q :=
  match l with
  | [] => [k]
  | x :: t => if Qle_bool k x then k :: l else x :: insert_sorted k t
  end.

Definition py_sorted (l : list Q) : list Q := fold_right insert_sorted [] l.

Definition duplicates_of (labels : list Q) : list Q :=
  py_sorted (map fst (filter (fun kv => (1 <? snd kv)%nat) (count_labels labels))).

Definition get_duplicates (index : loc) : M (list Q) :=
  a <- load index ;; ret (duplicates_of a).

(** ** Series and frames *)

Section Frames.

Variable V : Type.
(** The filler pandas puts where a label has no row. *)
Variable nan : V.

Record Series : Type := mkSeries { index : loc; values : list V }.

(** *** reindex

    When the target labels equal the current index ([Index.equals]) the
    data is copied and given the target as its index.  Otherwise a
    current index with duplicates cannot be reindexed (ValueError), and a
    unique one is looked up label by label. *)

Fixpoint index_equals (a b : list Q) : bool :=
  match a, b with
  | [], [] => true
  | x :: a', y :: b' => Qeq_bool x y && index_equals a' b'
  | _, _ => false
  end.

Fixpoint get_loc (label : Q) (labels : list Q) : option nat :=
  match labels with
  | [] => None
  | x :: rest => if Qeq_bool x label then Some O
                 else option_map S (get_loc label rest)
  end.

Definition take_or_nan (old : list Q) (vals : list V) (label : Q) : V :=
  match get_loc label old with
  | Some p => nth p vals nan
  | None => nan
  end.

Definition reindex (data : Series) (new_index : loc) : M Series :=
  old <- load (index data) ;;
  target <- load new_index ;;
  if index_equals old target then
    ret {| index := new_index; values := values data |}
  else
    match duplicates_of old with
    | _ :: _ => raise ValueError
    | [] => ret {| index := new_index;
                   values := map (take_or_nan old (values data)) target |}
    end.

(** ** handle_duplicate_index *)

(** The inner [while dup_index_left <= dup_index_right] loop. *)
Fixpoint add_deltas (fuel : nat) (new_index : loc)
         (dup_index_left dup_index_right : Z) (delta : Q) : M unit :=
  match fuel with
  | O => raise OutOfFuel
  | S fuel' =>
      if (dup_index_left <=? dup_index_right)%Z then
        iadd_item new_index dup_index_left delta ;;;
        add_deltas fuel' new_index (dup_index_left + 1)%Z dup_index_right
                   (delta + delta)
      else ret tt
  end.

(** The body of [for dup in dups].

    [num_dups] is zero only when the two searches meet, which happens
    only on an unsorted buffer.  numpy then divides by zero without an
    exception (the result is inf or nan) where [Q] gives 0; the while
    loop does not run in that case, so the quotient is never used (see
    [process_without_rounds]).

    The difference and the quotient are exact here; [handle_dup_r]
    below rounds each, as the source does. *)
Definition handle_dup (index new_index : loc) (max_delta dup : Q) : M unit :=
  dup_index_left <- searchsorted index dup Left ;;
  right_bound <- searchsorted index dup Right ;;
  let dup_index_right := (right_bound - 1)%Z in
  let num_dups := (dup_index_right - dup_index_left + 1)%Z in
  delta <- try_except
             (ceiling <- getitem index (dup_index_right + 1)%Z ;;
              ret ((ceiling - dup) / inject_Z num_dups))
             IndexError
             (ret max_delta) ;;
  let delta := if Qlt_bool max_delta delta then max_delta else delta in
  let dup_index_left := (dup_index_left + 1)%Z in
  add_deltas (S (Z.to_nat (dup_index_right - dup_index_left + 1)))
             new_index dup_index_left dup_index_right delta.

Definition handle_duplicate_index (data : Series) (max_delta : Q) : M Series :=
  let idx := index data in
  (* new_index = index.values: the index's own buffer, not a copy *)
  let new_index := idx in
  dups <- get_duplicates idx ;;
  for_each dups (handle_dup idx new_index max_delta) ;;;
  reindex data new_index.

(** ** squash_into_window *)

Fixpoint select {A : Type} (mask : list bool) (l : list A) : list A :=
  match mask, l with
  | b :: mask', x :: l' => if b then x :: select mask' l' else select mask' l'
  | _, _ => []
  end.

Definition last_row {A : Type} (l : list A) : list A :=
  skipn (length l - 1) l.

(** [df.index >= t], [df.index < t], [df.index <= t]: boolean arrays. *)
Definition index_ge (df : Series) (t : Q) : M (list bool) :=
  a <- load (index df) ;; ret (map (fun x => Qle_bool t x) a).
Definition index_lt (df : Series) (t : Q) : M (list bool) :=
  a <- load (index df) ;; ret (map (fun x => Qlt_bool x t) a).
Definition index_le (df : Series) (t : Q) : M (list bool) :=
  a <- load (index df) ;; ret (map (fun x => Qle_bool x t) a).

(** [m1 & m2] *)
Fixpoint mask_and (m1 m2 : list bool) : list bool :=
  match m1, m2 with
  | b1 :: r1, b2 :: r2 => (b1 && b2) :: mask_and r1 r2
  | _, _ => []
  end.

(** [df[mask]]: a new frame holding the selected rows. *)
Definition getitem_mask (df : Series) (mask : list bool) : M Series :=
  a <- load (index df) ;;
  l <- alloc (select mask a) ;;
  ret {| index := l; values := select mask (values df) |}.

(** [df.iloc[-1:]]: a new frame holding the last row, if there is one. *)
Definition iloc_last (df : Series) : M Series :=
  a <- load (index df) ;;
  l <- alloc (last_row a) ;;
  ret {| index := l; values := last_row (values df) |}.

(** [df.empty] *)
Definition empty (df : Series) : M bool :=
  a <- load (index df) ;; ret (length a =? 0)%nat.

(** [df.index = labels]: the frame gets a new index object; the number
    of labels must match the number of rows. *)
Definition set_index (df : Series) (labels : list Q) : M Series :=
  a <- load (index df) ;;
  if (length labels =? length a)%nat then
    l <- alloc labels ;;
    ret {| index := l; values := values df |}
  else raise ValueError.

(** [pd.concat([a, b])] *)
Definition concat (a b : Series) : M Series :=
  ia <- load (index a) ;;
  ib <- load (index b) ;;
  l <- alloc (ia ++ ib) ;;
  ret {| index := l; values := values a ++ values b |}.

Definition squash_into_window (df : Series) (window : Q * Q) : M Series :=
  let '(start_time, end_time) := window in
  ge <- index_ge df start_time ;;
  lt <- index_lt df end_time ;;
  window_df <- getitem_mask df (mask_and ge lt) ;;
  before <- index_lt df start_time ;;
  before_df <- getitem_mask df before ;;
  first_event_df <- iloc_last before_df ;;
  is_empty <- empty first_event_df ;;
  first_event_df <- (if negb is_empty
                     then set_index first_event_df [start_time]
                     else ret first_event_df) ;;
  df <- concat first_event_df window_df ;;
  upto <- index_le df end_time ;;
  upto_df <- getitem_mask df upto ;;
  last_event_df <- iloc_last upto_df ;;
  is_empty <- empty last_event_df ;;
  last_event_df <- (if negb is_empty
                    then set_index last_event_df [end_time]
                    else ret last_event_df) ;;
  concat df last_event_df.

(** The rows of a frame as the store shows them. *)
Definition rows (h : heap) (s : Series) : list (Q * V) :=
  match nth_error h (index s) with
  | Some a => combine a (values s)
  | None => []
  end.

End Frames.

Arguments mkSeries {V} index values.
Arguments index {V} s.
Arguments values {V} s.
Arguments reindex {V} nan data new_index.
Arguments handle_duplicate_index {V} nan data max_delta.
Arguments squash_into_window {V} df window.
Arguments rows {V} h s.

(** ** What the loops compute on the buffer

    Pure counterparts of the loops of [handle_duplicate_index], used to
    state what a run leaves in the store. *)

(** [bump a i n delta]: [n] rounds of [a[i] += delta; delta += delta; i += 1]. *)
Fixpoint bump (a : list Q) (i n : nat) (delta : Q) : list Q :=
  match n with
  | O => a
  | S n' => bump (upd a i (nth i a 0 + delta)) (S i) n' (delta + delta)
  end.

Definition search (s : side) (a : list Q) (key : Q) : nat :=
  match binsearch (S (length a)) s a key 0 (length a) with
  | Some i => i
  | None => O
  end.

Definition first_delta (max_delta : Q) (a : list Q) (dup : Q) : Q :=
  let l := search Left a dup in
  let r := search Right a dup in
  let delta :=
    if (r <? length a)%nat
    then (nth r a 0 - dup) / inject_Z (Z.of_nat r - 1 - Z.of_nat l + 1)
    else max_delta in
  if Qlt_bool max_delta delta then max_delta else delta.

Definition process (max_delta : Q) (a : list Q) (dup : Q) : list Q :=
  let l := search Left a dup in
  let r := search Right a dup in
  bump a (S l) (r - 1 - l) (first_delta max_delta a dup).

Definition adjusted (max_delta : Q) (a : list Q) : list Q :=
  fold_left (process max_delta) (duplicates_of a) a.

(** [extends h h']: [h'] holds every buffer of [h], unchanged, and
    possibly new ones after them. *)
Definition extends (h h' : heap) : Prop := exists ext, h' = h ++ ext.

Section FrameSpecs.

Variable V : Type.

(** A frame is well formed in a store when its index buffer is there and
    has one label per row. *)
Definition well_formed (h : heap) (s : Series V) : Prop :=
  match nth_error h (index s) with
  | Some a => length a = length (values s)
  | None => False
  end.

(** [repr h s rs]: in store [h] the well-formed frame [s] has rows [rs]. *)
Definition repr (h : heap) (s : Series V) (rs : list (Q * V)) : Prop :=
  exists a, nth_error h (index s) = Some a
            /\ length a = length (values s)
            /\ combine a (values s) = rs.

(** What [squash_into_window] computes, on rows. *)
Definition relabel (t : Q) (rs : list (Q * V)) : list (Q * V) :=
  map (fun r => (t, snd r)) rs.

(** Row predicates: timestamp before [c], from [c] on, in [[s, e)], up
    to and including [c]. *)
Definition before (c : Q) : Q * V -> bool := fun r => Qlt_bool (fst r) c.
Definition from (c : Q) : Q * V -> bool := fun r => Qle_bool c (fst r).
Definition within (s e : Q) : Q * V -> bool :=
  fun r => Qle_bool s (fst r) && Qlt_bool (fst r) e.
Definition upto (c : Q) : Q * V -> bool := fun r => Qle_bool (fst r) c.

Definition squash_rows (rs : list (Q * V)) (start_time end_time : Q) : list (Q * V) :=
  let window := filter (within start_time end_time) rs in
  let first_event := relabel start_time (last_row (filter (before start_time) rs)) in
  let partial := first_event ++ window in
  let last_event := relabel end_time (last_row (filter (upto end_time) partial)) in
  partial ++ last_event.

End FrameSpecs.

Arguments well_formed {V} h s.
Arguments repr {V} h s rs.
Arguments relabel {V} t rs.
Arguments squash_rows {V} rs start_time end_time.
Arguments before {V} c r.
Arguments from {V} c r.
Arguments within {V} s e r.
Arguments upto {V} c r.

(** Non-decreasing timestamps. *)
Fixpoint sortedb (l : list Q) : bool :=
  match l with
  | [] => true
  | x :: t => match t with
              | [] => true
              | y :: _ => Qle_bool x y && sortedb t
              end
  end.

(** ** Observations used in the statements *)

(** The default of the [max_delta] parameter: 0.000001. *)
Definition default_max_delta : Q := 1 # 1000000.

(** The labels a series shows in a store. *)
Definition timestamps {V : Type} (h : heap) (s : Series V) : list Q :=
  map fst (rows h s).

(** Strictly increasing timestamps. *)
Fixpoint increasingb (l : list Q) : bool :=
  match l with
  | [] => true
  | x :: t => match t with
              | [] => true
              | y :: _ => Qlt_bool x y && increasingb t
              end
  end.

(** ** The adjustment of a duplicate group, in closed form *)

(** How many labels of [a] compare below [d] ([<] for [Left], [<=] for
    [Right]): in a sorted index, where the group of [d] starts and where
    it ends. *)
Definition count_side (s : side) (a : list Q) (d : Q) : nat :=
  length (filter (fun x => side_cmp s x d) a).

(** How many labels of [a] equal [d]. *)
Definition occurrences (a : list Q) (d : Q) : nat :=
  length (filter (fun x => Qeq_bool x d) a).

Definition pow2 (k : nat) : Q := inject_Z (2 ^ Z.of_nat k).

(** The first increment of the group of [d]: the gap to the next label
    divided by the size of the group, clamped to [max_delta]; [max_delta]
    itself when the group ends the index. *)
Definition group_delta (max_delta : Q) (a : list Q) (d : Q) : Q :=
  let l := count_side Left a d in
  let r := count_side Right a d in
  if (r <? length a)%nat
  then Qmin ((nth r a 0 - d) / inject_Z (Z.of_nat (r - l))) max_delta
  else max_delta.

(** The label expected at position [i]: the first entry of a group keeps
    its label [d]; the entry [k] places after it gets [d + 2^(k-1) * delta]. *)
Definition expected (max_delta : Q) (a : list Q) (i : nat) : Q :=
  let d := nth i a 0 in
  let l := count_side Left a d in
  if (i <=? l)%nat then d
  else d + pow2 (i - l - 1) * group_delta max_delta a d.

(** No adjusted label reaches a later original label. *)
Definition fitsb (max_delta : Q) (a : list Q) : bool :=
  forallb (fun i =>
    forallb (fun j =>
      implb (Qlt_bool (nth i a 0) (nth j a 0))
            (Qlt_bool (expected max_delta a i) (nth j a 0)))
      (seq 0 (length a)))
    (seq 0 (length a)).

(** The entries equal to [d] are exactly the [n] entries from position [l]. *)
Definition is_groupb (a : list Q) (l n : nat) (d : Q) : bool :=
  (l + n <=? length a)%nat
  && forallb (fun i => Bool.eqb (Qeq_bool (nth i a 0) d)
                                ((l <=? i)%nat && (i <? l + n)%nat))
             (seq 0 (length a)).

(** The increment the claim names for a group of [n] entries at [l]. *)
Definition claimed_delta (max_delta : Q) (a : list Q) (l n : nat) (d : Q) : Q :=
  if (l + n <? length a)%nat
  then Qmin ((nth (l + n) a 0 - d) / inject_Z (Z.of_nat n)) max_delta
  else max_delta.

(** [k] doublings of an increment. *)
Fixpoint dbl (k : nat) (delta : Q) : Q :=
  match k with
  | O => delta
  | S k' => dbl k' (delta + delta)
  end.

(** Labels that are pairwise different. *)
Fixpoint distinct (l : list Q) : Prop :=
  match l with
  | [] => True
  | x :: t => (forall y, In y t -> ~ x == y) /\ distinct t
  end.

(** The value the counter holds for a label. *)
Fixpoint counter_get (counter : list (Q * nat)) (x : Q) : nat :=
  match counter with
  | [] => O
  | (k, v) :: rest => if Qeq_bool k x then v else counter_get rest x
  end.

(** ** The invariant of the [for dup in dups] loop

    [a0] is the index as it was given, [todo] the duplicates still to be
    handled and [b] the buffer as it stands.  A position whose original
    label is still to be handled holds that label; every other position
    already holds its expected label. *)
Definition pending (a0 todo : list Q) (i : nat) : Prop :=
  exists y, In y todo /\ y == nth i a0 0.

Definition loop_inv (max_delta : Q) (a0 todo b : list Q) : Prop :=
  length b = length a0
  /\ forall i, (i < length a0)%nat ->
                (pending a0 todo i -> nth i b 0 == nth i a0 0)
                /\ (~ pending a0 todo i -> nth i b 0 == expected max_delta a0 i).

(** Every label occurs at most three times. *)
Definition small_groupsb (a : list Q) : bool :=
  forallb (fun x => (occurrences a x <=? 3)%nat) a.

(** Every label occurs at most twice. *)
Definition pairsb (a : list Q) : bool :=
  forallb (fun x => (occurrences a x <=? 2)%nat) a.

(** ** Where the arithmetic of the source is exact

    The index of the source is a float64 array and [max_delta] a float:
    the difference, the quotient, the sums and the doublings of
    [handle_dup] and [add_deltas] are rounded to the nearest float64.
    An IEEE operation is correctly rounded: it returns the exact result
    whenever that result is itself a float64.  [exact64b] lists, for a
    sorted index, every number the loops compute; where it holds, the
    rounded run computes the numbers of the exact run
    ([adjusted_r_expected]). *)

(** The odd part of a positive number, and how often two divides it. *)
Fixpoint odd_part (p : positive) : positive * nat :=
  match p with
  | xO p' => let (m, t) := odd_part p' in (m, S t)
  | _ => (p, O)
  end.

(** The finite float64 numbers: [m * 2^e] with [|m| < 2^53] and
    [-1074 <= e], below [2^1024] in absolute value (the subnormal
    numbers included).  In lowest terms the denominator is a power of
    two, at most [2^1074], and the odd part of the numerator is the
    smallest mantissa. *)
Definition float64b (x : Q) : bool :=
  let y := Qred x in
  match Qnum y with
  | Z0 => true
  | Zpos p | Zneg p =>
      let (m, _) := odd_part p in
      let (q, k) := odd_part (Qden y) in
      (q =? 1)%positive
      && (Z.pos m <? 2 ^ 53)%Z
      && (k <=? 1074)%nat
      && (Z.pos p <? 2 ^ 1024)%Z
  end.

(** For the entry at position [i] of a sorted index, [k >= 1] places
    after the first entry of its group: the gap from [d] to the next
    label and its quotient by the size of the group (when the group does
    not end the index), the increment [2^(k-1) * delta] that is added,
    the sum, and the doubled increment. *)
Definition exact_at (max_delta : Q) (a : list Q) (i : nat) : bool :=
  let d := nth i a 0 in
  let l := count_side Left a d in
  let r := count_side Right a d in
  let delta := group_delta max_delta a d in
  (i <=? l)%nat
  || ((if (r <? length a)%nat
       then float64b (nth r a 0 - d)
            && float64b ((nth r a 0 - d) / inject_Z (Z.of_nat (r - l)))
       else true)
      && float64b (pow2 (i - l - 1) * delta)
      && float64b (expected max_delta a i)
      && float64b (pow2 (i - l) * delta)).

(** The labels and [max_delta] are float64 numbers, and so is every
    number computed from them. *)
Definition exact64b (max_delta : Q) (a : list Q) : bool :=
  float64b max_delta
  && forallb float64b a
  && forallb (exact_at max_delta a) (seq 0 (length a)).

(** ** Rounding to float64

    Round to nearest, ties to the even mantissa.  For [|x| = p / q]
    with [2^b <= |x| < 2^(b+1)] the float64 numbers around [x] are the
    multiples of [2^e], [e = max (b - 52) (-1074)].  Overflow is not
    modelled: past the largest float64 the result is still the nearest
    multiple of [2^e], where float64 arithmetic gives inf. *)

(** [b] with [2^b <= p / q < 2^(b+1)]. *)
Definition floor_log2 (p q : positive) : Z :=
  let b := (Z.log2 (Z.pos p) - Z.log2 (Z.pos q))%Z in
  if (0 <=? b)%Z
  then if (Z.pos q * 2 ^ b <=? Z.pos p)%Z then b else (b - 1)%Z
  else if (Z.pos q <=? Z.pos p * 2 ^ (- b))%Z then b else (b - 1)%Z.

(** The integer nearest to [n / d], the even one of two that are equally
    near ([0 <= n], [0 < d]). *)
Definition nearest_even (n d : Z) : Z :=
  let m := (n / d)%Z in
  match (2 * (n mod d) ?= d)%Z with
  | Lt => m
  | Gt => (m + 1)%Z
  | Eq => if Z.even m then m else (m + 1)%Z
  end.

Definition nearest64 (x : Q) : Q :=
  match Qnum x with
  | Z0 => 0
  | Zpos p | Zneg p =>
      let q := Qden x in
      let e := Z.max (floor_log2 p q - 52) (-1074) in
      let m := if (0 <=? e)%Z
               then nearest_even (Z.pos p) (Z.pos q * 2 ^ e)
               else nearest_even (Z.pos p * 2 ^ (- e)) (Z.pos q) in
      let m := if (Qnum x <? 0)%Z then (- m)%Z else m in
      if (0 <=? e)%Z
      then inject_Z (m * 2 ^ e)
      else inject_Z m / inject_Z (2 ^ (- e))
  end.

(** A float64 is its own nearest float64. *)
Definition round64 (x : Q) : Q := if float64b x then x else nearest64 x.

(** ** handle_duplicate_index in rounded arithmetic

    The function once more, with the result of every subtraction,
    division and addition passed through [rnd].  With [round64] for
    [rnd] this is the arithmetic of numpy and Python on a float64 index
    ([num_dups] is an integer and is converted exactly; the comparisons
    are exact); with the identity for [rnd] it is
    [handle_duplicate_index] above. *)

Section Rounded.

Variable rnd : Q -> Q.

(** [arr[i] += x] *)
Definition iadd_item_r (arr : loc) (i : Z) (x : Q) : M unit :=
  a <- load arr ;;
  match norm_index (length a) i with
  | Some n => store arr (upd a n (rnd (nth n a 0 + x)))
  | None => raise IndexError
  end.

Fixpoint add_deltas_r (fuel : nat) (new_index : loc)
         (dup_index_left dup_index_right : Z) (delta : Q) : M unit :=
  match fuel with
  | O => raise OutOfFuel
  | S fuel' =>
      if (dup_index_left <=? dup_index_right)%Z then
        iadd_item_r new_index dup_index_left delta ;;;
        add_deltas_r fuel' new_index (dup_index_left + 1)%Z dup_index_right
                     (rnd (delta + delta))
      else ret tt
  end.

Definition handle_dup_r (index new_index : loc) (max_delta dup : Q) : M unit :=
  dup_index_left <- searchsorted index dup Left ;;
  right_bound <- searchsorted index dup Right ;;
  let dup_index_right := (right_bound - 1)%Z in
  let num_dups := (dup_index_right - dup_index_left + 1)%Z in
  delta <- try_except
             (ceiling <- getitem index (dup_index_right + 1)%Z ;;
              ret (rnd (rnd (ceiling - dup) / inject_Z num_dups)))
             IndexError
             (ret max_delta) ;;
  let delta := if Qlt_bool max_delta delta then max_delta else delta in
  let dup_index_left := (dup_index_left + 1)%Z in
  add_deltas_r (S (Z.to_nat (dup_index_right - dup_index_left + 1)))
               new_index dup_index_left dup_index_right delta.

Definition handle_duplicate_index_r {V : Type} (nan : V)
           (data : Series V) (max_delta : Q) : M (Series V) :=
  let idx := index data in
  let new_index := idx in
  dups <- get_duplicates idx ;;
  for_each dups (handle_dup_r idx new_index max_delta) ;;;
  reindex nan data new_index.

(** What these loops compute on the buffer. *)
Fixpoint bump_r (a : list Q) (i n : nat) (delta : Q) : list Q :=
  match n with
  | O => a
  | S n' => bump_r (upd a i (rnd (nth i a 0 + delta))) (S i) n'
                   (rnd (delta + delta))
  end.

Definition first_delta_r (max_delta : Q) (a : list Q) (dup : Q) : Q :=
  let l := search Left a dup in
  let r := search Right a dup in
  let delta :=
    if (r <? length a)%nat
    then rnd (rnd (nth r a 0 - dup)
              / inject_Z (Z.of_nat r - 1 - Z.of_nat l + 1))
    else max_delta in
  if Qlt_bool max_delta delta then max_delta else delta.

Definition process_r (max_delta : Q) (a : list Q) (dup : Q) : list Q :=
  let l := search Left a dup in
  let r := search Right a dup in
  bump_r a (S l) (r - 1 - l) (first_delta_r max_delta a dup).

Definition adjusted_r (max_delta : Q) (a : list Q) : list Q :=
  fold_left (process_r max_delta) (duplicates_of a) a.

(** [k] rounded doublings of an increment. *)
Fixpoint dbl_r (k : nat) (delta : Q) : Q :=
  match k with
  | O => delta
  | S k' => dbl_r k' (rnd (delta + delta))
  end.

End Rounded.

(** ** listify

    Python values, as far as [isinstance(to_select, list)] tells them
    apart: lists, and everything else (numbers and strings, but also the
    other sequences, tuples among them).  The function returns its
    argument when it is a list and a new one-element list holding the
    argument otherwise; the model returns the items of that list. *)

Unset Elimination Schemes.
Inductive pyobj (A : Type) : Type :=
| PyAtom (a : A)
| PyTuple (items : list (pyobj A))
| PyList (items : list (pyobj A)).
Set Elimination Schemes.
Arguments PyAtom {A} a.
Arguments PyTuple {A} items.
Arguments PyList {A} items.

Definition isinstance_list {A : Type} (x : pyobj A) : bool :=
  match x with
  | PyList _ => true
  | _ => false
  end.

Definition listify {A : Type} (to_select : pyobj A) : list (pyobj A) :=
  if negb (isinstance_list to_select)
  then [to_select]
  else match to_select with
       | PyList items => items
       | other => [other]
       end.

(** ** The examples of the repository

    The series of the docstring of [handle_duplicate_index] (index
    [0, 1, 1, 6, 7]) and the frame of the [squash_into_window] tests
    (values 5 to 9 at times 0 to 4), each alone in its store. *)
Definition docstring_store : heap := [[0; 1; 1; 6; 7]].
Definition docstring_series : Series Z := mkSeries 0%nat [0; 1; 2; 3; 4]%Z.
Definition test_store : heap := [[0; 1; 2; 3; 4]].
Definition test_frame : Series Z := mkSeries 0%nat [5; 6; 7; 8; 9]%Z.

(** * Properties *)

(** ** The store *)

Lemma upd_length {A : Type} (l : list A) (i : nat) (x : A) :
  length (upd l i x) = length l.
Proof.
  revert i; induction l as [|y l IH]; intros [|i]; simpl; auto.
Qed.

Lemma nth_error_upd_same {A : Type} (l : list A) (i : nat) (x : A) :
  (i < length l)%nat -> nth_error (upd l i x) i = Some x.
Proof.
  revert i; induction l as [|y l IH]; intros [|i] H; simpl in *; try lia; auto.
  apply IH; lia.
Qed.

Lemma nth_error_upd_other {A : Type} (l : list A) (i j : nat) (x : A) :
  i <> j -> nth_error (upd l i x) j = nth_error l j.
Proof.
  revert i j; induction l as [|y l IH]; intros [|i] [|j] H; simpl; auto; try lia.
Qed.

Lemma nth_upd_same {A : Type} (l : list A) (i : nat) (x d : A) :
  (i < length l)%nat -> nth i (upd l i x) d = x.
Proof.
  revert i; induction l as [|y l IH]; intros [|i] H; simpl in *; try lia; auto.
  apply IH; lia.
Qed.

Lemma nth_upd_other {A : Type} (l : list A) (i j : nat) (x d : A) :
  i <> j -> nth j (upd l i x) d = nth j l d.
Proof.
  revert i j; induction l as [|y l IH]; intros [|i] [|j] H; simpl; auto; try lia.
Qed.

Lemma upd_upd {A : Type} (l : list A) (i : nat) (x y : A) :
  upd (upd l i x) i y = upd l i y.
Proof.
  revert i; induction l as [|z l IH]; intros [|i]; simpl; auto.
  now rewrite IH.
Qed.

Lemma upd_nth_error {A : Type} (l : list A) (i : nat) (x : A) :
  nth_error l i = Some x -> upd l i x = l.
Proof.
  revert i; induction l as [|z l IH]; intros [|i] H; simpl in *; try discriminate.
  - now inversion H.
  - now rewrite IH.
Qed.

(** ** Running the array primitives on a store whose cell [arr] holds [a] *)

Section Running.

Variable h : heap.
Variable arr : loc.
Hypothesis arr_valid : (arr < length h)%nat.

Lemma load_upd (a : list Q) : load arr (upd h arr a) = Ok a (upd h arr a).
Proof.
  unfold load. now rewrite nth_error_upd_same.
Qed.

Lemma store_upd (a b : list Q) : store arr b (upd h arr a) = Ok tt (upd h arr b).
Proof.
  unfold store. rewrite upd_length.
  destruct (Nat.ltb_spec arr (length h)); [|lia].
  now rewrite upd_upd.
Qed.

Lemma norm_index_in (len : nat) (i : nat) :
  (i < len)%nat -> norm_index len (Z.of_nat i) = Some i.
Proof.
  intros H. unfold norm_index.
  destruct (Z.leb_spec 0 (Z.of_nat i)); [|lia].
  destruct (Z.ltb_spec (Z.of_nat i) (Z.of_nat len)); [|lia].
  simpl. now rewrite Nat2Z.id.
Qed.

Lemma norm_index_out (len : nat) (i : nat) :
  (len <= i)%nat -> norm_index len (Z.of_nat i) = None.
Proof.
  intros H. unfold norm_index.
  destruct (Z.ltb_spec (Z.of_nat i) (Z.of_nat len)); [lia|].
  rewrite andb_false_r.
  destruct (Z.ltb_spec (Z.of_nat i) 0); [lia|].
  now rewrite andb_false_r.
Qed.

Lemma getitem_in (a : list Q) (i : nat) :
  (i < length a)%nat ->
  getitem arr (Z.of_nat i) (upd h arr a) = Ok (nth i a 0) (upd h arr a).
Proof.
  intros H. unfold getitem, bind. rewrite load_upd.
  now rewrite norm_index_in.
Qed.

Lemma getitem_out (a : list Q) (i : nat) :
  (length a <= i)%nat ->
  getitem arr (Z.of_nat i) (upd h arr a) = Raise IndexError (upd h arr a).
Proof.
  intros H. unfold getitem, bind. rewrite load_upd.
  now rewrite norm_index_out.
Qed.

Lemma iadd_item_in (a : list Q) (i : nat) (x : Q) :
  (i < length a)%nat ->
  iadd_item arr (Z.of_nat i) x (upd h arr a)
  = Ok tt (upd h arr (upd a i (nth i a 0 + x))).
Proof.
  intros H. unfold iadd_item, bind. rewrite load_upd.
  rewrite norm_index_in by assumption. apply store_upd.
Qed.

End Running.

(** ** Binary search *)

Lemma mid_between (lo hi : nat) :
  (lo < hi)%nat ->
  (lo <= lo + Nat.div2 (hi - lo) < hi)%nat.
Proof.
  intros H. assert (Nat.div2 (hi - lo) < hi - lo)%nat by (apply Nat.lt_div2; lia).
  generalize dependent (Nat.div2 (hi - lo)). intros; lia.
Qed.

(** The loop always ends within its budget, between the bounds it was
    started with. *)
Lemma binsearch_total (s : side) (arr : list Q) (key : Q) :
  forall fuel lo hi,
    (lo <= hi)%nat -> (hi - lo < fuel)%nat ->
    exists i, binsearch fuel s arr key lo hi = Some i /\ (lo <= i <= hi)%nat.
Proof.
  induction fuel as [|fuel IH]; intros lo hi Hle Hfuel; [lia|].
  simpl. destruct (Nat.ltb_spec lo hi) as [Hlt|Hge].
  - pose proof (mid_between lo hi Hlt) as Hmid.
    set (mid := (lo + Nat.div2 (hi - lo))%nat) in *. clearbody mid.
    destruct (side_cmp s _ key).
    + destruct (IH (mid + 1)%nat hi) as (i & Hi & Hb); try lia.
      exists i; split; [exact Hi | lia].
    + destruct (IH lo mid) as (i & Hi & Hb); try lia.
      exists i; split; [exact Hi | lia].
  - exists lo; split; [reflexivity | lia].
Qed.

(** When the comparison holds on every position below [p] and fails on
    every position from [p] on, the search returns [p]. *)
Lemma binsearch_partition (s : side) (arr : list Q) (key : Q) (p : nat) :
  forall fuel lo hi,
    (lo <= p <= hi)%nat -> (hi - lo < fuel)%nat ->
    (forall i, (lo <= i < p)%nat -> side_cmp s (nth i arr 0) key = true) ->
    (forall i, (p <= i < hi)%nat -> side_cmp s (nth i arr 0) key = false) ->
    binsearch fuel s arr key lo hi = Some p.
Proof.
  induction fuel as [|fuel IH]; intros lo hi Hp Hfuel Hbelow Habove; [lia|].
  simpl. destruct (Nat.ltb_spec lo hi) as [Hlt|Hge].
  - pose proof (mid_between lo hi Hlt) as Hmid.
    set (mid := (lo + Nat.div2 (hi - lo))%nat) in *. clearbody mid.
    destruct (side_cmp s (nth mid arr 0) key) eqn:Hc.
    + assert (mid < p)%nat.
      { destruct (Nat.lt_ge_cases mid p) as [|Hge]; auto.
        rewrite Habove in Hc by lia. discriminate. }
      apply IH; try lia; intros i Hi; [apply Hbelow | apply Habove]; lia.
    + assert (p <= mid)%nat.
      { destruct (Nat.lt_ge_cases mid p) as [Hl|]; auto.
        rewrite Hbelow in Hc by lia. discriminate. }
      apply IH; try lia; intros i Hi; [apply Hbelow | apply Habove]; lia.
  - f_equal. lia.
Qed.

Lemma search_spec (s : side) (a : list Q) (key : Q) :
  binsearch (S (length a)) s a key 0 (length a) = Some (search s a key)
  /\ (search s a key <= length a)%nat.
Proof.
  unfold search.
  destruct (binsearch_total s a key (S (length a)) 0 (length a)) as (i & Hi & Hb);
    try lia.
  rewrite Hi. split; [reflexivity | lia].
Qed.

Lemma search_le_length (s : side) (a : list Q) (key : Q) :
  (search s a key <= length a)%nat.
Proof. apply search_spec. Qed.

Lemma search_partition (s : side) (a : list Q) (key : Q) (p : nat) :
  (p <= length a)%nat ->
  (forall i, (i < p)%nat -> side_cmp s (nth i a 0) key = true) ->
  (forall i, (p <= i < length a)%nat -> side_cmp s (nth i a 0) key = false) ->
  search s a key = p.
Proof.
  intros Hp Hbelow Habove. unfold search.
  rewrite (binsearch_partition s a key p); try lia; auto.
  intros i Hi; apply Hbelow; lia.
Qed.

(** ** The loops of handle_duplicate_index on the store *)

Lemma bump_length (n : nat) :
  forall a i delta, length (bump a i n delta) = length a.
Proof.
  induction n as [|n IH]; intros a i delta; simpl; auto.
  now rewrite IH, upd_length.
Qed.

Section RunningLoops.

Variable h : heap.
Variable arr : loc.
Hypothesis arr_valid : (arr < length h)%nat.

Lemma searchsorted_run (a : list Q) (key : Q) (s : side) :
  searchsorted arr key s (upd h arr a)
  = Ok (Z.of_nat (search s a key)) (upd h arr a).
Proof.
  unfold searchsorted, bind. rewrite load_upd by assumption.
  destruct (search_spec s a key) as [-> _]. reflexivity.
Qed.

(** The while loop runs exactly [right - left + 1] rounds (none when
    that is negative), never exhausts its budget and never indexes
    outside the buffer. *)
Lemma add_deltas_run (n : nat) :
  forall fuel (a : list Q) (left right : Z) (delta : Q),
    Z.to_nat (right - left + 1) = n ->
    (n < fuel)%nat ->
    (0 <= left)%Z ->
    (n = 0%nat \/ right < Z.of_nat (length a))%Z ->
    add_deltas fuel arr left right delta (upd h arr a)
    = Ok tt (upd h arr (bump a (Z.to_nat left) n delta)).
Proof.
  induction n as [|n IH]; intros fuel a left right delta Hn Hfuel Hleft Hright;
    (destruct fuel as [|fuel]; [lia|]); simpl.
  - destruct (Z.leb_spec left right); [lia | reflexivity].
  - destruct (Z.leb_spec left right); [|lia].
    unfold bind.
    rewrite <- (Z2Nat.id left) at 1 by assumption.
    rewrite iadd_item_in by (try assumption; lia).
    rewrite (IH fuel _ (left + 1)%Z right); try lia.
    + replace (Z.to_nat (left + 1)) with (S (Z.to_nat left)) by lia. reflexivity.
    + rewrite upd_length. lia.
Qed.

Lemma handle_dup_run (a : list Q) (max_delta dup : Q) :
  handle_dup arr arr max_delta dup (upd h arr a)
  = Ok tt (upd h arr (process max_delta a dup)).
Proof.
  unfold handle_dup, bind.
  rewrite !searchsorted_run.
  pose proof (search_le_length Right a dup) as Hr.
  set (l := search Left a dup) in *. set (r := search Right a dup) in *.
  assert (Hd : try_except
            (fun h0 => match getitem arr (Z.of_nat r - 1 + 1) h0 with
                       | Ok c h' => ret ((c - dup) / inject_Z (Z.of_nat r - 1 - Z.of_nat l + 1)) h'
                       | Raise e h' => Raise e h'
                       end) IndexError (ret max_delta) (upd h arr a)
          = Ok (if (r <? length a)%nat
                then (nth r a 0 - dup) / inject_Z (Z.of_nat r - 1 - Z.of_nat l + 1)
                else max_delta) (upd h arr a)).
  { unfold try_except. replace (Z.of_nat r - 1 + 1)%Z with (Z.of_nat r) by lia.
    destruct (Nat.ltb_spec r (length a)).
    - now rewrite getitem_in.
    - now rewrite getitem_out. }
  rewrite Hd. clear Hd.
  rewrite (add_deltas_run (r - 1 - l)); try lia.
  - replace (Z.to_nat (Z.of_nat l + 1)) with (S l) by lia.
    unfold process, first_delta. fold l r. reflexivity.
Qed.

Lemma for_each_run (max_delta : Q) (dups : list Q) :
  forall a,
    for_each dups (handle_dup arr arr max_delta) (upd h arr a)
    = Ok tt (upd h arr (fold_left (process max_delta) dups a)).
Proof.
  induction dups as [|d dups IH]; intros a; simpl; [reflexivity|].
  unfold bind. rewrite handle_dup_run. apply IH.
Qed.

End RunningLoops.

(** ** Frames in the store *)

Lemma extends_refl (h : heap) : extends h h.
Proof. exists []. now rewrite app_nil_r. Qed.

Lemma extends_trans (h1 h2 h3 : heap) :
  extends h1 h2 -> extends h2 h3 -> extends h1 h3.
Proof.
  intros [e1 ->] [e2 ->]. exists (e1 ++ e2). now rewrite app_assoc.
Qed.

Lemma extends_alloc (h : heap) (b : list Q) : extends h (h ++ [b]).
Proof. now exists [b]. Qed.

Lemma extends_nth_error (h h' : heap) (l : loc) (a : list Q) :
  extends h h' -> nth_error h l = Some a -> nth_error h' l = Some a.
Proof.
  intros [ext ->] H. rewrite nth_error_app1; auto.
  apply nth_error_Some. congruence.
Qed.

Lemma nth_error_alloc (h : heap) (b : list Q) :
  nth_error (h ++ [b]) (length h) = Some b.
Proof.
  rewrite nth_error_app2 by lia. now rewrite Nat.sub_diag.
Qed.

Section Rows.

Variable V : Type.

Lemma repr_rows (h : heap) (s : Series V) (rs : list (Q * V)) :
  repr h s rs -> rows h s = rs.
Proof.
  intros (a & Ha & _ & Hrs). unfold rows. now rewrite Ha.
Qed.

Lemma well_formed_repr (h : heap) (s : Series V) :
  well_formed h s -> repr h s (rows h s).
Proof.
  unfold well_formed, repr, rows.
  destruct (nth_error h (index s)) as [a|]; [|tauto].
  intros H. exists a. auto.
Qed.

Lemma repr_extends (h h' : heap) (s : Series V) (rs : list (Q * V)) :
  extends h h' -> repr h s rs -> repr h' s rs.
Proof.
  intros Hext (a & Ha & Hlen & Hrs). exists a.
  split; [eapply extends_nth_error; eauto | auto].
Qed.

Lemma repr_alloc (h : heap) (a : list Q) (vs : list V) :
  length a = length vs ->
  repr (h ++ [a]) (mkSeries (length h) vs) (combine a vs).
Proof.
  intros Hlen. exists a. simpl. rewrite nth_error_alloc. auto.
Qed.

Lemma map_fst_combine (a : list Q) (vs : list V) :
  length a = length vs -> map fst (combine a vs) = a.
Proof.
  revert vs; induction a as [|x a IH]; intros [|v vs] H; simpl in *;
    try discriminate; auto.
  f_equal. apply IH. lia.
Qed.

Lemma repr_index (h : heap) (s : Series V) (rs : list (Q * V)) :
  repr h s rs -> nth_error h (index s) = Some (map fst rs).
Proof.
  intros (a & Ha & Hlen & <-). now rewrite map_fst_combine.
Qed.

(** Selecting by a mask computed from the labels is filtering the rows. *)
Lemma select_combine (p : Q -> bool) :
  forall (a : list Q) (vs : list V),
    length a = length vs ->
    length (select (map p a) a) = length (select (map p a) vs)
    /\ combine (select (map p a) a) (select (map p a) vs)
       = filter (fun r => p (fst r)) (combine a vs).
Proof.
  induction a as [|x a IH]; intros [|v vs] H; simpl in *; try discriminate; auto.
  destruct (IH vs) as [IH1 IH2]; [lia|].
  destruct (p x); simpl; split; auto. now rewrite IH2.
Qed.

Lemma mask_and_map (p q : Q -> bool) (a : list Q) :
  mask_and (map p a) (map q a) = map (fun x => p x && q x) a.
Proof.
  induction a as [|x a IH]; simpl; auto. now rewrite IH.
Qed.

Lemma last_row_combine :
  forall (a : list Q) (vs : list V),
    length a = length vs ->
    length (last_row a) = length (last_row vs)
    /\ combine (last_row a) (last_row vs) = last_row (combine a vs).
Proof.
  intros a vs H. unfold last_row. rewrite length_combine, <- H, Nat.min_id.
  generalize (length a - 1)%nat as n. revert vs H.
  induction a as [|x a IH]; intros [|v vs] H n; simpl in *; try discriminate.
  - destruct n; auto.
  - destruct n as [|n]; simpl; [split; auto; f_equal; lia|].
    apply IH. lia.
Qed.

Lemma last_row_length {A : Type} (l : list A) :
  length (last_row l) = (if (length l =? 0)%nat then 0 else 1)%nat.
Proof.
  unfold last_row. rewrite length_skipn.
  destruct (Nat.eqb_spec (length l) 0); lia.
Qed.

Lemma last_row_snoc {A : Type} (l : list A) (x : A) :
  last_row (l ++ [x]) = [x].
Proof.
  unfold last_row. rewrite length_app. simpl.
  replace (length l + 1 - 1)%nat with (length l + 0)%nat by lia.
  rewrite skipn_app, skipn_all2 by lia.
  replace (length l + 0 - length l)%nat with 0%nat by lia. reflexivity.
Qed.

Lemma last_row_cases {A : Type} (l : list A) :
  (l = [] /\ last_row l = [])
  \/ (exists pre x, l = pre ++ [x] /\ last_row l = [x]).
Proof.
  induction l as [|x pre _] using rev_ind.
  - left. auto.
  - right. exists pre, x. split; auto. apply last_row_snoc.
Qed.

End Rows.

(** ** Running the frame primitives *)

Section RunningFrames.

Variable V : Type.
Implicit Types (df : Series V) (rs : list (Q * V)).

Lemma index_cmp_run (p : Q -> bool) h df rs :
  repr h df rs ->
  (a <- load (index df) ;; ret (map p a)) h = Ok (map p (map fst rs)) h.
Proof.
  intros H. unfold bind, load. now rewrite (repr_index _ _ _ _ H).
Qed.

Lemma getitem_mask_run (p : Q -> bool) h df rs :
  repr h df rs ->
  exists out h',
    getitem_mask V df (map p (map fst rs)) h = Ok out h'
    /\ extends h h'
    /\ repr h' out (filter (fun r => p (fst r)) rs).
Proof.
  intros H. pose proof (repr_index _ _ _ _ H) as Hi.
  destruct H as (a & Ha & Hlen & Hrs).
  unfold getitem_mask, bind, load, alloc, ret. rewrite Hi.
  do 2 eexists. split; [reflexivity|]. split; [apply extends_alloc|].
  rewrite <- Hrs, map_fst_combine by assumption.
  destruct (select_combine V p a (values df) Hlen) as [H1 H2].
  rewrite <- H2. now apply repr_alloc.
Qed.

Lemma iloc_last_run h df rs :
  repr h df rs ->
  exists out h',
    iloc_last V df h = Ok out h' /\ extends h h' /\ repr h' out (last_row rs).
Proof.
  intros (a & Ha & Hlen & Hrs).
  unfold iloc_last, bind, load, alloc, ret. rewrite Ha.
  do 2 eexists. split; [reflexivity|]. split; [apply extends_alloc|].
  destruct (last_row_combine V a (values df) Hlen) as [H1 H2].
  rewrite <- Hrs, <- H2. now apply repr_alloc.
Qed.

Lemma empty_run h df rs :
  repr h df rs -> empty V df h = Ok (length rs =? 0)%nat h.
Proof.
  intros H. unfold empty, bind, load, ret. rewrite (repr_index _ _ _ _ H).
  now rewrite length_map.
Qed.

Lemma set_index_run (t : Q) h df rs :
  repr h df rs -> length rs = 1%nat ->
  exists out h',
    set_index V df [t] h = Ok out h' /\ extends h h' /\ repr h' out (relabel t rs).
Proof.
  intros H Hone. pose proof (repr_index _ _ _ _ H) as Hi.
  destruct H as (a & Ha & Hlen & Hrs).
  unfold set_index, bind, load, alloc, ret. rewrite Hi, length_map, Hone. simpl.
  do 2 eexists. split; [reflexivity|]. split; [apply extends_alloc|].
  assert (Hv : length (values df) = 1%nat).
  { rewrite <- Hrs, length_combine, Hlen, Nat.min_id in Hone. exact Hone. }
  replace (relabel t rs) with (combine [t] (values df)).
  - apply repr_alloc. simpl. now rewrite Hv.
  - rewrite <- Hrs. clear - Hlen Hv.
    destruct (values df) as [|v [|? ?]]; simpl in *; try discriminate.
    destruct a as [|x [|? ?]]; simpl in *; try discriminate.
    reflexivity.
Qed.

Lemma concat_run h (a b : Series V) ra rb :
  repr h a ra -> repr h b rb ->
  exists out h',
    concat V a b h = Ok out h' /\ extends h h' /\ repr h' out (ra ++ rb).
Proof.
  intros (ia & Ha & Hla & Hra) (ib & Hb & Hlb & Hrb).
  unfold concat, bind, load, alloc, ret. rewrite Ha, Hb.
  do 2 eexists. split; [reflexivity|]. split; [apply extends_alloc|].
  exists (ia ++ ib). simpl. rewrite nth_error_alloc.
  split; auto. split.
  - rewrite !length_app. lia.
  - rewrite <- Hra, <- Hrb. clear - Hla.
    revert Hla. generalize (values a) as va. 
    induction ia as [|x ia IH]; intros [|v va] H; simpl in *; try discriminate; auto.
    f_equal. apply IH. lia.
Qed.

(** Relabelling the last row when there is one: the [if not ....empty]
    step of the source. *)
Lemma relabel_last_run (t : Q) h df rs :
  repr h df rs -> (length rs <= 1)%nat ->
  exists out h',
    (is_empty <- empty V df ;;
     if negb is_empty then set_index V df [t] else ret df) h = Ok out h'
    /\ extends h h'
    /\ repr h' out (relabel t rs).
Proof.
  intros H Hlen. unfold bind at 1. rewrite (empty_run _ _ _ H).
  destruct (Nat.eqb_spec (length rs) 0) as [Hz|Hnz]; simpl.
  - exists df, h. split; [reflexivity|]. split; [apply extends_refl|].
    destruct rs; [exact H | discriminate].
  - apply set_index_run; auto. lia.
Qed.

Lemma squash_into_window_run h df rs (start_time end_time : Q) :
  repr h df rs ->
  exists out h',
    squash_into_window df (start_time, end_time) h = Ok out h'
    /\ extends h h'
    /\ repr h' out (squash_rows rs start_time end_time).
Proof.
  intros H. unfold squash_into_window, index_ge, index_lt, index_le.
  unfold bind at 1. rewrite (index_cmp_run _ _ _ _ H).
  unfold bind at 1. rewrite (index_cmp_run _ _ _ _ H).
  rewrite mask_and_map.
  destruct (getitem_mask_run
              (fun x => Qle_bool start_time x && Qlt_bool x end_time) _ _ _ H)
    as (window_df & h1 & E1 & X1 & R1).
  unfold bind at 1. rewrite E1.
  pose proof (repr_extends _ _ _ _ _ X1 H) as H1.
  unfold bind at 1. rewrite (index_cmp_run _ _ _ _ H1).
  destruct (getitem_mask_run (fun x => Qlt_bool x start_time) _ _ _ H1)
    as (before_df & h2 & E2 & X2 & R2).
  unfold bind at 1. rewrite E2.
  destruct (iloc_last_run _ _ _ R2) as (first0 & h3 & E3 & X3 & R3).
  unfold bind at 1. rewrite E3.
  destruct (relabel_last_run start_time _ _ _ R3) as (first & h4 & E4 & X4 & R4).
  { rewrite last_row_length. destruct (_ =? _)%nat; lia. }
  unfold bind at 1 in E4. unfold bind at 1. 
  destruct (empty V first0 h3) as [is_empty h3'|] eqn:Eem; [|discriminate].
  unfold bind at 1. rewrite E4.
  assert (Rw : repr h4 window_df
                 (filter (fun r => Qle_bool start_time (fst r)
                                   && Qlt_bool (fst r) end_time) rs)).
  { eapply repr_extends; [|exact R1].
    eapply extends_trans; [exact X2|]. eapply extends_trans; eauto. }
  destruct (concat_run _ _ _ _ _ R4 Rw) as (partial & h5 & E5 & X5 & R5).
  unfold bind at 1. rewrite E5.
  unfold bind at 1. rewrite (index_cmp_run _ _ _ _ R5).
  destruct (getitem_mask_run (fun x => Qle_bool x end_time) _ _ _ R5)
    as (upto_df & h6 & E6 & X6 & R6).
  unfold bind at 1. rewrite E6.
  destruct (iloc_last_run _ _ _ R6) as (last0 & h7 & E7 & X7 & R7).
  unfold bind at 1. rewrite E7.
  destruct (relabel_last_run end_time _ _ _ R7) as (last & h8 & E8 & X8 & R8).
  { rewrite last_row_length. destruct (_ =? _)%nat; lia. }
  unfold bind at 1 in E8. unfold bind at 1.
  destruct (empty V last0 h7) as [is_empty' h7'|] eqn:Eem'; [|discriminate].
  unfold bind at 1. rewrite E8.
  assert (Rp : repr h8 partial
                 (relabel start_time
                    (last_row (filter (fun r => Qlt_bool (fst r) start_time) rs))
                  ++ filter (fun r => Qle_bool start_time (fst r)
                                      && Qlt_bool (fst r) end_time) rs)).
  { eapply repr_extends; [|exact R5].
    eapply extends_trans; [exact X6|]. eapply extends_trans; eauto. }
  destruct (concat_run _ _ _ _ _ Rp R8) as (out & h9 & E9 & X9 & R9).
  exists out, h9. split; [exact E9|]. split; [|exact R9].
  repeat (eapply extends_trans; [eassumption|]). apply extends_refl.
Qed.

End RunningFrames.

(** ** A run of handle_duplicate_index *)

Lemma process_length (max_delta : Q) (a : list Q) (dup : Q) :
  length (process max_delta a dup) = length a.
Proof. unfold process. apply bump_length. Qed.

(** When the searches leave no entry to adjust, the buffer is left as it
    is, whatever the increment. *)
Lemma process_without_rounds (max_delta : Q) (a : list Q) (dup : Q) :
  (search Right a dup - 1 - search Left a dup = 0)%nat ->
  process max_delta a dup = a.
Proof. unfold process. now intros ->. Qed.

Lemma fold_process_length (max_delta : Q) (dups : list Q) :
  forall a, length (fold_left (process max_delta) dups a) = length a.
Proof.
  induction dups as [|d dups IH]; intros a; simpl; auto.
  now rewrite IH, process_length.
Qed.

Lemma adjusted_length (max_delta : Q) (a : list Q) :
  length (adjusted max_delta a) = length a.
Proof. apply fold_process_length. Qed.

Lemma index_equals_refl (a : list Q) : index_equals a a = true.
Proof.
  induction a as [|x a IH]; simpl; auto.
  rewrite IH, andb_true_r. apply Qeq_bool_iff. reflexivity.
Qed.

Section RunningResolver.

Variable V : Type.
Variable nan : V.

(** The whole function, on any store that holds the index buffer: it
    returns normally; the buffer of the caller's index now holds the
    adjusted labels; the returned series has that same buffer as its
    index and the caller's values. *)
Lemma handle_duplicate_index_run (h : heap) (data : Series V) (max_delta : Q)
      (a : list Q) :
  nth_error h (index data) = Some a ->
  handle_duplicate_index nan data max_delta h
  = Ok (mkSeries (index data) (values data))
       (upd h (index data) (adjusted max_delta a)).
Proof.
  intros Ha.
  assert (Hv : (index data < length h)%nat).
  { apply nth_error_Some. congruence. }
  unfold handle_duplicate_index, get_duplicates.
  unfold bind at 1. unfold bind at 1. unfold load at 1. rewrite Ha.
  unfold ret at 1. unfold bind at 1.
  rewrite <- (upd_nth_error h (index data) a Ha) at 1.
  rewrite for_each_run by assumption.
  unfold reindex, bind. rewrite !load_upd by assumption.
  rewrite index_equals_refl. reflexivity.
Qed.

End RunningResolver.

(** * The claims about handle_duplicate_index that need no arithmetic *)

Section ResolverClaims.

Variable V : Type.
Variable nan : V.

Lemma well_formed_buffer (h : heap) (s : Series V) :
  well_formed h s ->
  exists a, nth_error h (index s) = Some a /\ length a = length (values s).
Proof.
  unfold well_formed. destruct (nth_error h (index s)) as [a|]; [|tauto].
  intros H. exists a. auto.
Qed.

Lemma map_snd_combine_same_length (a b : list Q) (vs : list V) :
  length a = length b -> map snd (combine a vs) = map snd (combine b vs).
Proof.
  revert b vs. induction a as [|x a IH]; intros [|y b] vs H; simpl in *;
    try discriminate; auto.
  destruct vs as [|v vs]; simpl; auto. f_equal. apply IH. lia.
Qed.

Lemma rows_upd_same (h : heap) (s : Series V) (a : list Q) :
  (index s < length h)%nat -> rows (upd h (index s) a) s = combine a (values s).
Proof.
  intros H. unfold rows. now rewrite nth_error_upd_same.
Qed.

(** C6: the values of the series returned by handle_duplicate_index are
    the values of the input, in the same order; the call returns normally
    on every well-formed series, whatever its timestamps and whatever
    max_delta. *)
Theorem handle_duplicate_index_values (h : heap) (data : Series V) (max_delta : Q) :
  well_formed h data ->
  exists out h',
    handle_duplicate_index nan data max_delta h = Ok out h'
    /\ values out = values data
    /\ map snd (rows h' out) = map snd (rows h data)
    /\ length (rows h' out) = length (rows h data).
Proof.
  intros Hwf. destruct (well_formed_buffer _ _ Hwf) as (a & Ha & Hlen).
  assert (Hv : (index data < length h)%nat) by (apply nth_error_Some; congruence).
  do 2 eexists. split; [apply handle_duplicate_index_run; exact Ha|].
  split; [reflexivity|].
  change (rows ?h' (mkSeries (index data) (values data))) with (rows h' data).
  rewrite rows_upd_same by assumption.
  unfold rows at 1 2. rewrite Ha. split.
  - apply map_snd_combine_same_length. apply adjusted_length.
  - rewrite !length_combine, adjusted_length. reflexivity.
Qed.

End ResolverClaims.

Lemma handle_duplicate_index_values_witness :
  well_formed [[0; 1; 1; 6; 7]] (mkSeries 0%nat [0; 1; 2; 3; 4]%Z)
  /\ exists out h',
       handle_duplicate_index 0%Z (mkSeries 0%nat [0; 1; 2; 3; 4]%Z) (1 # 1000)
                              [[0; 1; 1; 6; 7]] = Ok out h'
       /\ values out = [0; 1; 2; 3; 4]%Z
       /\ map snd (rows h' out)
          = map snd (rows [[0; 1; 1; 6; 7]] (mkSeries 0%nat [0; 1; 2; 3; 4]%Z))
       /\ length (rows h' out)
          = length (rows [[0; 1; 1; 6; 7]] (mkSeries 0%nat [0; 1; 2; 3; 4]%Z)).
Proof.
  split; [reflexivity|].
  apply (handle_duplicate_index_values Z 0%Z [[0; 1; 1; 6; 7]]
           (mkSeries 0%nat [0; 1; 2; 3; 4]%Z) (1 # 1000)).
  reflexivity.
Defined.

Section EffectClaims.

Variable V : Type.
Variable nan : V.

(** C9 (as the code has it): neither function checks its input.  On
    every well-formed series or frame, handle_duplicate_index returns
    normally for every max_delta, positive or not, sorted timestamps or
    not, and squash_into_window returns normally for every window, also
    when it starts after it ends.  No exception reaches the caller. *)
Theorem no_input_validation (h : heap) (s : Series V) (max_delta : Q) (window : Q * Q) :
  well_formed h s ->
  (exists out h', handle_duplicate_index nan s max_delta h = Ok out h')
  /\ (exists out h', squash_into_window s window h = Ok out h').
Proof.
  intros Hwf. split.
  - destruct (well_formed_buffer _ _ _ Hwf) as (a & Ha & _).
    do 2 eexists. apply handle_duplicate_index_run. exact Ha.
  - destruct window as [start_time end_time].
    destruct (squash_into_window_run V h s _ start_time end_time
                (well_formed_repr _ _ _ Hwf)) as (out & h' & E & _).
    eauto.
Qed.

(** C5 (as the code has it): squash_into_window only allocates: every
    buffer of the caller's store is still there, unchanged, so the
    caller's frame shows the rows it showed before.  handle_duplicate_index
    leaves every other buffer and the caller's values alone but writes
    the adjusted timestamps into the buffer of the caller's own index:
    the returned series has that very buffer as its index, and after
    the call the caller's series shows the rows of the returned one. *)
Theorem effects_on_the_caller (h : heap) (s : Series V) (max_delta : Q) (window : Q * Q) :
  well_formed h s ->
  (exists out h',
      squash_into_window s window h = Ok out h'
      /\ extends h h'
      /\ rows h' s = rows h s)
  /\ (exists out h',
         handle_duplicate_index nan s max_delta h = Ok out h'
         /\ index out = index s
         /\ length h' = length h
         /\ (forall l, l <> index s -> nth_error h' l = nth_error h l)
         /\ map snd (rows h' s) = map snd (rows h s)
         /\ rows h' s = rows h' out).
Proof.
  intros Hwf. split.
  - destruct window as [start_time end_time].
    pose proof (well_formed_repr _ _ _ Hwf) as Hr.
    destruct (squash_into_window_run V h s _ start_time end_time Hr)
      as (out & h' & E & X & _).
    exists out, h'. split; [exact E|]. split; [exact X|].
    apply repr_rows. eapply repr_extends; eauto.
  - destruct (well_formed_buffer _ _ _ Hwf) as (a & Ha & Hlen).
    assert (Hv : (index s < length h)%nat) by (apply nth_error_Some; congruence).
    do 2 eexists. split; [apply handle_duplicate_index_run; exact Ha|].
    split; [reflexivity|]. split; [apply upd_length|].
    split; [intros l Hl; apply nth_error_upd_other; auto|].
    split; [|reflexivity].
    rewrite rows_upd_same by assumption. unfold rows. rewrite Ha.
    apply map_snd_combine_same_length. apply adjusted_length.
Qed.

End EffectClaims.

Lemma no_input_validation_witness :
  well_formed [[0; 1; 1; 6; 7]] (mkSeries 0%nat [0; 1; 2; 3; 4]%Z)
  /\ (exists out h',
         handle_duplicate_index 0%Z (mkSeries 0%nat [0; 1; 2; 3; 4]%Z) (-1 # 1000)
                                [[0; 1; 1; 6; 7]] = Ok out h')
  /\ (exists out h',
         squash_into_window (mkSeries 0%nat [0; 1; 2; 3; 4]%Z) (7, 1)
                            [[0; 1; 1; 6; 7]] = Ok out h').
Proof.
  split; [reflexivity|].
  apply (no_input_validation Z 0%Z [[0; 1; 1; 6; 7]]
           (mkSeries 0%nat [0; 1; 2; 3; 4]%Z) (-1 # 1000) (7, 1)).
  reflexivity.
Defined.

(** C9, refuted as stated: an unsorted series, a max_delta of zero and a
    negative one, and a window that starts after it ends all get a
    normal return, not an exception. *)
Lemma invalid_input_is_accepted :
  (sortedb [3; 1; 2; 1] = false
   /\ exists out h',
        handle_duplicate_index 0%Z (mkSeries 0%nat [5; 6; 7; 8]%Z) (1 # 1000)
                               [[3; 1; 2; 1]] = Ok out h')
  /\ (exists out h',
         handle_duplicate_index 0%Z (mkSeries 0%nat [0; 1; 2; 3; 4]%Z) 0
                                [[0; 1; 1; 6; 7]] = Ok out h')
  /\ (exists out h',
         handle_duplicate_index 0%Z (mkSeries 0%nat [0; 1; 2; 3; 4]%Z) (-1 # 1000)
                                [[0; 1; 1; 6; 7]] = Ok out h')
  /\ (Qlt_bool 2 3 = true
      /\ exists out h',
           squash_into_window (mkSeries 0%nat [5; 6]%Z) (3, 2) [[0; 1]] = Ok out h'
           /\ rows h' out = [(3, 6%Z)]).
Proof.
  repeat split; try reflexivity;
    do 2 eexists; try split; vm_compute; reflexivity.
Qed.

Lemma effects_on_the_caller_witness :
  well_formed [[0; 1; 1; 6; 7]] (mkSeries 0%nat [0; 1; 2; 3; 4]%Z)
  /\ (exists out h',
         squash_into_window (mkSeries 0%nat [0; 1; 2; 3; 4]%Z) (1 # 2, 29 # 10)
                            [[0; 1; 1; 6; 7]] = Ok out h'
         /\ extends [[0; 1; 1; 6; 7]] h'
         /\ rows h' (mkSeries 0%nat [0; 1; 2; 3; 4]%Z)
            = rows [[0; 1; 1; 6; 7]] (mkSeries 0%nat [0; 1; 2; 3; 4]%Z))
  /\ (exists out h',
         handle_duplicate_index 0%Z (mkSeries 0%nat [0; 1; 2; 3; 4]%Z) (1 # 1000)
                                [[0; 1; 1; 6; 7]] = Ok out h'
         /\ index out = 0%nat
         /\ length h' = 1%nat
         /\ (forall l, l <> 0%nat -> nth_error h' l = nth_error [[0; 1; 1; 6; 7]] l)
         /\ map snd (rows h' (mkSeries 0%nat [0; 1; 2; 3; 4]%Z))
            = map snd (rows [[0; 1; 1; 6; 7]] (mkSeries 0%nat [0; 1; 2; 3; 4]%Z))
         /\ rows h' (mkSeries 0%nat [0; 1; 2; 3; 4]%Z) = rows h' out).
Proof.
  split; [reflexivity|].
  apply (effects_on_the_caller Z 0%Z [[0; 1; 1; 6; 7]]
           (mkSeries 0%nat [0; 1; 2; 3; 4]%Z) (1 # 1000) (1 # 2, 29 # 10)).
  reflexivity.
Defined.

(** C5, refuted as stated: after the call of the docstring's example the
    caller's own series no longer has the timestamps it was given: its
    third label moved from 1 to 1.001. *)
Lemma caller_index_is_overwritten :
  exists out h',
    handle_duplicate_index 0%Z (mkSeries 0%nat [0; 1; 2; 3; 4]%Z) (1 # 1000)
                           [[0; 1; 1; 6; 7]] = Ok out h'
    /\ timestamps [[0; 1; 1; 6; 7]] (mkSeries 0%nat [0; 1; 2; 3; 4]%Z)
       = [0; 1; 1; 6; 7]
    /\ index_equals (timestamps h' (mkSeries 0%nat [0; 1; 2; 3; 4]%Z))
                    [0; 1; 1001 # 1000; 6; 7] = true
    /\ index_equals (timestamps h' (mkSeries 0%nat [0; 1; 2; 3; 4]%Z))
                    (timestamps [[0; 1; 1; 6; 7]] (mkSeries 0%nat [0; 1; 2; 3; 4]%Z))
       = false.
Proof.
  do 2 eexists. split; [vm_compute; reflexivity|].
  repeat split; vm_compute; reflexivity.
Qed.

(** * Where the doubling of the increment breaks the promises

    The increment added to the entries of a duplicate group doubles from
    one entry to the next ([delta += delta]), while the first increment
    is the gap to the next timestamp divided by the size of the group.
    With four or more entries in a group the last one reaches or passes
    the next timestamp, and with three or more the third is moved by
    more than [max_delta]. *)

(** C1, evaluated where it fails: four events in one microsecond followed
    by an event in the next one, with the default max_delta.  The input
    is sorted and max_delta is positive, yet the fourth event lands
    exactly on the fifth: the returned timestamps are not strictly
    increasing. *)
Theorem duplicate_survives_in_group_of_four :
  exists out h',
    handle_duplicate_index 0%Z (mkSeries 0%nat [10; 11; 12; 13; 14]%Z)
                           default_max_delta
                           [[1; 1; 1; 1; 1000001 # 1000000]] = Ok out h'
    /\ sortedb [1; 1; 1; 1; 1000001 # 1000000] = true
    /\ Qlt_bool 0 default_max_delta = true
    /\ index_equals (timestamps h' out)
                    [1; 4000001 # 4000000; 2000001 # 2000000;
                     1000001 # 1000000; 1000001 # 1000000] = true
    /\ Qeq_bool (nth 3 (timestamps h' out) 0) (nth 4 (timestamps h' out) 0) = true
    /\ increasingb (timestamps h' out) = false.
Proof.
  do 2 eexists. split; [vm_compute; reflexivity|].
  repeat split; vm_compute; reflexivity.
Qed.

(** C2, evaluated where it fails: a group of three at the end of the
    series with max_delta = 0.001.  The third entry is moved from 6 to
    6.002, twice max_delta away from its original timestamp. *)
Theorem third_duplicate_moves_twice_max_delta :
  exists out h',
    handle_duplicate_index 0%Z (mkSeries 0%nat [0; 1; 2; 3; 4; 5]%Z) (1 # 1000)
                           [[0; 1; 2; 6; 6; 6]] = Ok out h'
    /\ sortedb [0; 1; 2; 6; 6; 6] = true
    /\ index_equals (timestamps h' out)
                    [0; 1; 2; 6; 6001 # 1000; 6002 # 1000] = true
    /\ Qeq_bool (nth 5 (timestamps h' out) 0 - 6) (2 * (1 # 1000)) = true
    /\ Qlt_bool (1 # 1000) (nth 5 (timestamps h' out) 0 - 6) = true.
Proof.
  do 2 eexists. split; [vm_compute; reflexivity|].
  repeat split; vm_compute; reflexivity.
Qed.

(** C3, evaluated where it fails: five events in one microsecond followed
    by an event in the next one, with the default max_delta.  The fifth
    event is moved to 1.0000016, past the next original timestamp
    1.000001 (the ceiling of its group). *)
Theorem fifth_duplicate_passes_the_ceiling :
  exists out h',
    handle_duplicate_index 0%Z (mkSeries 0%nat [10; 11; 12; 13; 14; 15]%Z)
                           default_max_delta
                           [[1; 1; 1; 1; 1; 1000001 # 1000000]] = Ok out h'
    /\ sortedb [1; 1; 1; 1; 1; 1000001 # 1000000] = true
    /\ Qlt_bool 0 default_max_delta = true
    /\ index_equals (timestamps h' out)
                    [1; 5000001 # 5000000; 5000002 # 5000000; 5000004 # 5000000;
                     5000008 # 5000000; 1000001 # 1000000] = true
    /\ Qlt_bool (1000001 # 1000000) (nth 4 (timestamps h' out) 0) = true.
Proof.
  do 2 eexists. split; [vm_compute; reflexivity|].
  repeat split; vm_compute; reflexivity.
Qed.


(** * squash_into_window on rows *)

Lemma Qlt_bool_iff (x y : Q) : Qlt_bool x y = true <-> x < y.
Proof.
  unfold Qlt_bool. rewrite negb_true_iff. split.
  - intros H. apply Qnot_le_lt. intros Hle.
    apply Qle_bool_iff in Hle. congruence.
  - intros H. destruct (Qle_bool y x) eqn:E; auto.
    apply Qle_bool_iff in E. exfalso. eapply Qlt_not_le; eauto.
Qed.

Lemma Qlt_bool_false_iff (x y : Q) : Qlt_bool x y = false <-> y <= x.
Proof.
  unfold Qlt_bool. rewrite negb_false_iff. apply Qle_bool_iff.
Qed.

Lemma Qle_bool_false_iff (x y : Q) : Qle_bool x y = false <-> y < x.
Proof.
  rewrite <- Qlt_bool_iff. unfold Qlt_bool.
  destruct (Qle_bool x y); simpl; intuition congruence.
Qed.

Lemma sortedb_tail (x : Q) (l : list Q) :
  sortedb (x :: l) = true -> sortedb l = true.
Proof.
  simpl. destruct l as [|y l]; auto.
  intros H. apply andb_true_iff in H. tauto.
Qed.

Lemma sortedb_head_le (x : Q) (l : list Q) :
  sortedb (x :: l) = true -> forall y, In y l -> x <= y.
Proof.
  revert x. induction l as [|z l IH]; intros x H y Hy; [contradiction|].
  simpl in H. apply andb_true_iff in H. destruct H as [Hxz Hs].
  apply Qle_bool_iff in Hxz. destruct Hy as [<-|Hy]; auto.
  apply Qle_trans with z; auto.
Qed.

Lemma sortedb_app_r (l1 l2 : list Q) :
  sortedb (l1 ++ l2) = true -> sortedb l2 = true.
Proof.
  induction l1 as [|x l1 IH]; simpl app; auto.
  intros H. apply IH. eapply sortedb_tail; eauto.
Qed.

Section SquashRows.

Variable V : Type.
Implicit Types (rs : list (Q * V)) (r : Q * V).

Lemma squash_rows_eq rs (s e : Q) :
  squash_rows rs s e
  = (relabel s (last_row (filter (before s) rs)) ++ filter (within s e) rs)
      ++ relabel e
           (last_row
              (filter (upto e)
                 (relabel s (last_row (filter (before s) rs))
                  ++ filter (within s e) rs))).
Proof. reflexivity. Qed.

Lemma filter_none (f : Q * V -> bool) rs :
  (forall r, In r rs -> f r = false) -> filter f rs = [].
Proof.
  induction rs as [|r rs IH]; intros H; simpl; auto.
  rewrite (H r) by (left; auto). apply IH. intros; apply H; right; auto.
Qed.

Lemma filter_all (f : Q * V -> bool) rs :
  (forall r, In r rs -> f r = true) -> filter f rs = rs.
Proof.
  induction rs as [|r rs IH]; intros H; simpl; auto.
  rewrite (H r) by (left; auto). f_equal. apply IH. intros; apply H; right; auto.
Qed.

(** In a sorted frame the rows before [c] are a prefix. *)
Lemma sorted_split (c : Q) rs :
  sortedb (map fst rs) = true ->
  rs = filter (before c) rs ++ filter (from c) rs.
Proof.
  induction rs as [|r rs IH]; intros Hs; [reflexivity|].
  simpl map in Hs. pose proof (sortedb_tail _ _ Hs) as Hs'.
  simpl. unfold before at 1, from at 1.
  destruct (Qlt_bool (fst r) c) eqn:E.
  - apply Qlt_bool_iff in E.
    assert (Qle_bool c (fst r) = false) as -> by (now apply Qle_bool_false_iff).
    simpl. f_equal. now apply IH.
  - apply Qlt_bool_false_iff in E.
    assert (Qle_bool c (fst r) = true) as -> by (now apply Qle_bool_iff).
    assert (Hall : forall r', In r' rs -> c <= fst r').
    { intros r' Hr'. apply Qle_trans with (fst r); auto.
      eapply sortedb_head_le; eauto. now apply in_map. }
    rewrite filter_none, filter_all; auto.
    + intros r' Hr'. now apply Qle_bool_iff, Hall.
    + intros r' Hr'. now apply Qlt_bool_false_iff, Hall.
Qed.

Lemma relabel_length (t : Q) rs : length (relabel t rs) = length rs.
Proof. apply length_map. Qed.

Lemma relabel_in (t : Q) rs r :
  In r (relabel t rs) -> fst r = t /\ exists r', In r' rs /\ snd r' = snd r.
Proof.
  unfold relabel. rewrite in_map_iff. intros (r' & <- & Hin). simpl. eauto.
Qed.

Lemma last_row_in {A : Type} (l : list A) (x : A) :
  In x (last_row l) -> In x l.
Proof.
  destruct (last_row_cases l) as [[-> ->]|(pre & y & -> & ->)]; auto.
  intros [<-|[]]. apply in_or_app. right. left. auto.
Qed.

Lemma last_row_app_nonempty {A : Type} (l1 l2 : list A) :
  l2 <> [] -> last_row (l1 ++ l2) = last_row l2.
Proof.
  intros H. destruct (last_row_cases l2) as [[-> _]|(pre & y & -> & ->)];
    [congruence|].
  rewrite app_assoc. apply last_row_snoc.
Qed.

Lemma last_row_short {A : Type} (l : list A) :
  (length l <= 1)%nat -> last_row l = l.
Proof.
  destruct l as [|x [|y l]]; simpl; intros; auto; lia.
Qed.

(** With [s <= e] every row of the partial frame is at or before [e]. *)
Lemma partial_upto rs (s e : Q) :
  s <= e ->
  filter (upto e) (relabel s (last_row (filter (before s) rs)) ++ filter (within s e) rs)
  = relabel s (last_row (filter (before s) rs)) ++ filter (within s e) rs.
Proof.
  intros Hse. apply filter_all. intros r Hr. unfold upto. apply Qle_bool_iff.
  apply in_app_or in Hr. destruct Hr as [Hr|Hr].
  - apply relabel_in in Hr. destruct Hr as [-> _]. exact Hse.
  - apply filter_In in Hr. destruct Hr as [_ Hr]. unfold within in Hr.
    apply andb_true_iff in Hr. destruct Hr as [_ Hr].
    apply Qlt_bool_iff in Hr. now apply Qlt_le_weak.
Qed.

End SquashRows.

Section SquashClaims.

Variable V : Type.
Implicit Types (rs : list (Q * V)) (r : Q * V).

Lemma filter_last rs (f : Q * V -> bool) r :
  In r rs -> f r = true ->
  exists pre x, filter f rs = pre ++ [x] /\ last_row (filter f rs) = [x] /\ f x = true.
Proof.
  intros Hin Hf.
  destruct (last_row_cases (filter f rs)) as [[Hnil _]|(pre & x & Hx & Hl)].
  - assert (In r (filter f rs)) by (apply filter_In; auto).
    rewrite Hnil in H. contradiction.
  - exists pre, x. split; auto. split; auto.
    assert (In x (filter f rs)) by (rewrite Hx; apply in_or_app; right; left; auto).
    apply filter_In in H. tauto.
Qed.

(** In a sorted frame, with [s <= e], the rows before [e] are the rows
    before [s] followed by the rows of the window. *)
Lemma before_split rs (s e : Q) :
  sortedb (map fst rs) = true -> s <= e ->
  filter (before e) rs = filter (before s) rs ++ filter (within s e) rs.
Proof.
  intros Hs Hse. induction rs as [|r rs IH]; [reflexivity|].
  simpl map in Hs. pose proof (sortedb_tail _ _ Hs) as Hs'.
  destruct (Qlt_bool (fst r) s) eqn:E.
  - simpl.
    change (before s r) with (Qlt_bool (fst r) s).
    change (before e r) with (Qlt_bool (fst r) e).
    change (within s e r) with (Qle_bool s (fst r) && Qlt_bool (fst r) e).
    rewrite E.
    apply Qlt_bool_iff in E.
    assert (Qlt_bool (fst r) e = true) as ->
        by (apply Qlt_bool_iff; eapply Qlt_le_trans; eauto).
    assert (Qle_bool s (fst r) = false) as -> by (now apply Qle_bool_false_iff).
    simpl. f_equal. now apply IH.
  - apply Qlt_bool_false_iff in E.
    assert (Hall : forall r', In r' (r :: rs) -> s <= fst r').
    { intros r' [<-|Hr']; auto. apply Qle_trans with (fst r); auto.
      eapply sortedb_head_le; eauto. now apply in_map. }
    rewrite (filter_none V (before s)).
    + rewrite app_nil_l. apply filter_ext_in. intros r' Hr'. unfold before, within.
      assert (Qle_bool s (fst r') = true) as -> by (now apply Qle_bool_iff, Hall).
      reflexivity.
    + intros r' Hr'. now apply Qlt_bool_false_iff, Hall.
Qed.

(** C8 (as the code has it): with [start <= end], the returned frame has
    an entry at exactly [start] whenever some input entry lies strictly
    before [start], and an entry at exactly [end] whenever some input
    entry lies strictly before [end].  (An input entry at [end] itself is
    outside the half-open window and does not count.)  The input need
    not be sorted for this. *)
Theorem window_coverage (h : heap) (df : Series V) (start_time end_time : Q) :
  well_formed h df ->
  start_time <= end_time ->
  exists out h',
    squash_into_window df (start_time, end_time) h = Ok out h'
    /\ ((exists r, In r (rows h df) /\ fst r < start_time) ->
        exists v, In (start_time, v) (rows h' out))
    /\ ((exists r, In r (rows h df) /\ fst r < end_time) ->
        exists v, In (end_time, v) (rows h' out)).
Proof.
  intros Hwf Hse.
  destruct (squash_into_window_run V h df _ start_time end_time
              (well_formed_repr _ _ _ Hwf)) as (out & h' & E & _ & R).
  exists out, h'. split; [exact E|].
  rewrite (repr_rows _ _ _ _ R). set (rs := rows h df). clearbody rs.
  rewrite squash_rows_eq, partial_upto by assumption.
  split.
  - intros (r & Hin & Hlt).
    destruct (filter_last rs (before start_time) r Hin) as (pre & x & _ & Hl & _).
    { now apply Qlt_bool_iff. }
    exists (snd x). rewrite Hl. simpl. left. reflexivity.
  - intros (r & Hin & Hlt).
    set (partial := relabel start_time (last_row (filter (before start_time) rs))
                    ++ filter (within start_time end_time) rs).
    assert (Hne : partial <> []).
    { destruct (Qlt_le_dec (fst r) start_time) as [Hb|Hb].
      - destruct (filter_last rs (before start_time) r Hin) as (pre & x & _ & Hl & _).
        { now apply Qlt_bool_iff. }
        unfold partial. rewrite Hl. discriminate.
      - assert (Hw : In r (filter (within start_time end_time) rs)).
        { apply filter_In. split; auto. unfold within.
          apply andb_true_iff. split; [now apply Qle_bool_iff | now apply Qlt_bool_iff]. }
        unfold partial. intros Hnil. apply app_eq_nil in Hnil.
        destruct Hnil as [_ Hnil]. rewrite Hnil in Hw. contradiction. }
    destruct (last_row_cases partial) as [[Hnil _]|(pre & x & _ & Hl)]; [congruence|].
    exists (snd x). apply in_or_app. right. rewrite Hl. simpl. left. reflexivity.
Qed.

(** C7 (as the code has it): on a sorted frame with [start <= end], every
    entry of the returned frame whose timestamp is [end] carries the value
    of the last input entry strictly before [end]: the input is a prefix
    ending in that entry, followed only by entries at or after [end]. *)
Theorem end_value_is_last_before_end (h : heap) (df : Series V) (start_time end_time : Q) :
  well_formed h df ->
  sortedb (timestamps h df) = true ->
  start_time <= end_time ->
  exists out h',
    squash_into_window df (start_time, end_time) h = Ok out h'
    /\ forall t v,
        In (t, v) (rows h' out) -> t == end_time ->
        exists pre t0 post,
          rows h df = pre ++ (t0, v) :: post
          /\ t0 < end_time
          /\ forall r, In r post -> end_time <= fst r.
Proof.
  intros Hwf Hs Hse.
  destruct (squash_into_window_run V h df _ start_time end_time
              (well_formed_repr _ _ _ Hwf)) as (out & h' & E & _ & R).
  exists out, h'. split; [exact E|].
  rewrite (repr_rows _ _ _ _ R). unfold timestamps in Hs.
  set (rs := rows h df) in *. clearbody rs.
  rewrite squash_rows_eq, partial_upto by assumption.
  pose proof (sorted_split V end_time rs Hs) as Hsplit.
  pose proof (before_split rs start_time end_time Hs Hse) as Hb.
  assert (Hpost : forall r, In r (filter (from end_time) rs) -> end_time <= fst r).
  { intros r Hr. apply filter_In in Hr. destruct Hr as [_ Hr].
    now apply Qle_bool_iff. }
  (* the value of the last row of the partial frame is that of the last
     row before [end] *)
  assert (Hlast : forall x,
             In x (last_row (relabel start_time
                               (last_row (filter (before start_time) rs))
                             ++ filter (within start_time end_time) rs)) ->
             exists pre t0, filter (before end_time) rs = pre ++ [(t0, snd x)]).
  { intros x Hx.
    destruct (last_row_cases (filter (within start_time end_time) rs))
      as [[Hw _]|(pre & y & Hw & _)].
    - rewrite Hw, app_nil_r in Hx, Hb.
      rewrite last_row_short in Hx
        by (rewrite relabel_length, last_row_length; destruct (_ =? _)%nat; lia).
      apply relabel_in in Hx. destruct Hx as (_ & x' & Hx' & Hv).
      destruct (last_row_cases (filter (before start_time) rs))
        as [[_ Hl]|(pre & y & Hy & Hl)]; rewrite Hl in Hx'; [contradiction|].
      destruct Hx' as [<-|[]]. exists pre, (fst y).
      rewrite Hb, Hy, <- Hv. now destruct y.
    - rewrite last_row_app_nonempty in Hx by (rewrite Hw; now destruct pre).
      rewrite Hw, last_row_snoc in Hx. destruct Hx as [<-|[]].
      exists (filter (before start_time) rs ++ pre), (fst y).
      rewrite Hb, Hw, app_assoc. now destruct y. }
  intros t v Hin Ht.
  assert (Hfrom_last : forall x : Q * V, snd x = v ->
             (exists pre t0, filter (before end_time) rs = pre ++ [(t0, snd x)]) ->
             exists pre t0 post,
               rs = pre ++ (t0, v) :: post /\ t0 < end_time
               /\ forall r, In r post -> end_time <= fst r).
  { intros x Hv (pre & t0 & Hpre). rewrite Hv in Hpre.
    exists pre, t0, (filter (from end_time) rs). split; [|split; auto].
    - rewrite Hsplit at 1. rewrite Hpre, <- app_assoc. reflexivity.
    - assert (Hi : In (t0, v) (filter (before end_time) rs))
        by (rewrite Hpre; apply in_or_app; right; left; auto).
      apply filter_In in Hi. destruct Hi as [_ Hi]. now apply Qlt_bool_iff in Hi. }
  apply in_app_or in Hin. destruct Hin as [Hin|Hin].
  - apply in_app_or in Hin. destruct Hin as [Hin|Hin].
    + (* the relabelled first event: only when start == end *)
      pose proof Hin as Hin'. apply relabel_in in Hin'. simpl in Hin'.
      destruct Hin' as (-> & _).
      assert (Hw : filter (within start_time end_time) rs = []).
      { apply filter_none. intros r _. unfold within.
        destruct (Qle_bool start_time (fst r)) eqn:E1; auto.
        apply Qle_bool_iff in E1. simpl. apply Qlt_bool_false_iff.
        rewrite <- Ht. exact E1. }
      apply (Hfrom_last (start_time, v)); auto. apply Hlast.
      rewrite Hw, app_nil_r.
      rewrite last_row_short
        by (rewrite relabel_length, last_row_length; destruct (_ =? _)%nat; lia).
      exact Hin.
    + (* a row of the window is strictly before end *)
      apply filter_In in Hin. destruct Hin as [_ Hin]. unfold within in Hin.
      apply andb_true_iff in Hin. destruct Hin as [_ Hin].
      apply Qlt_bool_iff in Hin. simpl in Hin. rewrite Ht in Hin.
      exfalso. eapply Qlt_irrefl; eauto.
  - (* the relabelled last event *)
    apply relabel_in in Hin. simpl in Hin. destruct Hin as (_ & x & Hx & Hv).
    apply (Hfrom_last x Hv). now apply Hlast.
Qed.

End SquashClaims.

Section SquashStart.

Variable V : Type.
Implicit Types (rs : list (Q * V)) (r : Q * V).

(** C10 (as the code has it): on a sorted frame and a window with
    [start < end], when some input entry lies strictly before [start]
    and some input entry is at [start], the input has the shape
    [pre ++ (tp, vp) :: (t0, v0) :: post] with [tp < start] and
    [t0 == start], and the returned frame begins with the copy of
    [(tp, vp)] relabelled to [start], followed by the original entry
    [(t0, v0)]. *)
Theorem start_entry_follows_relabelled_copy
        (h : heap) (df : Series V) (start_time end_time : Q) :
  well_formed h df ->
  sortedb (timestamps h df) = true ->
  start_time < end_time ->
  (exists r, In r (rows h df) /\ fst r < start_time) ->
  (exists r, In r (rows h df) /\ fst r == start_time) ->
  exists out h',
    squash_into_window df (start_time, end_time) h = Ok out h'
    /\ exists pre tp vp t0 v0 post rest,
        rows h df = pre ++ (tp, vp) :: (t0, v0) :: post
        /\ tp < start_time
        /\ t0 == start_time
        /\ rows h' out = (start_time, vp) :: (t0, v0) :: rest.
Proof.
  intros Hwf Hs Hse (rb & Hrb & Hlt) (ra & Hra & Heq).
  destruct (squash_into_window_run V h df _ start_time end_time
              (well_formed_repr _ _ _ Hwf)) as (out & h' & E & _ & R).
  exists out, h'. split; [exact E|].
  rewrite (repr_rows _ _ _ _ R). unfold timestamps in Hs.
  set (rs := rows h df) in *. clearbody rs. clear R E Hwf.
  pose proof (sorted_split V start_time rs Hs) as Hsplit.
  (* the rows before start end in some x *)
  destruct (filter_last V rs (before start_time) rb Hrb) as (pre & x & HB & _ & Hx).
  { now apply Qlt_bool_iff. }
  (* the rows from start on begin with some y at start *)
  assert (HA : exists y post, filter (from start_time) rs = y :: post
                              /\ fst y == start_time).
  { assert (Hin : In ra (filter (from start_time) rs)).
    { apply filter_In. split; auto. unfold from. apply Qle_bool_iff.
      rewrite Heq. apply Qle_refl. }
    destruct (filter (from start_time) rs) as [|y post] eqn:EA; [contradiction|].
    exists y, post. split; auto.
    assert (Hy : start_time <= fst y).
    { assert (Hi : In y (filter (from start_time) rs)) by (rewrite EA; left; auto).
      apply filter_In in Hi. destruct Hi as [_ Hi]. now apply Qle_bool_iff in Hi. }
    assert (Hy' : fst y <= start_time).
    { destruct Hin as [->|Hin]; [rewrite Heq; apply Qle_refl|].
      rewrite <- Heq. rewrite Hsplit, map_app in Hs.
      apply sortedb_app_r in Hs. simpl map in Hs.
      eapply sortedb_head_le; eauto. now apply in_map. }
    now apply Qle_antisym. }
  destruct HA as (y & post & HA & Hy).
  assert (HB_in : forall r, In r (filter (before start_time) rs) -> fst r < start_time).
  { intros r Hr. apply filter_In in Hr. destruct Hr as [_ Hr].
    now apply Qlt_bool_iff in Hr. }
  assert (HA_in : forall r, In r (filter (from start_time) rs) -> start_time <= fst r).
  { intros r Hr. apply filter_In in Hr. destruct Hr as [_ Hr].
    now apply Qle_bool_iff in Hr. }
  set (B := filter (before start_time) rs) in *.
  set (A := filter (from start_time) rs) in *.
  clearbody A B. subst rs.
  assert (HfB : filter (before start_time) (B ++ A) = B).
  { rewrite filter_app, (filter_all V _ B), (filter_none V _ A), app_nil_r; auto.
    - intros r Hr. apply Qlt_bool_false_iff. auto.
    - intros r Hr. apply Qlt_bool_iff. auto. }
  assert (HfW : filter (within start_time end_time) (B ++ A)
                = y :: filter (within start_time end_time) post).
  { rewrite filter_app, (filter_none V _ B).
    - rewrite HA. simpl. unfold within at 1.
      assert (Qle_bool start_time (fst y) = true) as ->
          by (apply Qle_bool_iff; rewrite Hy; apply Qle_refl).
      assert (Qlt_bool (fst y) end_time = true) as ->
          by (apply Qlt_bool_iff; rewrite Hy; exact Hse).
      reflexivity.
    - intros r Hr. unfold within.
      assert (Qle_bool start_time (fst r) = false) as ->
          by (apply Qle_bool_false_iff; auto).
      reflexivity. }
  destruct x as [tp vp]. destruct y as [t0 v0]. simpl in Hy.
  exists pre, tp, vp, t0, v0, post.
  rewrite squash_rows_eq, HfB, HfW, HB, last_row_snoc. simpl relabel.
  eexists. split; [|split; [|split]].
  - rewrite HA, <- app_assoc. reflexivity.
  - apply Qlt_bool_iff in Hx. exact Hx.
  - exact Hy.
  - simpl. reflexivity.
Qed.

End SquashStart.

Lemma window_coverage_witness :
  well_formed [[0; 1; 2; 3; 4]] (mkSeries 0%nat [5; 6; 7; 8; 9]%Z)
  /\ 1 # 2 <= 29 # 10
  /\ exists out h',
       squash_into_window (mkSeries 0%nat [5; 6; 7; 8; 9]%Z) (1 # 2, 29 # 10)
                          [[0; 1; 2; 3; 4]] = Ok out h'
       /\ ((exists r, In r (rows [[0; 1; 2; 3; 4]] (mkSeries 0%nat [5; 6; 7; 8; 9]%Z))
                      /\ fst r < 1 # 2) ->
           exists v, In (1 # 2, v) (rows h' out))
       /\ ((exists r, In r (rows [[0; 1; 2; 3; 4]] (mkSeries 0%nat [5; 6; 7; 8; 9]%Z))
                      /\ fst r < 29 # 10) ->
           exists v, In (29 # 10, v) (rows h' out)).
Proof.
  split; [reflexivity|]. split; [discriminate|].
  apply (window_coverage Z [[0; 1; 2; 3; 4]] (mkSeries 0%nat [5; 6; 7; 8; 9]%Z)
           (1 # 2) (29 # 10)); [reflexivity | discriminate].
Defined.

(** C8, refuted as stated: the only input entry is at [end] itself; it
    is at or before [end], yet the returned frame is empty and has no
    entry at [end]. *)
Lemma entry_at_end_is_not_covered :
  exists out h',
    squash_into_window (mkSeries 0%nat [8%Z]) (1, 3) [[3]] = Ok out h'
    /\ rows [[3]] (mkSeries 0%nat [8%Z]) = [(3, 8%Z)]
    /\ sortedb [3] = true
    /\ Qle_bool 1 3 = true
    /\ existsb (upto 3) (rows [[3]] (mkSeries 0%nat [8%Z])) = true
    /\ rows h' out = []
    /\ existsb (fun r => Qeq_bool (fst r) 3) (rows h' out) = false.
Proof.
  do 2 eexists. split; [vm_compute; reflexivity|].
  repeat split; vm_compute; reflexivity.
Qed.

Lemma end_value_is_last_before_end_witness :
  well_formed [[0; 1; 2; 3; 4]] (mkSeries 0%nat [5; 6; 7; 8; 9]%Z)
  /\ sortedb (timestamps [[0; 1; 2; 3; 4]] (mkSeries 0%nat [5; 6; 7; 8; 9]%Z)) = true
  /\ 1 # 2 <= 29 # 10
  /\ exists out h',
       squash_into_window (mkSeries 0%nat [5; 6; 7; 8; 9]%Z) (1 # 2, 29 # 10)
                          [[0; 1; 2; 3; 4]] = Ok out h'
       /\ forall t v,
           In (t, v) (rows h' out) -> t == 29 # 10 ->
           exists pre t0 post,
             rows [[0; 1; 2; 3; 4]] (mkSeries 0%nat [5; 6; 7; 8; 9]%Z)
             = pre ++ (t0, v) :: post
             /\ t0 < 29 # 10
             /\ forall r, In r post -> 29 # 10 <= fst r.
Proof.
  split; [reflexivity|]. split; [reflexivity|]. split; [discriminate|].
  apply (end_value_is_last_before_end Z [[0; 1; 2; 3; 4]]
           (mkSeries 0%nat [5; 6; 7; 8; 9]%Z) (1 # 2) (29 # 10));
    [reflexivity | reflexivity | discriminate].
Defined.

(** C7, refuted as stated: the input has an entry at [end] = 3 with
    value 8, the most recent one at or before [end]; the returned entry
    at [end] carries 5, the value of the entry before it. *)
Lemma end_value_ignores_entry_at_end :
  exists out h',
    squash_into_window (mkSeries 0%nat [5; 8]%Z) (1, 3) [[0; 3]] = Ok out h'
    /\ rows [[0; 3]] (mkSeries 0%nat [5; 8]%Z) = [(0, 5%Z); (3, 8%Z)]
    /\ sortedb [0; 3] = true
    /\ Qle_bool 1 3 = true
    /\ last_row (filter (upto 3) (rows [[0; 3]] (mkSeries 0%nat [5; 8]%Z)))
       = [(3, 8%Z)]
    /\ rows h' out = [(1, 5%Z); (3, 5%Z)]
    /\ filter (fun r => Qeq_bool (fst r) 3) (rows h' out) = [(3, 5%Z)]
    /\ (5 =? 8)%Z = false.
Proof.
  do 2 eexists. split; [vm_compute; reflexivity|].
  repeat split; vm_compute; reflexivity.
Qed.

Lemma start_entry_follows_relabelled_copy_witness :
  well_formed [[0; 1; 2; 3; 4]] (mkSeries 0%nat [5; 6; 7; 8; 9]%Z)
  /\ sortedb (timestamps [[0; 1; 2; 3; 4]] (mkSeries 0%nat [5; 6; 7; 8; 9]%Z)) = true
  /\ 1 < 29 # 10
  /\ (exists r, In r (rows [[0; 1; 2; 3; 4]] (mkSeries 0%nat [5; 6; 7; 8; 9]%Z))
                /\ fst r < 1)
  /\ (exists r, In r (rows [[0; 1; 2; 3; 4]] (mkSeries 0%nat [5; 6; 7; 8; 9]%Z))
                /\ fst r == 1)
  /\ exists out h',
       squash_into_window (mkSeries 0%nat [5; 6; 7; 8; 9]%Z) (1, 29 # 10)
                          [[0; 1; 2; 3; 4]] = Ok out h'
       /\ exists pre tp vp t0 v0 post rest,
           rows [[0; 1; 2; 3; 4]] (mkSeries 0%nat [5; 6; 7; 8; 9]%Z)
           = pre ++ (tp, vp) :: (t0, v0) :: post
           /\ tp < 1
           /\ t0 == 1
           /\ rows h' out = (1, vp) :: (t0, v0) :: rest.
Proof.
  assert (Hb : exists r, In r (rows [[0; 1; 2; 3; 4]] (mkSeries 0%nat [5; 6; 7; 8; 9]%Z))
                         /\ fst r < 1).
  { exists (0, 5%Z). split; [left; reflexivity | reflexivity]. }
  assert (Ha : exists r, In r (rows [[0; 1; 2; 3; 4]] (mkSeries 0%nat [5; 6; 7; 8; 9]%Z))
                         /\ fst r == 1).
  { exists (1, 6%Z). split; [right; left; reflexivity | reflexivity]. }
  split; [reflexivity|]. split; [reflexivity|]. split; [reflexivity|].
  split; [exact Hb|]. split; [exact Ha|].
  apply (start_entry_follows_relabelled_copy Z [[0; 1; 2; 3; 4]]
           (mkSeries 0%nat [5; 6; 7; 8; 9]%Z) 1 (29 # 10));
    [reflexivity | reflexivity | reflexivity | exact Hb | exact Ha].
Defined.

(** C10, refuted as stated: with the empty window [start = end = 1] the
    input has an entry before [start] and an entry at [start], and the
    returned frame has two entries at [start], but the second is the
    relabelled copy again (value 5), not the original entry (value 6). *)
Lemma empty_window_drops_entry_at_start :
  exists out h',
    squash_into_window (mkSeries 0%nat [5; 6]%Z) (1, 1) [[0; 1]] = Ok out h'
    /\ rows [[0; 1]] (mkSeries 0%nat [5; 6]%Z) = [(0, 5%Z); (1, 6%Z)]
    /\ sortedb [0; 1] = true
    /\ existsb (before 1) (rows [[0; 1]] (mkSeries 0%nat [5; 6]%Z)) = true
    /\ existsb (fun r => Qeq_bool (fst r) 1)
               (rows [[0; 1]] (mkSeries 0%nat [5; 6]%Z)) = true
    /\ rows h' out = [(1, 5%Z); (1, 5%Z)]
    /\ existsb (fun r => Z.eqb (snd r) 6) (rows h' out) = false.
Proof.
  do 2 eexists. split; [vm_compute; reflexivity|].
  repeat split; vm_compute; reflexivity.
Qed.

(** * The adjusted index in closed form *)

(** ** Comparisons respect equality of timestamps *)

Lemma Qlt_bool_compat (x x' y y' : Q) :
  x == x' -> y == y' -> Qlt_bool x y = Qlt_bool x' y'.
Proof.
  intros Hx Hy. apply eq_true_iff_eq. rewrite !Qlt_bool_iff, Hx, Hy. tauto.
Qed.

Lemma Qle_bool_compat (x x' y y' : Q) :
  x == x' -> y == y' -> Qle_bool x y = Qle_bool x' y'.
Proof.
  intros Hx Hy. apply eq_true_iff_eq. rewrite !Qle_bool_iff, Hx, Hy. tauto.
Qed.

Lemma Qeq_bool_compat (x x' y y' : Q) :
  x == x' -> y == y' -> Qeq_bool x y = Qeq_bool x' y'.
Proof.
  intros Hx Hy. apply eq_true_iff_eq. rewrite !Qeq_bool_iff, Hx, Hy. tauto.
Qed.

Lemma side_cmp_compat (s : side) (x x' y y' : Q) :
  x == x' -> y == y' -> side_cmp s x y = side_cmp s x' y'.
Proof.
  destruct s; simpl; [apply Qlt_bool_compat | apply Qle_bool_compat].
Qed.

Lemma side_cmp_down (s : side) (x y d : Q) :
  x <= y -> side_cmp s y d = true -> side_cmp s x d = true.
Proof.
  destruct s; simpl; intros Hxy H.
  - apply Qlt_bool_iff in H. apply Qlt_bool_iff. eapply Qle_lt_trans; eauto.
  - apply Qle_bool_iff in H. apply Qle_bool_iff. eapply Qle_trans; eauto.
Qed.

Lemma count_side_compat (s : side) (a : list Q) (d d' : Q) :
  d == d' -> count_side s a d = count_side s a d'.
Proof.
  intros H. unfold count_side. f_equal. apply filter_ext.
  intros x. apply side_cmp_compat; [reflexivity | exact H].
Qed.

(** ** Sorted indexes *)

Lemma sortedb_nth (a : list Q) :
  sortedb a = true ->
  forall i j, (i <= j < length a)%nat -> nth i a 0 <= nth j a 0.
Proof.
  induction a as [|x a IH]; intros Hs i j Hij; simpl in Hij; [lia|].
  destruct j as [|j].
  - assert (i = 0%nat) as -> by lia. apply Qle_refl.
  - destruct i as [|i].
    + simpl. eapply sortedb_head_le; eauto. apply nth_In. lia.
    + simpl. apply IH; [eapply sortedb_tail; eauto | lia].
Qed.

Lemma count_side_le_length (s : side) (a : list Q) (d : Q) :
  (count_side s a d <= length a)%nat.
Proof. unfold count_side. apply filter_length_le. Qed.

(** In a sorted index the labels that compare below [d] are exactly
    those at the positions below [count_side s a d]. *)
Lemma sorted_count_side (s : side) (d : Q) (a : list Q) :
  sortedb a = true ->
  forall i, (i < length a)%nat ->
            ((i < count_side s a d)%nat <-> side_cmp s (nth i a 0) d = true).
Proof.
  unfold count_side.
  induction a as [|x a IH]; intros Hs i Hi; simpl in Hi; [lia|].
  pose proof (sortedb_tail _ _ Hs) as Hs'.
  simpl filter. destruct (side_cmp s x d) eqn:E.
  - destruct i as [|i]; simpl; [split; auto; lia|].
    rewrite <- IH by (auto; lia). lia.
  - assert (Hnone : filter (fun y => side_cmp s y d) a = []).
    { destruct (filter (fun y => side_cmp s y d) a) as [|y t] eqn:Ef; auto.
      assert (Hy : In y (filter (fun y => side_cmp s y d) a))
        by (rewrite Ef; left; auto).
      apply filter_In in Hy. destruct Hy as [Hy Hc].
      rewrite (side_cmp_down s x y d) in E; [discriminate| |exact Hc].
      eapply sortedb_head_le; eauto. }
    rewrite Hnone. simpl length. split; [lia|].
    intros Hc. exfalso.
    destruct i as [|i]; simpl in Hc; [congruence|].
    rewrite (side_cmp_down s x (nth i a 0) d) in E; [discriminate| |exact Hc].
    eapply sortedb_head_le; eauto. apply nth_In. lia.
Qed.

Lemma count_left_le_right (a : list Q) (d : Q) :
  (count_side Left a d <= count_side Right a d)%nat.
Proof.
  unfold count_side. induction a as [|x a IH]; [auto|].
  cbn [filter].
  change (side_cmp Left x d) with (Qlt_bool x d).
  change (side_cmp Right x d) with (Qle_bool x d).
  destruct (Qlt_bool x d) eqn:E.
  - apply Qlt_bool_iff in E.
    assert (Qle_bool x d = true) as -> by (apply Qle_bool_iff; now apply Qlt_le_weak).
    cbn [length]. lia.
  - destruct (Qle_bool x d); cbn [length]; lia.
Qed.

(** The positions of the group of [d] in a sorted index. *)
Lemma sorted_group_positions (a : list Q) (d : Q) :
  sortedb a = true ->
  forall i, (i < length a)%nat ->
            (nth i a 0 == d
             <-> (count_side Left a d <= i < count_side Right a d)%nat).
Proof.
  intros Hs i Hi.
  pose proof (sorted_count_side Left d a Hs i Hi) as HL.
  pose proof (sorted_count_side Right d a Hs i Hi) as HR.
  simpl in HL, HR. rewrite Qlt_bool_iff in HL. rewrite Qle_bool_iff in HR.
  split.
  - intros Heq. split.
    + apply Nat.nlt_ge. intros Hlt. apply HL in Hlt. rewrite Heq in Hlt.
      eapply Qlt_irrefl; eauto.
    + apply HR. rewrite Heq. apply Qle_refl.
  - intros [H1 H2]. apply HR in H2. apply Qle_antisym; auto.
    destruct (Qlt_le_dec (nth i a 0) d) as [Hlt|]; auto.
    apply HL in Hlt. lia.
Qed.

(** ** Searching an array that compares like a sorted one *)

Lemma search_like_sorted (s : side) (a b : list Q) (key : Q) :
  sortedb a = true ->
  length b = length a ->
  (forall i, (i < length a)%nat ->
             side_cmp s (nth i b 0) key = side_cmp s (nth i a 0) key) ->
  search s b key = count_side s a key.
Proof.
  intros Hs Hlen Hagree. apply search_partition.
  - rewrite Hlen. apply count_side_le_length.
  - intros i Hi. pose proof (count_side_le_length s a key).
    rewrite Hagree by lia. apply sorted_count_side; auto; lia.
  - intros i Hi. rewrite Hlen in Hi. rewrite Hagree by lia.
    destruct (side_cmp s (nth i a 0) key) eqn:E; auto.
    apply sorted_count_side in E; auto; lia.
Qed.

(** ** The while loop in closed form *)

Lemma pow2_0 : pow2 0 == 1.
Proof. reflexivity. Qed.

Lemma pow2_S (k : nat) : pow2 (S k) == 2 * pow2 k.
Proof.
  unfold pow2. rewrite Nat2Z.inj_succ, Z.pow_succ_r by lia.
  rewrite inject_Z_mult. reflexivity.
Qed.

Lemma pow2_pos (k : nat) : 0 < pow2 k.
Proof.
  induction k as [|k IH]; [reflexivity|]. rewrite pow2_S. lra.
Qed.

Lemma dbl_pow2 (k : nat) : forall delta, dbl k delta == pow2 k * delta.
Proof.
  induction k as [|k IH]; intros delta; simpl.
  - rewrite pow2_0. lra.
  - rewrite IH, pow2_S. lra.
Qed.

Lemma bump_nth (n : nat) :
  forall (a : list Q) (i : nat) (delta : Q) (j : nat),
    (i + n <= length a)%nat ->
    nth j (bump a i n delta) 0
    = if ((i <=? j) && (j <? i + n))%nat
      then nth j a 0 + dbl (j - i) delta
      else nth j a 0.
Proof.
  induction n as [|n IH]; intros a i delta j Hlen; simpl bump.
  - destruct (Nat.leb_spec i j), (Nat.ltb_spec j (i + 0)); simpl; auto; lia.
  - rewrite IH by (rewrite upd_length; lia).
    destruct (Nat.eq_dec j i) as [->|Hne].
    + rewrite nth_upd_same by lia.
      destruct (Nat.leb_spec (S i) i), (Nat.leb_spec i i),
        (Nat.ltb_spec i (i + S n)); simpl; try lia.
      rewrite Nat.sub_diag. reflexivity.
    + rewrite nth_upd_other by lia.
      destruct (Nat.leb_spec (S i) j), (Nat.leb_spec i j),
        (Nat.ltb_spec j (S i + n)), (Nat.ltb_spec j (i + S n)); simpl; auto; try lia.
      replace (j - i)%nat with (S (j - S i)) by lia. reflexivity.
Qed.

(** ** get_duplicates *)

Lemma counter_get_incr (k x : Q) (c : list (Q * nat)) :
  counter_get (counter_incr k c) x
  = if Qeq_bool k x then S (counter_get c x) else counter_get c x.
Proof.
  induction c as [|[k' v] c IH]; simpl.
  - destruct (Qeq_bool k x); reflexivity.
  - destruct (Qeq_bool k' k) eqn:Ek; simpl.
    + apply Qeq_bool_iff in Ek.
      rewrite (Qeq_bool_compat k' k x x Ek (Qeq_refl x)).
      destruct (Qeq_bool k x); reflexivity.
    + rewrite IH. destruct (Qeq_bool k' x) eqn:Ex; auto.
      destruct (Qeq_bool k x) eqn:Ekx; auto.
      apply Qeq_bool_iff in Ex, Ekx.
      assert (Qeq_bool k' k = true)
        by (apply Qeq_bool_iff; rewrite Ex, Ekx; reflexivity).
      congruence.
Qed.

Lemma counter_get_fold (labels : list Q) (x : Q) :
  forall c,
    counter_get (fold_left (fun counter k => counter_incr k counter) labels c) x
    = (counter_get c x + occurrences labels x)%nat.
Proof.
  unfold occurrences.
  induction labels as [|k labels IH]; intros c; simpl; [lia|].
  rewrite IH, counter_get_incr. destruct (Qeq_bool k x); simpl; lia.
Qed.

Lemma counter_get_count_labels (labels : list Q) (x : Q) :
  counter_get (count_labels labels) x = occurrences labels x.
Proof. unfold count_labels. now rewrite counter_get_fold. Qed.

Lemma distinct_snoc (l : list Q) (k : Q) :
  distinct l -> (forall y, In y l -> ~ y == k) -> distinct (l ++ [k]).
Proof.
  induction l as [|x l IH]; simpl; intros Hd Hk.
  - split; [intros y []|exact I].
  - destruct Hd as [Hx Hd]. split.
    + intros y Hy. apply in_app_or in Hy. destruct Hy as [Hy|[<-|[]]]; auto.
    + apply IH; auto.
Qed.

Lemma counter_incr_keys (k : Q) (c : list (Q * nat)) :
  map fst (counter_incr k c) = map fst c
  \/ (map fst (counter_incr k c) = map fst c ++ [k]
      /\ forall y, In y (map fst c) -> ~ y == k).
Proof.
  induction c as [|[k' v] c IH]; simpl.
  - right. split; [reflexivity | intros y []].
  - destruct (Qeq_bool k' k) eqn:Ek; simpl; [left; reflexivity|].
    destruct IH as [IH|[IH Hk]]; [left; now rewrite IH|].
    right. split; [now rewrite IH|].
    intros y [<-|Hy]; auto. intros Hc. apply Qeq_bool_iff in Hc. congruence.
Qed.

Lemma count_labels_distinct (labels : list Q) :
  distinct (map fst (count_labels labels)).
Proof.
  unfold count_labels.
  assert (H : forall c, distinct (map fst c) ->
                        distinct (map fst (fold_left
                                             (fun counter k => counter_incr k counter)
                                             labels c))).
  { induction labels as [|k labels IH]; intros c Hc; simpl; auto.
    apply IH. destruct (counter_incr_keys k c) as [->|[-> Hk]]; auto.
    now apply distinct_snoc. }
  apply H. exact I.
Qed.

Lemma counter_get_in (c : list (Q * nat)) (k : Q) (v : nat) :
  distinct (map fst c) -> In (k, v) c -> counter_get c k = v.
Proof.
  induction c as [|[k' v'] c IH]; simpl; intros Hd Hin; [contradiction|].
  destruct Hd as [Hk' Hd]. destruct Hin as [Heq|Hin].
  - inversion Heq; subst.
    assert (Qeq_bool k k = true) as -> by (apply Qeq_bool_iff; reflexivity).
    reflexivity.
  - assert (Qeq_bool k' k = false) as ->.
    { destruct (Qeq_bool k' k) eqn:E; auto. apply Qeq_bool_iff in E.
      exfalso. apply (Hk' k); auto. apply in_map_iff. exists (k, v). auto. }
    now apply IH.
Qed.

Lemma counter_get_pos (c : list (Q * nat)) (x : Q) :
  (0 < counter_get c x)%nat ->
  exists k, In (k, counter_get c x) c /\ k == x.
Proof.
  induction c as [|[k' v'] c IH]; simpl; intros H; [lia|].
  destruct (Qeq_bool k' x) eqn:E.
  - exists k'. split; [left; reflexivity | now apply Qeq_bool_iff].
  - destruct (IH H) as (k & Hin & Hk). exists k. auto.
Qed.

Lemma insert_sorted_perm (k : Q) (l : list Q) :
  Permutation (insert_sorted k l) (k :: l).
Proof.
  induction l as [|x l IH]; simpl; auto.
  destruct (Qle_bool k x); auto.
  rewrite IH. apply perm_swap.
Qed.

Lemma py_sorted_perm (l : list Q) : Permutation (py_sorted l) l.
Proof.
  induction l as [|x l IH]; simpl; auto.
  rewrite insert_sorted_perm. now constructor.
Qed.

Lemma distinct_perm (l l' : list Q) :
  Permutation l l' -> distinct l -> distinct l'.
Proof.
  induction 1 as [|x l l' Hp IH|x y l|l l' l'' _ IH1 _ IH2]; simpl; auto.
  - intros [Hx Hd]. split; auto.
    intros y Hy. apply Hx. eapply Permutation_in; [|exact Hy].
    now apply Permutation_sym.
  - intros [Hy [Hx Hd]]. split; [|split; auto].
    intros z [<-|Hz]; auto. intros Hc. apply (Hy x); [left; auto|].
    now symmetry.
Qed.

Lemma distinct_filter_keys (f : Q * nat -> bool) (c : list (Q * nat)) :
  distinct (map fst c) -> distinct (map fst (filter f c)).
Proof.
  induction c as [|kv c IH]; simpl; auto.
  intros [Hk Hd]. destruct (f kv); simpl; auto.
  split; auto. intros y Hy. apply Hk.
  apply in_map_iff in Hy. destruct Hy as (kv' & <- & Hin).
  apply filter_In in Hin. apply in_map. tauto.
Qed.

(** The duplicates are pairwise different labels, each occurring at
    least twice, and every label that occurs twice is among them. *)
Lemma duplicates_of_distinct (a : list Q) : distinct (duplicates_of a).
Proof.
  unfold duplicates_of. eapply distinct_perm.
  - apply Permutation_sym, py_sorted_perm.
  - apply distinct_filter_keys, count_labels_distinct.
Qed.

Lemma duplicates_of_sound (a : list Q) (y : Q) :
  In y (duplicates_of a) -> (2 <= occurrences a y)%nat.
Proof.
  unfold duplicates_of. intros H.
  apply (Permutation_in _ (py_sorted_perm _)) in H.
  apply in_map_iff in H. destruct H as ([k v] & <- & Hin).
  apply filter_In in Hin. destruct Hin as [Hin Hv]. simpl in *.
  apply Nat.ltb_lt in Hv.
  rewrite <- counter_get_count_labels.
  rewrite (counter_get_in _ k v); [lia | apply count_labels_distinct | exact Hin].
Qed.

Lemma duplicates_of_complete (a : list Q) (x : Q) :
  (2 <= occurrences a x)%nat -> exists y, In y (duplicates_of a) /\ y == x.
Proof.
  intros H. rewrite <- counter_get_count_labels in H.
  destruct (counter_get_pos (count_labels a) x) as (k & Hin & Hk); [lia|].
  exists k. split; auto. unfold duplicates_of.
  apply (Permutation_in _ (Permutation_sym (py_sorted_perm _))).
  apply in_map_iff. exists (k, counter_get (count_labels a) x). split; auto.
  apply filter_In. split; auto. simpl. apply Nat.ltb_lt. lia.
Qed.

(** In any index, the labels at or below [d] are those below [d] and
    those equal to [d]. *)
Lemma count_right_split (a : list Q) (d : Q) :
  count_side Right a d = (count_side Left a d + occurrences a d)%nat.
Proof.
  unfold count_side, occurrences. induction a as [|x a IH]; [reflexivity|].
  cbn [filter].
  change (side_cmp Left x d) with (Qlt_bool x d).
  change (side_cmp Right x d) with (Qle_bool x d).
  destruct (Qlt_bool x d) eqn:El.
  - apply Qlt_bool_iff in El.
    assert (Qle_bool x d = true) as -> by (apply Qle_bool_iff; now apply Qlt_le_weak).
    assert (Qeq_bool x d = false) as ->.
    { destruct (Qeq_bool x d) eqn:E; auto. apply Qeq_bool_iff in E.
      rewrite E in El. exfalso. eapply Qlt_irrefl; eauto. }
    cbn [length]. lia.
  - apply Qlt_bool_false_iff in El.
    destruct (Qle_bool x d) eqn:Ele.
    + apply Qle_bool_iff in Ele.
      assert (Qeq_bool x d = true) as ->
          by (apply Qeq_bool_iff; now apply Qle_antisym).
      cbn [length]. lia.
    + assert (Qeq_bool x d = false) as ->.
      { destruct (Qeq_bool x d) eqn:E; auto. apply Qeq_bool_iff in E.
        assert (Qle_bool x d = true)
          by (apply Qle_bool_iff; rewrite E; apply Qle_refl).
        congruence. }
      cbn [length]. lia.
Qed.

(** ** The loop over the duplicates of a sorted index that fits *)

Lemma occurrences_pos (a : list Q) (y : Q) :
  (0 < occurrences a y)%nat -> exists j, (j < length a)%nat /\ nth j a 0 == y.
Proof.
  unfold occurrences. intros H.
  destruct (filter (fun x => Qeq_bool x y) a) as [|x t] eqn:E; [simpl in H; lia|].
  assert (Hx : In x (filter (fun x => Qeq_bool x y) a)) by (rewrite E; left; auto).
  apply filter_In in Hx. destruct Hx as [Hx Hq]. apply Qeq_bool_iff in Hq.
  destruct (In_nth a x 0 Hx) as (j & Hj & Hn). exists j. split; auto.
  now rewrite Hn.
Qed.

Lemma pending_dec (a0 todo : list Q) (i : nat) :
  pending a0 todo i \/ ~ pending a0 todo i.
Proof.
  unfold pending. induction todo as [|y todo IH].
  - right. intros (y & [] & _).
  - destruct (Qeq_dec y (nth i a0 0)) as [Hy|Hy].
    + left. exists y. split; [left; auto | auto].
    + destruct IH as [(z & Hz & Hq)|IH].
      * left. exists z. split; [right; auto | auto].
      * right. intros (z & [<-|Hz] & Hq); [auto|]. apply IH. eauto.
Qed.

Lemma group_delta_compat (max_delta : Q) (a : list Q) (d d' : Q) :
  d == d' -> group_delta max_delta a d == group_delta max_delta a d'.
Proof.
  intros H. unfold group_delta.
  rewrite <- !(count_side_compat _ a d d' H).
  destruct (_ <? _)%nat; [|reflexivity].
  apply Q.min_compat; [|reflexivity].
  apply Qmult_comp; [|reflexivity].
  apply Qplus_comp; [reflexivity|]. now apply Qopp_comp.
Qed.

Section ClosedForm.

Variable a0 : list Q.
Variable max_delta : Q.
Hypothesis a0_sorted : sortedb a0 = true.
Hypothesis max_delta_pos : 0 < max_delta.
Hypothesis a0_fits : fitsb max_delta a0 = true.

Lemma fits_spec (i j : nat) :
  (i < length a0)%nat -> (j < length a0)%nat ->
  nth i a0 0 < nth j a0 0 -> expected max_delta a0 i < nth j a0 0.
Proof.
  intros Hi Hj Hlt. unfold fitsb in a0_fits.
  rewrite forallb_forall in a0_fits.
  specialize (a0_fits i). rewrite forallb_forall in a0_fits.
  assert (Hin : forall k, (k < length a0)%nat -> In k (seq 0 (length a0)))
    by (intros k Hk; apply in_seq; lia).
  specialize (a0_fits (Hin i Hi) j (Hin j Hj)).
  apply Qlt_bool_iff in Hlt. rewrite Hlt in a0_fits. simpl in a0_fits.
  now apply Qlt_bool_iff.
Qed.

(** Where the group of the label at [i] starts and ends. *)
Lemma own_group (i : nat) :
  (i < length a0)%nat ->
  (count_side Left a0 (nth i a0 0%Q) <= i < count_side Right a0 (nth i a0 0%Q))%nat.
Proof.
  intros Hi. apply sorted_group_positions; auto. reflexivity.
Qed.

(** The label just after a group is the first of its own group. *)
Lemma ceiling_is_first (d : Q) :
  let r := count_side Right a0 d in
  (r < length a0)%nat ->
  d < nth r a0 0 /\ count_side Left a0 (nth r a0 0) = r.
Proof.
  intros r Hr.
  assert (Hd : d < nth r a0 0).
  { pose proof (sorted_count_side Right d a0 a0_sorted r Hr) as H. simpl in H.
    destruct (Qlt_le_dec d (nth r a0 0)) as [|Hle]; auto.
    apply Qle_bool_iff in Hle. apply H in Hle. unfold r in Hle. lia. }
  split; auto.
  pose proof (own_group r Hr) as [Hl _].
  destruct (Nat.eq_dec (count_side Left a0 (nth r a0 0)) r) as [|Hne]; auto.
  exfalso. set (c := count_side Left a0 (nth r a0 0)) in *.
  assert (Hc : (c < length a0)%nat) by lia.
  assert (Hcr : (c < r)%nat) by lia.
  pose proof (sorted_count_side Right d a0 a0_sorted c Hc) as HR. simpl in HR.
  apply HR in Hcr. apply Qle_bool_iff in Hcr.
  pose proof (sorted_count_side Left (nth r a0 0) a0 a0_sorted c Hc) as HL.
  simpl in HL. fold c in HL.
  assert (Hlt : Qlt_bool (nth c a0 0) (nth r a0 0) = true).
  { apply Qlt_bool_iff. eapply Qle_lt_trans; eauto. }
  apply HL in Hlt. lia.
Qed.

Lemma group_delta_pos (d : Q) :
  (exists j, (j < length a0)%nat /\ nth j a0 0 == d) ->
  0 < group_delta max_delta a0 d.
Proof.
  intros (j & Hj & Hd). unfold group_delta.
  destruct (Nat.ltb_spec (count_side Right a0 d) (length a0)) as [Hr|]; auto.
  destruct (ceiling_is_first d Hr) as [Hc _].
  assert (Hg : (count_side Left a0 d < count_side Right a0 d)%nat).
  { pose proof (proj1 (sorted_group_positions a0 d a0_sorted j Hj) Hd). lia. }
  apply Q.min_glb_lt; auto.
  apply Qlt_shift_div_l.
  - change 0 with (inject_Z 0). rewrite <- Zlt_Qlt. lia.
  - lra.
Qed.

Lemma expected_first (i : nat) :
  (i < length a0)%nat ->
  i = count_side Left a0 (nth i a0 0) ->
  expected max_delta a0 i = nth i a0 0.
Proof.
  intros Hi Heq. unfold expected. rewrite <- Heq.
  now rewrite Nat.leb_refl.
Qed.

Lemma expected_ge (i : nat) :
  (i < length a0)%nat -> nth i a0 0 <= expected max_delta a0 i.
Proof.
  intros Hi. unfold expected.
  destruct (_ <=? _)%nat; [apply Qle_refl|].
  assert (0 < group_delta max_delta a0 (nth i a0 0))
    by (apply group_delta_pos; exists i; split; auto; reflexivity).
  pose proof (pow2_pos (i - count_side Left a0 (nth i a0 0) - 1)).
  assert (0 < pow2 (i - count_side Left a0 (nth i a0 0) - 1)
              * group_delta max_delta a0 (nth i a0 0))
    by (apply Qmult_lt_0_compat; auto).
  lra.
Qed.

(** While the invariant holds, the buffer compares with a pending
    duplicate like the original index does. *)
Lemma loop_inv_agree (todo b : list Q) (y : Q) (s : side) :
  loop_inv max_delta a0 todo b ->
  In y todo ->
  (exists j, (j < length a0)%nat /\ nth j a0 0 == y) ->
  forall i, (i < length a0)%nat ->
            side_cmp s (nth i b 0) y = side_cmp s (nth i a0 0) y.
Proof.
  intros [Hlen Hinv] Hy (j & Hj & Hjy) i Hi.
  destruct (Hinv i Hi) as [Hp Hn].
  destruct (pending_dec a0 todo i) as [P|P].
  - apply side_cmp_compat; [auto | reflexivity].
  - rewrite (side_cmp_compat s _ (expected max_delta a0 i) y y (Hn P) (Qeq_refl y)).
    assert (Hne : ~ y == nth i a0 0) by (intros Hq; apply P; exists y; auto).
    pose proof (expected_ge i Hi) as Hge.
    destruct (Q_dec y (nth i a0 0)) as [[Hlt|Hgt]|Heq]; [| |contradiction].
    + (* y below the label: both comparisons fail *)
      destruct s; simpl.
      * rewrite (proj2 (Qlt_bool_false_iff _ _)) by lra.
        rewrite (proj2 (Qlt_bool_false_iff _ _)) by lra. reflexivity.
      * rewrite (proj2 (Qle_bool_false_iff _ _)) by lra.
        rewrite (proj2 (Qle_bool_false_iff _ _)) by lra. reflexivity.
    + (* y above the label: the adjusted label stays below y *)
      assert (Hfit : expected max_delta a0 i < y).
      { rewrite <- Hjy. apply fits_spec; auto. rewrite Hjy. exact Hgt. }
      destruct s; simpl.
      * rewrite (proj2 (Qlt_bool_iff _ _)) by lra.
        rewrite (proj2 (Qlt_bool_iff _ _)) by lra. reflexivity.
      * rewrite (proj2 (Qle_bool_iff _ _)) by lra.
        rewrite (proj2 (Qle_bool_iff _ _)) by lra. reflexivity.
Qed.

(** One round of the loop on a pending duplicate: the searches find the
    group where it is in the original index, and the first increment is
    the one of the closed form. *)
Lemma first_delta_group (todo b : list Q) (y : Q) :
  loop_inv max_delta a0 (y :: todo) b ->
  (exists j, (j < length a0)%nat /\ nth j a0 0 == y) ->
  search Left b y = count_side Left a0 y
  /\ search Right b y = count_side Right a0 y
  /\ first_delta max_delta b y == group_delta max_delta a0 y.
Proof.
  intros Hinv Hex.
  assert (HL : search Left b y = count_side Left a0 y).
  { apply search_like_sorted; auto; [apply Hinv|].
    intros i Hi. eapply loop_inv_agree; eauto. left; auto. }
  assert (HR : search Right b y = count_side Right a0 y).
  { apply search_like_sorted; auto; [apply Hinv|].
    intros i Hi. eapply loop_inv_agree; eauto. left; auto. }
  split; auto. split; auto.
  unfold first_delta, group_delta. rewrite HL, HR.
  destruct Hinv as [Hlen Hinv]. rewrite Hlen.
  pose proof (count_left_le_right a0 y) as Hlr.
  set (l := count_side Left a0 y) in *. set (r := count_side Right a0 y) in *.
  destruct (Nat.ltb_spec r (length a0)) as [Hr|Hr].
  - assert (Hb : nth r b 0 == nth r a0 0).
    { destruct (Hinv r Hr) as [Hp Hn].
      destruct (pending_dec a0 (y :: todo) r) as [P|P]; auto.
      rewrite (Hn P). destruct (ceiling_is_first y Hr) as [_ Hc].
      rewrite expected_first; auto. reflexivity. }
    replace (Z.of_nat r - 1 - Z.of_nat l + 1)%Z with (Z.of_nat (r - l)) by lia.
    assert (Hq : (nth r b 0 - y) / inject_Z (Z.of_nat (r - l))
                 == (nth r a0 0 - y) / inject_Z (Z.of_nat (r - l))).
    { apply Qmult_comp; [|reflexivity].
      apply Qplus_comp; [exact Hb | reflexivity]. }
    destruct (Qlt_bool max_delta
                ((nth r b 0 - y) / inject_Z (Z.of_nat (r - l)))) eqn:E.
    + apply Qlt_bool_iff in E. rewrite Q.min_r; [reflexivity|].
      rewrite <- Hq. now apply Qlt_le_weak.
    + apply Qlt_bool_false_iff in E. rewrite Q.min_l; [exact Hq|].
      rewrite <- Hq. exact E.
  - destruct (Qlt_bool max_delta max_delta); reflexivity.
Qed.

Lemma loop_inv_step (todo b : list Q) (y : Q) :
  loop_inv max_delta a0 (y :: todo) b ->
  distinct (y :: todo) ->
  (exists j, (j < length a0)%nat /\ nth j a0 0 == y) ->
  loop_inv max_delta a0 todo (process max_delta b y).
Proof.
  intros Hinv [Hy Hd] Hex.
  destruct (first_delta_group todo b y Hinv Hex) as (HL & HR & Hdelta).
  destruct Hinv as [Hlen Hinv].
  split; [now rewrite process_length|].
  intros i Hi. unfold process. rewrite HL, HR.
  pose proof (count_side_le_length Right a0 y) as Hrlen.
  assert (Hlr : (count_side Left a0 y < count_side Right a0 y)%nat).
  { destruct Hex as (j & Hj & Hjy).
    pose proof (proj1 (sorted_group_positions a0 y a0_sorted j Hj) Hjy). lia. }
  pose proof (sorted_group_positions a0 y a0_sorted i Hi) as Hgrp.
  set (l := count_side Left a0 y) in *. set (r := count_side Right a0 y) in *.
  rewrite bump_nth by (rewrite Hlen; lia).
  destruct (Hinv i Hi) as [Hp Hn].
  assert (Py : nth i a0 0 == y -> pending a0 (y :: todo) i).
  { intros Hiy. exists y. split; [left; auto | now symmetry]. }
  destruct ((S l <=? i) && (i <? S l + (r - 1 - l)))%nat eqn:Ein.
  - apply andb_true_iff in Ein. destruct Ein as [E1 E2].
    apply Nat.leb_le in E1. apply Nat.ltb_lt in E2.
    assert (Hiy : nth i a0 0 == y) by (apply Hgrp; lia).
    assert (Hnp : ~ pending a0 todo i).
    { intros (z & Hz & Hq). apply (Hy z Hz). rewrite Hq, Hiy. reflexivity. }
    split; [intros P; contradiction|]. intros _.
    rewrite (Hp (Py Hiy)), dbl_pow2, Hdelta.
    unfold expected. rewrite (count_side_compat Left a0 _ y Hiy). fold l.
    destruct (Nat.leb_spec i l); [lia|].
    rewrite (group_delta_compat max_delta a0 _ y Hiy), Hiy.
    replace (i - S l)%nat with (i - l - 1)%nat by lia. reflexivity.
  - split.
    + intros (z & Hz & Hq). apply Hp. exists z. split; [right; auto | auto].
    + intros P. destruct (Qeq_dec (nth i a0 0) y) as [Hiy|Hiy].
      * assert (i = l).
        { apply Hgrp in Hiy.
          destruct (Nat.leb_spec (S l) i), (Nat.ltb_spec i (S l + (r - 1 - l)));
            simpl in Ein; try discriminate; lia. }
        rewrite (Hp (Py Hiy)).
        rewrite expected_first; [reflexivity | auto |].
        rewrite (count_side_compat Left a0 _ y Hiy). auto.
      * apply Hn. intros (z & [<-|Hz] & Hq).
        -- apply Hiy. now symmetry.
        -- apply P. exists z. auto.
Qed.

Lemma loop_inv_fold (todo : list Q) :
  forall b,
    loop_inv max_delta a0 todo b ->
    distinct todo ->
    (forall y, In y todo -> exists j, (j < length a0)%nat /\ nth j a0 0 == y) ->
    loop_inv max_delta a0 [] (fold_left (process max_delta) todo b).
Proof.
  induction todo as [|y todo IH]; intros b Hinv Hd Hex; simpl; auto.
  apply IH.
  - apply loop_inv_step; auto. apply Hex. left; auto.
  - apply Hd.
  - intros z Hz. apply Hex. right; auto.
Qed.

Lemma loop_inv_init : loop_inv max_delta a0 (duplicates_of a0) a0.
Proof.
  split; auto. intros i Hi. split; [reflexivity|]. intros P.
  rewrite expected_first; [reflexivity | auto |].
  pose proof (own_group i Hi) as [H1 H2].
  assert (Hocc : (occurrences a0 (nth i a0 0%Q) < 2)%nat).
  { destruct (le_lt_dec 2 (occurrences a0 (nth i a0 0%Q))) as [Hge|]; auto.
    exfalso. apply P.
    destruct (duplicates_of_complete a0 _ Hge) as (y & Hy & Hq). exists y. auto. }
  rewrite count_right_split in H2. lia.
Qed.

(** On a sorted index that fits, with a positive max_delta, the loop
    leaves the expected label at every position. *)
Lemma adjusted_expected (i : nat) :
  (i < length a0)%nat ->
  nth i (adjusted max_delta a0) 0 == expected max_delta a0 i.
Proof.
  intros Hi. unfold adjusted.
  destruct (loop_inv_fold (duplicates_of a0) a0 loop_inv_init
                          (duplicates_of_distinct a0)) as [_ H].
  - intros y Hy. apply occurrences_pos.
    pose proof (duplicates_of_sound a0 y Hy). lia.
  - apply H; auto. intros (y & [] & _).
Qed.

End ClosedForm.

(** * The float64 numbers

    What [float64b] accepts is a float64: a mantissa below [2^53] in
    absolute value scaled by a power of two that is at least [2^-1074],
    the whole below [2^1024] in absolute value. *)

Lemma odd_part_spec (p : positive) :
  Z.pos p = (Z.pos (fst (odd_part p)) * 2 ^ Z.of_nat (snd (odd_part p)))%Z.
Proof.
  induction p as [p IH|p IH|].
  - cbn [odd_part fst snd]. change (2 ^ Z.of_nat 0)%Z with 1%Z. lia.
  - cbn [odd_part]. destruct (odd_part p) as [m t]. cbn [fst snd] in *.
    rewrite Pos2Z.inj_xO, IH, Nat2Z.inj_succ, Z.pow_succ_r by lia. ring.
  - reflexivity.
Qed.

Lemma float64b_compat (x y : Q) : x == y -> float64b x = float64b y.
Proof. intros H. unfold float64b. now rewrite (Qred_complete x y H). Qed.

Lemma fraction_below (n : Z) (d : positive) (B : Z) :
  (Z.abs n < B)%Z -> - inject_Z B < n # d /\ n # d < inject_Z B.
Proof.
  intros H. unfold Qlt, inject_Z, Qopp. cbn [Qnum Qden].
  pose proof (Pos2Z.is_pos d). split; nia.
Qed.

Lemma float64b_sound (x : Q) :
  float64b x = true ->
  exists (m : Z) (t k : nat),
    (Z.abs m < 2 ^ 53)%Z /\ (k <= 1074)%nat
    /\ - inject_Z (2 ^ 1024) < x /\ x < inject_Z (2 ^ 1024)
    /\ x == inject_Z (m * 2 ^ Z.of_nat t) / inject_Z (2 ^ Z.of_nat k).
Proof.
  unfold float64b. intros H.
  assert (Hx : x == Qred x) by (symmetry; apply Qred_correct).
  destruct (Qred x) as [n d]. cbn [Qnum Qden] in H.
  assert (Hgen : forall (sgn : Z) (p : positive),
             (sgn = 1 \/ sgn = -1)%Z ->
             (let (m, _) := odd_part p in
              let (q, k) := odd_part d in
              (q =? 1)%positive && (Z.pos m <? 2 ^ 53)%Z
              && (k <=? 1074)%nat && (Z.pos p <? 2 ^ 1024)%Z) = true ->
             exists (m : Z) (t k : nat),
               (Z.abs m < 2 ^ 53)%Z /\ (k <= 1074)%nat
               /\ - inject_Z (2 ^ 1024) < (sgn * Z.pos p) # d
               /\ (sgn * Z.pos p) # d < inject_Z (2 ^ 1024)
               /\ (sgn * Z.pos p) # d
                  == inject_Z (m * 2 ^ Z.of_nat t) / inject_Z (2 ^ Z.of_nat k)).
  { intros sgn p Hsgn Hb.
    pose proof (odd_part_spec p) as Hp. pose proof (odd_part_spec d) as Hd.
    destruct (odd_part p) as [m t]. destruct (odd_part d) as [q k].
    cbn [fst snd] in Hp, Hd.
    apply andb_prop in Hb as [Hb Hmag]. apply andb_prop in Hb as [Hb Hk].
    apply andb_prop in Hb as [Hq Hm].
    apply Pos.eqb_eq in Hq. subst q. apply Z.ltb_lt in Hm, Hmag.
    apply Nat.leb_le in Hk.
    exists (sgn * Z.pos m)%Z, t, k.
    split; [lia|]. split; [exact Hk|].
    destruct (fraction_below (sgn * Z.pos p) d (2 ^ 1024)) as [Hlo Hhi]; [lia|].
    split; [exact Hlo|]. split; [exact Hhi|].
    assert (Hpow : (0 < 2 ^ Z.of_nat k)%Z) by (apply Z.pow_pos_nonneg; lia).
    unfold Qdiv, Qeq, Qmult, Qinv, inject_Z. cbn [Qnum Qden].
    destruct (2 ^ Z.of_nat k)%Z as [|pk|pk] eqn:Ek; try lia.
    cbn [Qnum Qden]. rewrite Hp, Hd. rewrite Pos.mul_1_l. lia. }
  destruct n as [|p|p].
  - exists 0%Z, 0%nat, 0%nat. rewrite Hx.
    split; [reflexivity|]. split; [lia|]. repeat split.
  - destruct (Hgen 1%Z p (or_introl eq_refl) H)
      as (m & t & k & H1 & H2 & H3 & H4 & H5).
    exists m, t, k. rewrite Hx. change (Z.pos p) with (1 * Z.pos p)%Z. auto 6.
  - destruct (Hgen (-1)%Z p (or_intror eq_refl) H)
      as (m & t & k & H1 & H2 & H3 & H4 & H5).
    exists m, t, k. rewrite Hx. change (Z.neg p) with (-1 * Z.pos p)%Z. auto 6.
Qed.

Lemma round64_exact (x : Q) : float64b x = true -> round64 x == x.
Proof. intros H. unfold round64. rewrite H. reflexivity. Qed.

(** Numbers on both sides of the limits, and the float64 nearest to a
    number that is none: 0.1, the tie [2^53 + 1] (to the even mantissa)
    and [2^53 + 3]. *)
Lemma float64_examples :
  float64b (1 + (1 # 1024)) = true
  /\ float64b (1 # 10) = false
  /\ float64b (inject_Z (2 ^ 53)) = true
  /\ float64b (inject_Z (2 ^ 53) + 1) = false
  /\ float64b (inject_Z (2 ^ 53) + 2) = true
  /\ float64b (1 / inject_Z (2 ^ 1074)) = true
  /\ float64b (1 / inject_Z (2 ^ 1075)) = false
  /\ float64b (inject_Z ((2 ^ 53 - 1) * 2 ^ 971)) = true
  /\ float64b (inject_Z (2 ^ 1024)) = false
  /\ Qeq_bool (round64 (1 # 10))
              (3602879701896397 # 36028797018963968) = true
  /\ Qeq_bool (round64 (inject_Z (2 ^ 53) + 1)) (inject_Z (2 ^ 53)) = true
  /\ Qeq_bool (round64 (inject_Z (2 ^ 53) + 3)) (inject_Z (2 ^ 53) + 4) = true.
Proof. repeat split; vm_compute; reflexivity. Qed.

(** * handle_duplicate_index in rounded arithmetic *)

Lemma bump_r_length (rnd : Q -> Q) (n : nat) :
  forall a i delta, length (bump_r rnd a i n delta) = length a.
Proof.
  induction n as [|n IH]; intros a i delta; simpl; auto.
  now rewrite IH, upd_length.
Qed.

Lemma process_r_length (rnd : Q -> Q) (max_delta : Q) (a : list Q) (dup : Q) :
  length (process_r rnd max_delta a dup) = length a.
Proof. unfold process_r. apply bump_r_length. Qed.

Lemma adjusted_r_length (rnd : Q -> Q) (max_delta : Q) (a : list Q) :
  length (adjusted_r rnd max_delta a) = length a.
Proof.
  unfold adjusted_r. generalize (duplicates_of a) as dups.
  intros dups. revert a.
  induction dups as [|d dups IH]; intros a; simpl; auto.
  now rewrite IH, process_r_length.
Qed.

Section RunningRounded.

Variable rnd : Q -> Q.
Variable h : heap.
Variable arr : loc.
Hypothesis arr_valid : (arr < length h)%nat.

Lemma iadd_item_r_in (a : list Q) (i : nat) (x : Q) :
  (i < length a)%nat ->
  iadd_item_r rnd arr (Z.of_nat i) x (upd h arr a)
  = Ok tt (upd h arr (upd a i (rnd (nth i a 0 + x)))).
Proof.
  intros H. unfold iadd_item_r, bind. rewrite load_upd by assumption.
  rewrite (norm_index_in h arr arr_valid) by assumption. now apply store_upd.
Qed.

Lemma add_deltas_r_run (n : nat) :
  forall fuel (a : list Q) (left right : Z) (delta : Q),
    Z.to_nat (right - left + 1) = n ->
    (n < fuel)%nat ->
    (0 <= left)%Z ->
    (n = 0%nat \/ right < Z.of_nat (length a))%Z ->
    add_deltas_r rnd fuel arr left right delta (upd h arr a)
    = Ok tt (upd h arr (bump_r rnd a (Z.to_nat left) n delta)).
Proof.
  induction n as [|n IH]; intros fuel a left right delta Hn Hfuel Hleft Hright;
    (destruct fuel as [|fuel]; [lia|]); simpl.
  - destruct (Z.leb_spec left right); [lia | reflexivity].
  - destruct (Z.leb_spec left right); [|lia].
    unfold bind.
    rewrite <- (Z2Nat.id left) at 1 by assumption.
    rewrite iadd_item_r_in by lia.
    rewrite (IH fuel _ (left + 1)%Z right); try lia.
    + replace (Z.to_nat (left + 1)) with (S (Z.to_nat left)) by lia. reflexivity.
    + rewrite upd_length. lia.
Qed.

Lemma handle_dup_r_run (a : list Q) (max_delta dup : Q) :
  handle_dup_r rnd arr arr max_delta dup (upd h arr a)
  = Ok tt (upd h arr (process_r rnd max_delta a dup)).
Proof.
  unfold handle_dup_r, bind.
  rewrite !searchsorted_run by assumption.
  pose proof (search_le_length Right a dup) as Hr.
  set (l := search Left a dup) in *. set (r := search Right a dup) in *.
  assert (Hd : try_except
            (fun h0 => match getitem arr (Z.of_nat r - 1 + 1) h0 with
                       | Ok c h' =>
                           ret (rnd (rnd (c - dup)
                                     / inject_Z (Z.of_nat r - 1 - Z.of_nat l + 1))) h'
                       | Raise e h' => Raise e h'
                       end) IndexError (ret max_delta) (upd h arr a)
          = Ok (if (r <? length a)%nat
                then rnd (rnd (nth r a 0 - dup)
                          / inject_Z (Z.of_nat r - 1 - Z.of_nat l + 1))
                else max_delta) (upd h arr a)).
  { unfold try_except. replace (Z.of_nat r - 1 + 1)%Z with (Z.of_nat r) by lia.
    destruct (Nat.ltb_spec r (length a)).
    - now rewrite getitem_in.
    - now rewrite getitem_out. }
  rewrite Hd. clear Hd.
  rewrite (add_deltas_r_run (r - 1 - l)); try lia.
  replace (Z.to_nat (Z.of_nat l + 1)) with (S l) by lia.
  unfold process_r, first_delta_r. fold l r. reflexivity.
Qed.

Lemma for_each_r_run (max_delta : Q) (dups : list Q) :
  forall a,
    for_each dups (handle_dup_r rnd arr arr max_delta) (upd h arr a)
    = Ok tt (upd h arr (fold_left (process_r rnd max_delta) dups a)).
Proof.
  induction dups as [|d dups IH]; intros a; simpl; [reflexivity|].
  unfold bind. rewrite handle_dup_r_run. apply IH.
Qed.

End RunningRounded.

Section RoundedResolver.

Variable rnd : Q -> Q.
Variable V : Type.
Variable nan : V.

(** As [handle_duplicate_index_run]: the call returns normally and
    leaves the labels of [adjusted_r] in the buffer of the caller's
    index. *)
Lemma handle_duplicate_index_r_run (h : heap) (data : Series V) (max_delta : Q)
      (a : list Q) :
  nth_error h (index data) = Some a ->
  handle_duplicate_index_r rnd nan data max_delta h
  = Ok (mkSeries (index data) (values data))
       (upd h (index data) (adjusted_r rnd max_delta a)).
Proof.
  intros Ha.
  assert (Hv : (index data < length h)%nat).
  { apply nth_error_Some. congruence. }
  unfold handle_duplicate_index_r, get_duplicates.
  unfold bind at 1. unfold bind at 1. unfold load at 1. rewrite Ha.
  unfold ret at 1. unfold bind at 1.
  rewrite <- (upd_nth_error h (index data) a Ha) at 1.
  rewrite for_each_r_run by assumption.
  unfold reindex, bind. rewrite !load_upd by assumption.
  rewrite index_equals_refl. reflexivity.
Qed.

Lemma handle_duplicate_index_r_timestamps
      (h : heap) (data : Series V) (max_delta : Q) :
  well_formed h data ->
  exists out h',
    handle_duplicate_index_r rnd nan data max_delta h = Ok out h'
    /\ timestamps h' out = adjusted_r rnd max_delta (timestamps h data).
Proof.
  unfold well_formed. destruct (nth_error h (index data)) as [a|] eqn:Ha; [|tauto].
  intros Hlen.
  assert (Hv : (index data < length h)%nat) by (apply nth_error_Some; congruence).
  do 2 eexists. split; [apply handle_duplicate_index_r_run; exact Ha|].
  unfold timestamps, rows. cbn [index values]. rewrite Ha.
  rewrite nth_error_upd_same by assumption.
  rewrite !map_fst_combine; auto.
  now rewrite adjusted_r_length.
Qed.

End RoundedResolver.

(** With the identity for [rnd] this is the exact run. *)
Lemma handle_duplicate_index_r_id {V : Type} (nan : V) (data : Series V)
      (max_delta : Q) :
  handle_duplicate_index_r (fun x => x) nan data max_delta
  = handle_duplicate_index nan data max_delta.
Proof. reflexivity. Qed.

Lemma adjusted_r_id (max_delta : Q) (a : list Q) :
  adjusted_r (fun x => x) max_delta a = adjusted max_delta a.
Proof. reflexivity. Qed.

(** * Rounding changes nothing where the arithmetic is exact *)

Lemma bump_r_nth (rnd : Q -> Q) (n : nat) :
  forall (a : list Q) (i : nat) (delta : Q) (j : nat),
    (i + n <= length a)%nat ->
    nth j (bump_r rnd a i n delta) 0
    = if ((i <=? j) && (j <? i + n))%nat
      then rnd (nth j a 0 + dbl_r rnd (j - i) delta)
      else nth j a 0.
Proof.
  induction n as [|n IH]; intros a i delta j Hlen; simpl bump_r.
  - destruct (Nat.leb_spec i j), (Nat.ltb_spec j (i + 0)); simpl; auto; lia.
  - rewrite IH by (rewrite upd_length; lia).
    destruct (Nat.eq_dec j i) as [->|Hne].
    + rewrite nth_upd_same by lia.
      destruct (Nat.leb_spec (S i) i), (Nat.leb_spec i i),
        (Nat.ltb_spec i (i + S n)); simpl; try lia.
      rewrite Nat.sub_diag. reflexivity.
    + rewrite nth_upd_other by lia.
      destruct (Nat.leb_spec (S i) j), (Nat.leb_spec i j),
        (Nat.ltb_spec j (S i + n)), (Nat.ltb_spec j (i + S n)); simpl; auto; try lia.
      replace (j - i)%nat with (S (j - S i)) by lia. reflexivity.
Qed.

Lemma exact64b_at (max_delta : Q) (a : list Q) (i : nat) :
  exact64b max_delta a = true -> (i < length a)%nat ->
  exact_at max_delta a i = true.
Proof.
  unfold exact64b. intros H Hi. apply andb_prop in H as [_ H].
  rewrite forallb_forall in H. apply H. apply in_seq. lia.
Qed.

Section RoundedRun.

Variable rnd : Q -> Q.
Hypothesis rnd_exact : forall x, float64b x = true -> rnd x == x.

Variable a0 : list Q.
Variable max_delta : Q.
Hypothesis a0_sorted : sortedb a0 = true.
Hypothesis max_delta_pos : 0 < max_delta.
Hypothesis a0_fits : fitsb max_delta a0 = true.
Hypothesis a0_exact : exact64b max_delta a0 = true.

(** What [exact64b] says about an entry of the group of [y] other than
    its first one. *)
Lemma group_floats (y : Q) (i : nat) :
  (count_side Left a0 y < i < count_side Right a0 y)%nat ->
  ((count_side Right a0 y < length a0)%nat ->
   float64b (nth (count_side Right a0 y) a0 0 - y) = true
   /\ float64b ((nth (count_side Right a0 y) a0 0 - y)
                / inject_Z (Z.of_nat (count_side Right a0 y - count_side Left a0 y)))
      = true)
  /\ float64b (pow2 (i - count_side Left a0 y - 1) * group_delta max_delta a0 y) = true
  /\ float64b (y + pow2 (i - count_side Left a0 y - 1) * group_delta max_delta a0 y)
     = true
  /\ float64b (pow2 (i - count_side Left a0 y) * group_delta max_delta a0 y) = true.
Proof.
  intros Hi.
  pose proof (count_side_le_length Right a0 y) as Hrlen.
  assert (Hlen : (i < length a0)%nat) by lia.
  assert (Hiy : nth i a0 0 == y)
    by (apply (sorted_group_positions a0 y a0_sorted i Hlen); lia).
  pose proof (exact64b_at max_delta a0 i a0_exact Hlen) as H.
  unfold exact_at, expected in H.
  rewrite !(count_side_compat _ a0 _ y Hiy) in H.
  destruct (Nat.leb_spec i (count_side Left a0 y)); [lia|].
  simpl in H.
  apply andb_prop in H as [H H4]. apply andb_prop in H as [H H3].
  apply andb_prop in H as [H1 H2].
  pose proof (group_delta_compat max_delta a0 _ y Hiy) as Hgd.
  split; [|split; [|split]].
  - intros Hr. apply Nat.ltb_lt in Hr. rewrite Hr in H1.
    apply andb_prop in H1 as [Ha Hb]. split.
    + rewrite <- Ha. apply float64b_compat. now rewrite Hiy.
    + rewrite <- Hb. apply float64b_compat. now rewrite Hiy.
  - rewrite <- H2. apply float64b_compat. now rewrite Hgd.
  - rewrite <- H3. apply float64b_compat. now rewrite Hgd, Hiy.
  - rewrite <- H4. apply float64b_compat. now rewrite Hgd.
Qed.

Lemma dbl_r_exact (k : nat) :
  forall delta,
    (forall j, (1 <= j <= k)%nat -> float64b (pow2 j * delta) = true) ->
    dbl_r rnd k delta == pow2 k * delta.
Proof.
  induction k as [|k IH]; intros delta H; simpl.
  - rewrite pow2_0. lra.
  - assert (Hd : rnd (delta + delta) == delta + delta).
    { apply rnd_exact. rewrite <- (H 1%nat) by lia.
      apply float64b_compat. rewrite pow2_S, pow2_0. lra. }
    rewrite IH.
    + rewrite Hd, pow2_S. lra.
    + intros j Hj. rewrite <- (H (S j)) by lia.
      apply float64b_compat. rewrite Hd, pow2_S. lra.
Qed.

(** One round on a pending duplicate: the rounded first increment is the
    one of the closed form. *)
Lemma first_delta_r_group (todo b : list Q) (y : Q) :
  loop_inv max_delta a0 (y :: todo) b ->
  (count_side Left a0 y + 2 <= count_side Right a0 y)%nat ->
  search Left b y = count_side Left a0 y
  /\ search Right b y = count_side Right a0 y
  /\ first_delta_r rnd max_delta b y == group_delta max_delta a0 y.
Proof.
  intros Hinv Hsize.
  pose proof (count_side_le_length Right a0 y) as Hrlen.
  assert (Hex : exists j, (j < length a0)%nat /\ nth j a0 0 == y).
  { exists (count_side Left a0 y). split; [lia|].
    apply (sorted_group_positions a0 y a0_sorted); lia. }
  destruct (first_delta_group a0 max_delta a0_sorted max_delta_pos a0_fits
              todo b y Hinv Hex) as (HL & HR & Hdelta).
  split; auto. split; auto.
  rewrite <- Hdelta. unfold first_delta_r, first_delta. rewrite HL, HR.
  destruct Hinv as [Hlen Hinv]. rewrite Hlen.
  set (l := count_side Left a0 y) in *. set (r := count_side Right a0 y) in *.
  destruct (Nat.ltb_spec r (length a0)) as [Hr|Hr]; [|reflexivity].
  destruct (group_floats y (S l) ltac:(fold l; fold r; lia)) as [Hgap _].
  fold l in Hgap. fold r in Hgap. destruct (Hgap Hr) as [Hg Hq].
  assert (Hb : nth r b 0 == nth r a0 0).
  { destruct (Hinv r Hr) as [Hp Hn].
    destruct (pending_dec a0 (y :: todo) r) as [P|P]; auto.
    rewrite (Hn P). destruct (ceiling_is_first a0 a0_sorted y Hr) as [_ Hc].
    rewrite expected_first; auto. reflexivity. }
  replace (Z.of_nat r - 1 - Z.of_nat l + 1)%Z with (Z.of_nat (r - l)) by lia.
  assert (H1 : rnd (nth r b 0 - y) == nth r a0 0 - y).
  { rewrite rnd_exact; [now rewrite Hb|].
    rewrite <- Hg. apply float64b_compat. now rewrite Hb. }
  assert (H2 : rnd (rnd (nth r b 0 - y) / inject_Z (Z.of_nat (r - l)))
               == (nth r b 0 - y) / inject_Z (Z.of_nat (r - l))).
  { rewrite rnd_exact; [now rewrite H1, Hb|].
    rewrite <- Hq. apply float64b_compat. now rewrite H1. }
  rewrite (Qlt_bool_compat max_delta max_delta _ _ (Qeq_refl _) H2).
  destruct (Qlt_bool max_delta _); [reflexivity | exact H2].
Qed.

Lemma loop_inv_step_r (todo b : list Q) (y : Q) :
  loop_inv max_delta a0 (y :: todo) b ->
  distinct (y :: todo) ->
  (count_side Left a0 y + 2 <= count_side Right a0 y)%nat ->
  loop_inv max_delta a0 todo (process_r rnd max_delta b y).
Proof.
  intros Hinv [Hy Hd] Hsize.
  destruct (first_delta_r_group todo b y Hinv Hsize) as (HL & HR & Hdelta).
  destruct Hinv as [Hlen Hinv].
  split; [now rewrite process_r_length|].
  intros i Hi. unfold process_r. rewrite HL, HR.
  pose proof (count_side_le_length Right a0 y) as Hrlen.
  pose proof (sorted_group_positions a0 y a0_sorted i Hi) as Hgrp.
  set (l := count_side Left a0 y) in *. set (r := count_side Right a0 y) in *.
  rewrite bump_r_nth by (rewrite Hlen; lia).
  destruct (Hinv i Hi) as [Hp Hn].
  assert (Py : nth i a0 0 == y -> pending a0 (y :: todo) i).
  { intros Hiy. exists y. split; [left; auto | now symmetry]. }
  destruct ((S l <=? i) && (i <? S l + (r - 1 - l)))%nat eqn:Ein.
  - apply andb_true_iff in Ein. destruct Ein as [E1 E2].
    apply Nat.leb_le in E1. apply Nat.ltb_lt in E2.
    assert (Hiy : nth i a0 0 == y) by (apply Hgrp; lia).
    assert (Hnp : ~ pending a0 todo i).
    { intros (z & Hz & Hq). apply (Hy z Hz). rewrite Hq, Hiy. reflexivity. }
    split; [intros P; contradiction|]. intros _.
    assert (Hdbl : dbl_r rnd (i - S l) (first_delta_r rnd max_delta b y)
                   == pow2 (i - l - 1) * group_delta max_delta a0 y).
    { rewrite dbl_r_exact.
      - rewrite Hdelta. replace (i - S l)%nat with (i - l - 1)%nat by lia.
        reflexivity.
      - intros j Hj.
        destruct (group_floats y (l + j) ltac:(fold l; fold r; lia))
          as (_ & _ & _ & H4).
        fold l in H4. rewrite <- H4. apply float64b_compat.
        rewrite Hdelta. replace (l + j - l)%nat with j by lia. reflexivity. }
    destruct (group_floats y i ltac:(fold l; fold r; lia)) as (_ & _ & H3 & _).
    fold l in H3.
    assert (Hsum : nth i b 0 + dbl_r rnd (i - S l) (first_delta_r rnd max_delta b y)
                   == y + pow2 (i - l - 1) * group_delta max_delta a0 y).
    { rewrite (Hp (Py Hiy)), Hdbl, Hiy. reflexivity. }
    rewrite rnd_exact by (rewrite <- H3; now apply float64b_compat).
    rewrite Hsum.
    unfold expected. rewrite (count_side_compat Left a0 _ y Hiy). fold l.
    destruct (Nat.leb_spec i l); [lia|].
    rewrite (group_delta_compat max_delta a0 _ y Hiy), Hiy. reflexivity.
  - split.
    + intros (z & Hz & Hq). apply Hp. exists z. split; [right; auto | auto].
    + intros P. destruct (Qeq_dec (nth i a0 0) y) as [Hiy|Hiy].
      * assert (i = l).
        { apply Hgrp in Hiy.
          destruct (Nat.leb_spec (S l) i), (Nat.ltb_spec i (S l + (r - 1 - l)));
            simpl in Ein; try discriminate; lia. }
        rewrite (Hp (Py Hiy)).
        rewrite expected_first; [reflexivity | auto |].
        rewrite (count_side_compat Left a0 _ y Hiy). auto.
      * apply Hn. intros (z & [<-|Hz] & Hq).
        -- apply Hiy. now symmetry.
        -- apply P. exists z. auto.
Qed.

Lemma loop_inv_fold_r (todo : list Q) :
  forall b,
    loop_inv max_delta a0 todo b ->
    distinct todo ->
    (forall y, In y todo -> (2 <= occurrences a0 y)%nat) ->
    loop_inv max_delta a0 [] (fold_left (process_r rnd max_delta) todo b).
Proof.
  induction todo as [|y todo IH]; intros b Hinv Hd Hocc; simpl; auto.
  apply IH.
  - apply loop_inv_step_r; auto.
    rewrite count_right_split. specialize (Hocc y (or_introl eq_refl)). lia.
  - apply Hd.
  - intros z Hz. apply Hocc. right; auto.
Qed.

Lemma adjusted_r_expected (i : nat) :
  (i < length a0)%nat ->
  nth i (adjusted_r rnd max_delta a0) 0 == expected max_delta a0 i.
Proof.
  intros Hi. unfold adjusted_r.
  destruct (loop_inv_fold_r (duplicates_of a0) a0
              (loop_inv_init a0 max_delta a0_sorted)
              (duplicates_of_distinct a0)) as [_ H].
  - intros y Hy. now apply duplicates_of_sound.
  - apply H; auto. intros (y & [] & _).
Qed.

End RoundedRun.

(** ** A duplicate group, as the claim describes it *)

Lemma is_groupb_spec (a : list Q) (l n : nat) (d : Q) :
  is_groupb a l n d = true ->
  (l + n <= length a)%nat
  /\ forall i, (i < length a)%nat -> (nth i a 0 == d <-> (l <= i < l + n)%nat).
Proof.
  unfold is_groupb. intros H. apply andb_true_iff in H. destruct H as [H1 H2].
  apply Nat.leb_le in H1. split; auto.
  intros i Hi. rewrite forallb_forall in H2.
  specialize (H2 i). rewrite in_seq in H2. specialize (H2 ltac:(lia)).
  apply eqb_prop in H2. rewrite <- Qeq_bool_iff, H2, andb_true_iff.
  rewrite Nat.leb_le, Nat.ltb_lt. tauto.
Qed.

Lemma group_bounds (a : list Q) (l n : nat) (d : Q) :
  sortedb a = true ->
  is_groupb a l n d = true ->
  (1 <= n)%nat ->
  count_side Left a d = l /\ count_side Right a d = (l + n)%nat.
Proof.
  intros Hs Hg Hn. destruct (is_groupb_spec a l n d Hg) as [Hlen Hpos].
  pose proof (count_side_le_length Right a d) as Hr.
  pose proof (count_left_le_right a d) as Hlr.
  set (cl := count_side Left a d) in *. set (cr := count_side Right a d) in *.
  assert (Hiff : forall i, (i < length a)%nat ->
                           ((l <= i < l + n)%nat <-> (cl <= i < cr)%nat)).
  { intros i Hi. rewrite <- (Hpos i Hi). now apply sorted_group_positions. }
  pose proof (Hiff l ltac:(lia)) as Hl.
  pose proof (Hiff (l + n - 1)%nat ltac:(lia)) as Hlast.
  assert (cl = l).
  { destruct (Nat.eq_dec cl l); auto.
    assert (Hc : (cl < length a)%nat) by lia.
    pose proof (Hiff cl Hc). lia. }
  split; auto.
  destruct (Nat.eq_dec cr (l + n)); auto.
  assert (Hc : (l + n < length a)%nat) by lia.
  pose proof (Hiff (l + n)%nat Hc). lia.
Qed.

Section GroupClaim.

Variable V : Type.
Variable nan : V.

Lemma timestamps_well_formed (h : heap) (s : Series V) (a : list Q) :
  nth_error h (index s) = Some a -> length a = length (values s) ->
  timestamps h s = a.
Proof.
  intros Ha Hlen. unfold timestamps, rows. rewrite Ha.
  now apply map_fst_combine.
Qed.

(** The timestamps of the returned series, on a well-formed input. *)
Lemma handle_duplicate_index_timestamps (h : heap) (data : Series V) (max_delta : Q) :
  well_formed h data ->
  exists out h',
    handle_duplicate_index nan data max_delta h = Ok out h'
    /\ timestamps h' out = adjusted max_delta (timestamps h data).
Proof.
  intros Hwf. destruct (well_formed_buffer _ _ _ Hwf) as (a & Ha & Hlen).
  assert (Hv : (index data < length h)%nat) by (apply nth_error_Some; congruence).
  do 2 eexists. split; [apply handle_duplicate_index_run; exact Ha|].
  rewrite (timestamps_well_formed h data a Ha Hlen).
  apply timestamps_well_formed; simpl.
  - now apply nth_error_upd_same.
  - now rewrite adjusted_length.
Qed.

(** Any rounding that returns a float64 unchanged, as rounding to the
    nearest float64 does. *)
Variable rnd : Q -> Q.
Hypothesis rnd_exact : forall x, float64b x = true -> rnd x == x.


End GroupClaim.


(** * Further properties of handle_duplicate_index *)

Lemma increasingb_tail (x : Q) (l : list Q) :
  increasingb (x :: l) = true -> increasingb l = true.
Proof.
  simpl. destruct l as [|y l]; auto.
  intros H. apply andb_true_iff in H. tauto.
Qed.

Lemma increasingb_head_lt (x : Q) (l : list Q) :
  increasingb (x :: l) = true -> forall y, In y l -> x < y.
Proof.
  revert x. induction l as [|z l IH]; intros x H y Hy; [contradiction|].
  simpl in H. apply andb_true_iff in H. destruct H as [Hxz Hs].
  apply Qlt_bool_iff in Hxz. destruct Hy as [<-|Hy]; auto.
  apply Qlt_trans with z; auto.
Qed.

Lemma increasingb_nth (l : list Q) :
  (forall i, (S i < length l)%nat -> nth i l 0 < nth (S i) l 0) ->
  increasingb l = true.
Proof.
  induction l as [|x l IH]; intros H; [reflexivity|].
  destruct l as [|y l]; [reflexivity|].
  change (Qlt_bool x y && increasingb (y :: l) = true).
  apply andb_true_iff. split.
  - apply Qlt_bool_iff. apply (H 0%nat). simpl. lia.
  - apply IH. intros i Hi. apply (H (S i)). simpl in *. lia.
Qed.

Lemma filter_none_Q (f : Q -> bool) (l : list Q) :
  (forall x, In x l -> f x = false) -> filter f l = [].
Proof.
  induction l as [|x l IH]; intros H; simpl; auto.
  rewrite (H x) by (left; auto). apply IH. intros; apply H; right; auto.
Qed.

Lemma increasing_occurs_once (a : list Q) (y : Q) :
  increasingb a = true -> (occurrences a y <= 1)%nat.
Proof.
  unfold occurrences. induction a as [|x a IH]; intros H; simpl; [lia|].
  pose proof (increasingb_tail _ _ H) as Ht.
  destruct (Qeq_bool x y) eqn:E; [|auto].
  apply Qeq_bool_iff in E.
  rewrite (filter_none_Q (fun z => Qeq_bool z y) a); [simpl; lia|].
  intros z Hz. destruct (Qeq_bool z y) eqn:Ez; auto.
  apply Qeq_bool_iff in Ez.
  pose proof (increasingb_head_lt _ _ H z Hz) as Hlt.
  rewrite E, Ez in Hlt. exfalso. eapply Qlt_irrefl; eauto.
Qed.

Lemma duplicate_free_no_duplicates (a : list Q) :
  increasingb a = true -> duplicates_of a = [].
Proof.
  intros H. destruct (duplicates_of a) as [|y t] eqn:E; auto.
  assert (Hy : In y (duplicates_of a)) by (rewrite E; left; auto).
  apply duplicates_of_sound in Hy.
  pose proof (increasing_occurs_once a y H). lia.
Qed.

(** A fraction of the gap: [p] steps of size [g / n] stay below [g]
    when [p < n]. *)
Lemma steps_below_gap (p g n : Q) :
  0 < g -> 0 <= p -> p < n -> p * (g / n) < g.
Proof.
  intros Hg Hp Hpn.
  assert (Hn : 0 < n) by lra.
  assert (H1 : p / n < 1) by (apply Qlt_shift_div_r; lra).
  assert (H2 : (p / n) * g < 1 * g) by (apply Qmult_lt_compat_r; auto).
  assert (H3 : p * (g / n) == (p / n) * g) by (field; lra).
  rewrite H3. lra.
Qed.

Section Fitting.

Variable a0 : list Q.
Variable max_delta : Q.
Hypothesis a0_sorted : sortedb a0 = true.
Hypothesis max_delta_pos : 0 < max_delta.

(** Groups of at most three entries never reach the next timestamp. *)
Lemma small_groups_fit :
  small_groupsb a0 = true -> fitsb max_delta a0 = true.
Proof.
  intros Hsmall. unfold fitsb.
  apply forallb_forall. intros i Hi. apply forallb_forall. intros j Hj.
  apply in_seq in Hi, Hj. simpl in Hi, Hj.
  destruct (Qlt_bool (nth i a0 0) (nth j a0 0)) eqn:Elt; [|reflexivity].
  simpl. apply Qlt_bool_iff. apply Qlt_bool_iff in Elt.
  set (d := nth i a0 0) in *.
  pose proof (own_group a0 a0_sorted i ltac:(lia)) as [Hl Hr]. fold d in Hl, Hr.
  assert (Hocc : (occurrences a0 d <= 3)%nat).
  { unfold small_groupsb in Hsmall. rewrite forallb_forall in Hsmall.
    apply Nat.leb_le. apply Hsmall. apply nth_In. lia. }
  pose proof (count_right_split a0 d) as Hsplit.
  unfold expected. fold d.
  set (l := count_side Left a0 d) in *. set (r := count_side Right a0 d) in *.
  destruct (Nat.leb_spec i l) as [|Hil]; [exact Elt|].
  (* the ceiling exists and is at most the label at j *)
  assert (Hjr : (r <= j)%nat).
  { apply Nat.nlt_ge. intros Hlt.
    apply (sorted_count_side Right d a0 a0_sorted j ltac:(lia)) in Hlt.
    simpl in Hlt. apply Qle_bool_iff in Hlt. lra. }
  assert (Hrlen : (r < length a0)%nat) by lia.
  destruct (ceiling_is_first a0 a0_sorted d Hrlen) as [Hc _]. fold r in Hc.
  assert (Hcj : nth r a0 0 <= nth j a0 0) by (apply sortedb_nth; auto; lia).
  unfold group_delta. fold l r.
  destruct (Nat.ltb_spec r (length a0)); [|lia].
  set (g := nth r a0 0 - d) in *.
  assert (Hg : 0 < g) by (unfold g; lra).
  assert (Hmin : Qmin (g / inject_Z (Z.of_nat (r - l))) max_delta
                 <= g / inject_Z (Z.of_nat (r - l))) by apply Q.le_min_l.
  assert (Hp : 0 < pow2 (i - l - 1)) by apply pow2_pos.
  assert (Hstep : pow2 (i - l - 1) * (g / inject_Z (Z.of_nat (r - l))) < g).
  { apply steps_below_gap; auto; [lra|].
    assert (Hcases : ((i - l - 1 = 0 /\ 2 <= r - l) \/ (i - l - 1 = 1 /\ r - l = 3))%nat)
      by lia.
    destruct Hcases as [[-> Hn]|[-> ->]].
    - unfold pow2. simpl. rewrite <- Zlt_Qlt. lia.
    - reflexivity. }
  assert (Hmul : pow2 (i - l - 1) * Qmin (g / inject_Z (Z.of_nat (r - l))) max_delta
                 <= pow2 (i - l - 1) * (g / inject_Z (Z.of_nat (r - l)))).
  { apply Qmult_le_l; auto. }
  unfold g in *. lra.
Qed.

Hypothesis a0_fits : fitsb max_delta a0 = true.

(** When the index fits, the adjusted labels are strictly increasing. *)
Lemma adjusted_increasing : increasingb (adjusted max_delta a0) = true.
Proof.
  apply increasingb_nth. rewrite adjusted_length. intros i Hi.
  rewrite !adjusted_expected by (auto; lia).
  pose proof (sortedb_nth a0 a0_sorted i (S i) ltac:(lia)) as Hle.
  destruct (Qlt_le_dec (nth i a0 0) (nth (S i) a0 0)) as [Hlt|Hge].
  - apply Qlt_le_trans with (nth (S i) a0 0).
    + apply fits_spec; auto; lia.
    + apply expected_ge; auto.
  - assert (Heq : nth (S i) a0 0 == nth i a0 0) by (apply Qle_antisym; auto).
    pose proof (own_group a0 a0_sorted i ltac:(lia)) as [Hl _].
    assert (Hd : 0 < group_delta max_delta a0 (nth i a0 0)).
    { apply group_delta_pos; auto. exists i. split; [lia | reflexivity]. }
    pose proof (group_delta_compat max_delta a0 _ _ Heq) as Hgd.
    unfold expected.
    rewrite (count_side_compat Left a0 _ _ Heq).
    set (l := count_side Left a0 (nth i a0 0)) in *.
    set (gd := group_delta max_delta a0 (nth i a0 0)) in *.
    destruct (Nat.leb_spec (S i) l); [lia|].
    rewrite Hgd, Heq.
    destruct (Nat.leb_spec i l).
    + pose proof (pow2_pos (S i - l - 1)).
      assert (0 < pow2 (S i - l - 1) * gd) by (apply Qmult_lt_0_compat; auto).
      lra.
    + replace (S i - l - 1)%nat with (S (i - l - 1)) by lia.
      rewrite pow2_S.
      pose proof (pow2_pos (i - l - 1)).
      assert (0 < pow2 (i - l - 1) * gd) by (apply Qmult_lt_0_compat; auto).
      lra.
Qed.

End Fitting.

(** Two buffers with the same labels are both strictly increasing or
    both not. *)
Lemma increasingb_pointwise (a : list Q) :
  forall b,
    length a = length b ->
    (forall i, (i < length a)%nat -> nth i a 0 == nth i b 0) ->
    increasingb a = increasingb b.
Proof.
  induction a as [|x a IH]; intros [|y b] Hlen H; simpl in Hlen; try discriminate;
    [reflexivity|].
  assert (Hxy : x == y) by (apply (H 0%nat); simpl; lia).
  assert (Hrest : forall i, (i < length a)%nat -> nth i a 0 == nth i b 0).
  { intros i Hi. apply (H (S i)). simpl. lia. }
  specialize (IH b ltac:(lia) Hrest).
  destruct a as [|x' a], b as [|y' b]; simpl in Hlen; try discriminate;
    [reflexivity|].
  change (increasingb (x :: x' :: a))
    with (Qlt_bool x x' && increasingb (x' :: a)).
  change (increasingb (y :: y' :: b))
    with (Qlt_bool y y' && increasingb (y' :: b)).
  rewrite IH. f_equal. apply Qlt_bool_compat; auto.
  apply (Hrest 0%nat). simpl. lia.
Qed.

Lemma adjusted_r_increasing (rnd : Q -> Q) (max_delta : Q) (a0 : list Q) :
  (forall x, float64b x = true -> rnd x == x) ->
  sortedb a0 = true ->
  0 < max_delta ->
  fitsb max_delta a0 = true ->
  exact64b max_delta a0 = true ->
  increasingb (adjusted_r rnd max_delta a0) = true.
Proof.
  intros Hrnd Hs Hpos Hfit Hex.
  rewrite (increasingb_pointwise _ (adjusted max_delta a0)).
  - now apply adjusted_increasing.
  - now rewrite adjusted_r_length, adjusted_length.
  - intros i Hi. rewrite adjusted_r_length in Hi.
    rewrite adjusted_r_expected, adjusted_expected by auto. reflexivity.
Qed.

Lemma pairs_are_small (a : list Q) : pairsb a = true -> small_groupsb a = true.
Proof.
  unfold pairsb, small_groupsb. rewrite !forallb_forall.
  intros H x Hx. specialize (H x Hx). apply Nat.leb_le in H. apply Nat.leb_le. lia.
Qed.

Lemma group_delta_le_max (max_delta : Q) (a : list Q) (d : Q) :
  group_delta max_delta a d <= max_delta.
Proof.
  unfold group_delta. destruct (_ <? _)%nat; [apply Q.le_min_r | apply Qle_refl].
Qed.

Section ResolverGuarantees.

Variable V : Type.
Variable nan : V.

(** Any rounding that returns a float64 unchanged, as rounding to the
    nearest float64 does. *)
Variable rnd : Q -> Q.
Hypothesis rnd_exact : forall x, float64b x = true -> rnd x == x.




(** X4. A series without duplicate timestamps is returned with the same
    timestamps and values, and the store is left as it was. *)
Theorem duplicate_free_series_unchanged (h : heap) (data : Series V) (max_delta : Q) :
  well_formed h data ->
  increasingb (timestamps h data) = true ->
  handle_duplicate_index nan data max_delta h
  = Ok (mkSeries (index data) (values data)) h.
Proof.
  intros Hwf Hinc. destruct (well_formed_buffer _ _ _ Hwf) as (a & Ha & Hlen).
  rewrite (timestamps_well_formed V h data a Ha Hlen) in Hinc.
  rewrite (handle_duplicate_index_run V nan h data max_delta a Ha).
  unfold adjusted. rewrite (duplicate_free_no_duplicates a Hinc). simpl.
  now rewrite (upd_nth_error h (index data) a Ha).
Qed.

End ResolverGuarantees.




Lemma duplicate_free_series_unchanged_witness :
  well_formed [[0; 1; 2; 6; 7]] (mkSeries 0%nat [0; 1; 2; 3; 4]%Z)
  /\ increasingb (timestamps [[0; 1; 2; 6; 7]]
                             (mkSeries 0%nat [0; 1; 2; 3; 4]%Z)) = true
  /\ handle_duplicate_index 0%Z (mkSeries 0%nat [0; 1; 2; 3; 4]%Z) (1 # 1000)
                            [[0; 1; 2; 6; 7]]
     = Ok (mkSeries 0%nat [0; 1; 2; 3; 4]%Z) [[0; 1; 2; 6; 7]].
Proof.
  split; [reflexivity|]. split; [reflexivity|].
  apply (duplicate_free_series_unchanged Z 0%Z [[0; 1; 2; 6; 7]]
           (mkSeries 0%nat [0; 1; 2; 3; 4]%Z) (1 # 1000));
    reflexivity.
Defined.

(** * Further properties of squash_into_window *)

Section SquashGuarantees.

Variable V : Type.
Implicit Types (rs : list (Q * V)) (r : Q * V).

Lemma filter_last_split (f : Q * V -> bool) rs :
  forall pre' x,
    filter f rs = pre' ++ [x] ->
    exists pre post,
      rs = pre ++ x :: post /\ (forall r, In r post -> f r = false) /\ f x = true.
Proof.
  induction rs as [|r rs IH] using rev_ind; intros pre' x H.
  - destruct pre'; discriminate.
  - rewrite filter_app in H. simpl in H. destruct (f r) eqn:E.
    + apply app_inj_tail in H. destruct H as [_ <-].
      exists rs, []. split; [reflexivity|]. split; [intros ? []|exact E].
    + rewrite app_nil_r in H. destruct (IH pre' x H) as (pre & post & -> & Hp & Hx).
      exists pre, (post ++ [r]). split; [now rewrite <- app_assoc|].
      split; auto. intros r' Hr'. apply in_app_or in Hr'.
      destruct Hr' as [Hr'|[<-|[]]]; auto.
Qed.

(** X5. Held value at the start: when some input entry lies strictly before
    [start], the returned frame begins with an entry at [start] that
    carries the value of the last such input entry; every input entry
    after that one is at or after [start].  Neither sortedness nor
    [start <= end] is needed. *)
Theorem start_value_is_last_before_start
        (h : heap) (df : Series V) (start_time end_time : Q) :
  well_formed h df ->
  (exists r, In r (rows h df) /\ fst r < start_time) ->
  exists out h',
    squash_into_window df (start_time, end_time) h = Ok out h'
    /\ exists pre t0 v post rest,
        rows h df = pre ++ (t0, v) :: post
        /\ t0 < start_time
        /\ (forall r, In r post -> start_time <= fst r)
        /\ rows h' out = (start_time, v) :: rest.
Proof.
  intros Hwf (rb & Hrb & Hlt).
  destruct (squash_into_window_run V h df _ start_time end_time
              (well_formed_repr _ _ _ Hwf)) as (out & h' & E & _ & R).
  exists out, h'. split; [exact E|].
  rewrite (repr_rows _ _ _ _ R). set (rs := rows h df) in *. clearbody rs.
  destruct (filter_last V rs (before start_time) rb Hrb) as (pre' & x & HB & Hl & _).
  { now apply Qlt_bool_iff. }
  destruct (filter_last_split (before start_time) rs pre' x HB)
    as (pre & post & Hrs & Hpost & Hx).
  destruct x as [t0 v]. exists pre, t0, v, post.
  rewrite squash_rows_eq, Hl. simpl relabel. eexists.
  split; [exact Hrs|]. split; [now apply Qlt_bool_iff in Hx|].
  split; [|simpl; reflexivity].
  intros r Hr. apply Qlt_bool_false_iff. now apply Hpost.
Qed.

End SquashGuarantees.

Lemma start_value_is_last_before_start_witness :
  well_formed [[0; 1; 2; 3; 4]] (mkSeries 0%nat [5; 6; 7; 8; 9]%Z)
  /\ (exists r, In r (rows [[0; 1; 2; 3; 4]] (mkSeries 0%nat [5; 6; 7; 8; 9]%Z))
                /\ fst r < 21 # 10)
  /\ exists out h',
       squash_into_window (mkSeries 0%nat [5; 6; 7; 8; 9]%Z) (21 # 10, 29 # 10)
                          [[0; 1; 2; 3; 4]] = Ok out h'
       /\ exists pre t0 v post rest,
           rows [[0; 1; 2; 3; 4]] (mkSeries 0%nat [5; 6; 7; 8; 9]%Z)
           = pre ++ (t0, v) :: post
           /\ t0 < 21 # 10
           /\ (forall r, In r post -> 21 # 10 <= fst r)
           /\ rows h' out = (21 # 10, v) :: rest.
Proof.
  assert (Hb : exists r, In r (rows [[0; 1; 2; 3; 4]] (mkSeries 0%nat [5; 6; 7; 8; 9]%Z))
                         /\ fst r < 21 # 10).
  { exists (0, 5%Z). split; [left; reflexivity | reflexivity]. }
  split; [reflexivity|]. split; [exact Hb|].
  apply (start_value_is_last_before_start Z [[0; 1; 2; 3; 4]]
           (mkSeries 0%nat [5; 6; 7; 8; 9]%Z) (21 # 10) (29 # 10));
    [reflexivity | exact Hb].
Defined.

(** * The tests of the repository, evaluated on the model *)

(** X6. test_handle_duplicate_index and
    test_handle_duplicate_index_duplicate_end: the values are kept and
    the duplicate is moved by max_delta. *)
Theorem handle_duplicate_index_tests :
  (exists out h',
      handle_duplicate_index 0%Z (mkSeries 0%nat [0; 1; 2; 3; 4]%Z) (1 # 1000)
                             [[0; 1; 1; 6; 7]] = Ok out h'
      /\ values out = [0; 1; 2; 3; 4]%Z
      /\ index_equals (timestamps h' out) [0; 1; 1 + (1 # 1000); 6; 7] = true)
  /\ (exists out h',
         handle_duplicate_index 0%Z (mkSeries 0%nat [0; 1; 2; 3; 4]%Z) (1 # 1000)
                                [[0; 1; 2; 6; 6]] = Ok out h'
         /\ values out = [0; 1; 2; 3; 4]%Z
         /\ index_equals (timestamps h' out) [0; 1; 2; 6; 6 + (1 # 1000)] = true).
Proof.
  split; do 2 eexists; (split; [vm_compute; reflexivity|]);
    split; vm_compute; reflexivity.
Qed.

(** X7. The five test_squash_into_window_* cases: one event in the window,
    several, none after, none before, none inside. *)
Theorem squash_into_window_tests :
  (exists out h',
      squash_into_window (mkSeries 0%nat [5; 6; 7; 8; 9]%Z) (21 # 10, 29 # 10)
                         [[0; 1; 2; 3; 4]] = Ok out h'
      /\ rows h' out = [(21 # 10, 7%Z); (29 # 10, 7%Z)])
  /\ (exists out h',
         squash_into_window (mkSeries 0%nat [5; 6; 7; 8; 9]%Z) (1 # 2, 29 # 10)
                            [[0; 1; 2; 3; 4]] = Ok out h'
         /\ rows h' out = [(1 # 2, 5%Z); (1, 6%Z); (2, 7%Z); (29 # 10, 7%Z)])
  /\ (exists out h',
         squash_into_window (mkSeries 0%nat [5; 6]%Z) (1 # 2, 29 # 10)
                            [[0; 1]] = Ok out h'
         /\ rows h' out = [(1 # 2, 5%Z); (1, 6%Z); (29 # 10, 6%Z)])
  /\ (exists out h',
         squash_into_window (mkSeries 0%nat [6; 7]%Z) (1 # 2, 29 # 10)
                            [[1; 2]] = Ok out h'
         /\ rows h' out = [(1, 6%Z); (2, 7%Z); (29 # 10, 7%Z)])
  /\ (exists out h',
         squash_into_window (mkSeries 0%nat [5; 6]%Z) (1 # 10, 9 # 10)
                            [[0; 1]] = Ok out h'
         /\ rows h' out = [(1 # 10, 5%Z); (9 # 10, 5%Z)]).
Proof.
  repeat split; do 2 eexists; (split; [vm_compute; reflexivity|]);
    vm_compute; reflexivity.
Qed.

(** * squash_into_window: the shape of the result and how calls compose *)

Lemma sortedb_cons (x : Q) (l : list Q) :
  (forall y, In y l -> x <= y) -> sortedb l = true -> sortedb (x :: l) = true.
Proof.
  intros Hx Hl. destruct l as [|y l]; [reflexivity|].
  change (Qle_bool x y && sortedb (y :: l) = true).
  apply andb_true_iff. split; auto.
  apply Qle_bool_iff. apply Hx. left; auto.
Qed.

Lemma sortedb_app (l1 l2 : list Q) :
  sortedb l1 = true -> sortedb l2 = true ->
  (forall x y, In x l1 -> In y l2 -> x <= y) ->
  sortedb (l1 ++ l2) = true.
Proof.
  induction l1 as [|x l1 IH]; intros H1 H2 H12; [exact H2|].
  rewrite <- app_comm_cons. apply sortedb_cons.
  - intros y Hy. apply in_app_or in Hy. destruct Hy as [Hy|Hy].
    + eapply sortedb_head_le; eauto.
    + apply H12; auto. left; auto.
  - apply IH; auto.
    + eapply sortedb_tail; eauto.
    + intros a b Ha Hb. apply H12; auto. right; auto.
Qed.

Lemma sortedb_short (l : list Q) : (length l <= 1)%nat -> sortedb l = true.
Proof.
  destruct l as [|x [|y l]]; simpl; intros; auto; lia.
Qed.

Section SquashShape.

Variable V : Type.
Implicit Types (rs : list (Q * V)) (r : Q * V).

Lemma sortedb_filter (f : Q * V -> bool) rs :
  sortedb (map fst rs) = true -> sortedb (map fst (filter f rs)) = true.
Proof.
  induction rs as [|r rs IH]; intros Hs; [reflexivity|].
  simpl map in Hs. pose proof (sortedb_tail _ _ Hs) as Hs'.
  simpl. destruct (f r); auto.
  simpl map. apply sortedb_cons; auto.
  intros y Hy. eapply sortedb_head_le; eauto.
  apply in_map_iff in Hy. destruct Hy as (r' & <- & Hr').
  apply filter_In in Hr'. apply in_map. tauto.
Qed.

Lemma relabel_relabel (s t : Q) rs : relabel t (relabel s rs) = relabel t rs.
Proof. unfold relabel. rewrite map_map. reflexivity. Qed.

Lemma last_row_relabel (t : Q) rs : last_row (relabel t rs) = relabel t (last_row rs).
Proof.
  destruct (last_row_cases rs) as [[-> ->]|(pre & x & -> & ->)]; [reflexivity|].
  unfold relabel. rewrite map_app. simpl. apply last_row_snoc.
Qed.

Lemma head_length (s : Q) rs :
  (length (relabel s (last_row (filter (before s) rs))) <= 1)%nat.
Proof.
  rewrite relabel_length, last_row_length. destruct (_ =? _)%nat; lia.
Qed.

Lemma within_iff (s e : Q) r :
  within s e r = true <-> s <= fst r /\ fst r < e.
Proof.
  unfold within. rewrite andb_true_iff, Qle_bool_iff, Qlt_bool_iff. tauto.
Qed.

Lemma before_iff (c : Q) r : before c r = true <-> fst r < c.
Proof. apply Qlt_bool_iff. Qed.

Lemma upto_iff (c : Q) r : upto c r = true <-> fst r <= c.
Proof. apply Qle_bool_iff. Qed.

(** The three parts of the result: the relabelled first event, the rows
    of the window, the relabelled last event. *)
Lemma squash_rows_parts rs (s e : Q) :
  s <= e ->
  squash_rows rs s e
  = (relabel s (last_row (filter (before s) rs)) ++ filter (within s e) rs)
      ++ relabel e (last_row (relabel s (last_row (filter (before s) rs))
                              ++ filter (within s e) rs)).
Proof.
  intros Hse. rewrite squash_rows_eq, partial_upto by assumption. reflexivity.
Qed.

Lemma squash_rows_in_window rs (s e : Q) r :
  s <= e -> In r (squash_rows rs s e) -> s <= fst r /\ fst r <= e.
Proof.
  intros Hse Hin. rewrite squash_rows_parts in Hin by assumption.
  apply in_app_or in Hin. destruct Hin as [Hin|Hin].
  - apply in_app_or in Hin. destruct Hin as [Hin|Hin].
    + apply relabel_in in Hin. destruct Hin as [-> _]. split; [apply Qle_refl | auto].
    + apply filter_In in Hin. destruct Hin as [_ Hin]. apply within_iff in Hin.
      split; [tauto | apply Qlt_le_weak; tauto].
  - apply relabel_in in Hin. destruct Hin as [-> _]. split; [auto | apply Qle_refl].
Qed.

Lemma squash_rows_sorted rs (s e : Q) :
  sortedb (map fst rs) = true -> s <= e ->
  sortedb (map fst (squash_rows rs s e)) = true.
Proof.
  intros Hs Hse. rewrite squash_rows_parts by assumption.
  set (H := relabel s (last_row (filter (before s) rs))).
  set (W := filter (within s e) rs).
  assert (HH : forall x, In x (map fst H) -> x = s).
  { intros x Hx. apply in_map_iff in Hx. destruct Hx as (r & <- & Hr).
    apply relabel_in in Hr. tauto. }
  assert (HW : forall x, In x (map fst W) -> s <= x /\ x < e).
  { intros x Hx. apply in_map_iff in Hx. destruct Hx as (r & <- & Hr).
    apply filter_In in Hr. destruct Hr as [_ Hr]. now apply within_iff in Hr. }
  rewrite !map_app. apply sortedb_app.
  - apply sortedb_app.
    + apply sortedb_short. rewrite length_map. apply head_length.
    + now apply sortedb_filter.
    + intros x y Hx Hy. rewrite (HH x Hx). now apply HW.
  - apply sortedb_short. rewrite length_map, relabel_length, last_row_length.
    destruct (_ =? _)%nat; lia.
  - intros x y Hx Hy.
    assert (y = e).
    { apply in_map_iff in Hy. destruct Hy as (r & <- & Hr).
      apply relabel_in in Hr. tauto. }
    subst y. apply in_app_or in Hx. destruct Hx as [Hx|Hx].
    + now rewrite (HH x Hx).
    + apply Qlt_le_weak. now apply HW.
Qed.

Lemma squash_rows_empty_iff rs (s e : Q) :
  s <= e ->
  (squash_rows rs s e = [] <-> forall r, In r rs -> e <= fst r).
Proof.
  intros Hse. rewrite squash_rows_parts by assumption. split.
  - intros Hnil r Hr.
    apply app_eq_nil in Hnil. destruct Hnil as [Hnil _].
    apply app_eq_nil in Hnil. destruct Hnil as [HH HW].
    destruct (Qlt_le_dec (fst r) e) as [Hlt|]; auto. exfalso.
    destruct (Qlt_le_dec (fst r) s) as [Hb|Hb].
    + destruct (filter_last V rs (before s) r Hr) as (pre & x & _ & Hl & _).
      { now apply before_iff. }
      rewrite Hl in HH. discriminate.
    + assert (Hw : In r (filter (within s e) rs)).
      { apply filter_In. split; auto. apply within_iff. auto. }
      rewrite HW in Hw. contradiction.
  - intros Hall.
    rewrite (filter_none V (before s)), (filter_none V (within s e)).
    + reflexivity.
    + intros r Hr. specialize (Hall r Hr). unfold within.
      rewrite (proj2 (Qlt_bool_false_iff _ _) Hall). apply andb_false_r.
    + intros r Hr. specialize (Hall r Hr). apply Qlt_bool_false_iff.
      eapply Qle_trans; eauto.
Qed.

Lemma squash_rows_reversed_window rs (s e : Q) :
  e < s ->
  squash_rows rs s e = relabel s (last_row (filter (before s) rs)).
Proof.
  intros Hes. rewrite squash_rows_eq.
  rewrite (filter_none V (within s e)).
  - rewrite app_nil_r. rewrite (filter_none V (upto e)); [now rewrite app_nil_r|].
    intros r Hr. apply relabel_in in Hr. destruct Hr as [Hr _].
    unfold upto. rewrite Hr. now apply Qle_bool_false_iff.
  - intros r _. unfold within.
    destruct (Qle_bool s (fst r)) eqn:E1; auto. simpl.
    apply Qle_bool_iff in E1. apply Qlt_bool_false_iff.
    apply Qlt_le_weak. eapply Qlt_le_trans; eauto.
Qed.

Lemma squash_rows_values rs (s e : Q) r :
  In r (squash_rows rs s e) -> exists r', In r' rs /\ snd r' = snd r.
Proof.
  rewrite squash_rows_eq. intros Hin.
  assert (Hpart : forall x,
             In x (relabel s (last_row (filter (before s) rs))
                   ++ filter (within s e) rs) ->
             exists r', In r' rs /\ snd r' = snd x).
  { intros x Hx. apply in_app_or in Hx. destruct Hx as [Hx|Hx].
    - apply relabel_in in Hx. destruct Hx as (_ & r' & Hr' & Hv).
      exists r'. split; auto. apply last_row_in in Hr'.
      apply filter_In in Hr'. tauto.
    - exists x. split; auto. apply filter_In in Hx. tauto. }
  apply in_app_or in Hin. destruct Hin as [Hin|Hin]; [now apply Hpart|].
  apply relabel_in in Hin. destruct Hin as (_ & x & Hx & Hv).
  apply last_row_in in Hx. apply filter_In in Hx. destruct Hx as [Hx _].
  destruct (Hpart x Hx) as (r' & Hr' & Hv'). exists r'. split; auto. congruence.
Qed.

End SquashShape.

Section SquashCompose.

Variable V : Type.
Implicit Types (rs : list (Q * V)) (r : Q * V).

Lemma filter_twice (f g : Q * V -> bool) rs :
  filter f (filter g rs) = filter (fun r => g r && f r) rs.
Proof.
  induction rs as [|r rs IH]; [reflexivity|].
  simpl. destruct (g r); simpl; [destruct (f r)|]; now rewrite IH.
Qed.

Lemma filter_relabel_all (f : Q * V -> bool) (t : Q) rs :
  (forall r, fst r = t -> f r = true) -> filter f (relabel t rs) = relabel t rs.
Proof.
  intros H. apply filter_all. intros r Hr. apply H.
  apply relabel_in in Hr. tauto.
Qed.

Lemma filter_relabel_none (f : Q * V -> bool) (t : Q) rs :
  (forall r, fst r = t -> f r = false) -> filter f (relabel t rs) = [].
Proof.
  intros H. apply filter_none. intros r Hr. apply H.
  apply relabel_in in Hr. tauto.
Qed.

(** The last event depends on the partial frame only. *)
Lemma squash_rows_of_partial rs rs' (s s' e : Q) :
  relabel s (last_row (filter (before s) rs)) ++ filter (within s e) rs
  = relabel s' (last_row (filter (before s') rs')) ++ filter (within s' e) rs' ->
  squash_rows rs s e = squash_rows rs' s' e.
Proof.
  intros H. rewrite !squash_rows_eq, H. reflexivity.
Qed.

Lemma last_value_of_partial (s t : Q) (B W : list (Q * V)) :
  relabel t (last_row (relabel s (last_row B) ++ W))
  = relabel t (last_row (B ++ W)).
Proof.
  destruct W as [|w W].
  - rewrite !app_nil_r, last_row_relabel, relabel_relabel.
    rewrite (last_row_short (last_row B)); auto.
    rewrite last_row_length. destruct (_ =? _)%nat; lia.
  - rewrite !last_row_app_nonempty by discriminate. reflexivity.
Qed.

(** Narrowing the end of a window that was already applied. *)
Lemma squash_rows_same_start rs (s e1 e2 : Q) :
  s < e2 -> e2 <= e1 ->
  squash_rows (squash_rows rs s e1) s e2 = squash_rows rs s e2.
Proof.
  intros Hs He.
  assert (Hse1 : s <= e1) by (apply Qlt_le_weak; eapply Qlt_le_trans; eauto).
  apply squash_rows_of_partial.
  rewrite (squash_rows_parts V rs s e1 Hse1).
  rewrite !filter_app.
  (* nothing of the first result lies before s *)
  rewrite (filter_relabel_none (before s) s)
    by (intros r Hr; unfold before; rewrite Hr; apply Qlt_bool_false_iff, Qle_refl).
  rewrite (filter_none V (before s) (filter (within s e1) rs)).
  2:{ intros r Hr. apply filter_In in Hr. destruct Hr as [_ Hr].
      apply within_iff in Hr. apply Qlt_bool_false_iff. tauto. }
  rewrite (filter_relabel_none (before s) e1)
    by (intros r Hr; unfold before; rewrite Hr; now apply Qlt_bool_false_iff).
  (* its first event and its window rows before e2 lie in the new window *)
  rewrite (filter_relabel_all (within s e2) s).
  2:{ intros r Hr. apply within_iff. rewrite Hr. split; [apply Qle_refl | auto]. }
  rewrite filter_twice.
  rewrite (filter_ext_in (fun r => within s e1 r && within s e2 r) (within s e2)).
  2:{ intros r _. destruct (within s e2 r) eqn:E; [|apply andb_false_r].
      apply within_iff in E. rewrite andb_true_r. apply within_iff.
      split; [tauto|]. eapply Qlt_le_trans; [apply E | auto]. }
  rewrite (filter_relabel_none (within s e2) e1).
  2:{ intros r Hr. unfold within. rewrite Hr.
      rewrite (proj2 (Qlt_bool_false_iff e1 e2) He). apply andb_false_r. }
  simpl. now rewrite app_nil_r.
Qed.

(** Cropping to a window and then to a later-starting window inside it
    is cropping to the inner window. *)
Lemma squash_rows_nested rs (s1 e1 s2 e2 : Q) :
  sortedb (map fst rs) = true ->
  s1 < s2 -> s2 <= e2 -> e2 <= e1 ->
  squash_rows (squash_rows rs s1 e1) s2 e2 = squash_rows rs s2 e2.
Proof.
  intros Hsorted Hs Hse He.
  assert (Hs2e1 : s2 <= e1) by (eapply Qle_trans; eauto).
  assert (Hse1 : s1 <= e1) by (apply Qlt_le_weak; eapply Qlt_le_trans; eauto).
  apply squash_rows_of_partial.
  rewrite (squash_rows_parts V rs s1 e1 Hse1).
  rewrite !filter_app.
  (* before s2: the first event and the window rows before s2 *)
  rewrite (filter_relabel_all (before s2) s1)
    by (intros r Hr; unfold before; rewrite Hr; now apply Qlt_bool_iff).
  rewrite filter_twice.
  rewrite (filter_ext_in (fun r => within s1 e1 r && before s2 r) (within s1 s2)).
  2:{ intros r _. unfold within, before.
      destruct (Qle_bool s1 (fst r)); simpl; auto.
      destruct (Qlt_bool (fst r) s2) eqn:E; [|apply andb_false_r].
      rewrite andb_true_r. apply Qlt_bool_iff in E. apply Qlt_bool_iff.
      eapply Qlt_le_trans; eauto. }
  rewrite (filter_relabel_none (before s2) e1)
    by (intros r Hr; unfold before; rewrite Hr; now apply Qlt_bool_false_iff).
  rewrite app_nil_r.
  rewrite last_value_of_partial.
  rewrite <- (before_split V rs s1 s2 Hsorted (Qlt_le_weak _ _ Hs)).
  (* within [s2, e2): only window rows *)
  rewrite (filter_relabel_none (within s2 e2) s1).
  2:{ intros r Hr. unfold within. rewrite Hr.
      now rewrite (proj2 (Qle_bool_false_iff s2 s1) Hs). }
  rewrite filter_twice.
  rewrite (filter_ext_in (fun r => within s1 e1 r && within s2 e2 r) (within s2 e2)).
  2:{ intros r _. destruct (within s2 e2 r) eqn:E; [|apply andb_false_r].
      apply within_iff in E. rewrite andb_true_r. apply within_iff. split.
      - apply Qle_trans with s2; [now apply Qlt_le_weak | tauto].
      - eapply Qlt_le_trans; [apply E | auto]. }
  rewrite (filter_relabel_none (within s2 e2) e1).
  2:{ intros r Hr. unfold within. rewrite Hr.
      rewrite (proj2 (Qlt_bool_false_iff e1 e2) He). apply andb_false_r. }
  simpl. now rewrite app_nil_r.
Qed.

End SquashCompose.

(** * handle_duplicate_index: edge behaviour and repeated calls *)

Lemma pow2_le (j k : nat) : (j <= k)%nat -> pow2 j <= pow2 k.
Proof.
  induction 1 as [|k _ IH]; [apply Qle_refl|].
  rewrite pow2_S. pose proof (pow2_pos k). lra.
Qed.

Lemma dbl_zero (k : nat) : dbl k 0 == 0.
Proof. rewrite dbl_pow2. lra. Qed.

(** With [max_delta = 0] the first increment of every round is 0. *)
Lemma first_delta_zero (a0 b : list Q) (y : Q) :
  sortedb a0 = true ->
  length b = length a0 ->
  (forall i, (i < length a0)%nat -> nth i b 0 == nth i a0 0) ->
  search Left b y = count_side Left a0 y
  /\ search Right b y = count_side Right a0 y
  /\ ((count_side Left a0 y + 2 <= count_side Right a0 y)%nat ->
      first_delta 0 b y = 0).
Proof.
  intros Hs Hlen Hb.
  assert (Hsearch : forall s, search s b y = count_side s a0 y).
  { intros s. apply search_like_sorted; auto.
    intros i Hi. apply side_cmp_compat; [auto | reflexivity]. }
  split; [apply Hsearch|]. split; [apply Hsearch|].
  intros Hn. unfold first_delta. rewrite !Hsearch, Hlen.
  set (l := count_side Left a0 y) in *. set (r := count_side Right a0 y) in *.
  destruct (Nat.ltb_spec r (length a0)) as [Hr|Hr]; [|reflexivity].
  destruct (ceiling_is_first a0 Hs y Hr) as [Hc _]. fold r in Hc.
  assert (Hpos : 0 < (nth r b 0 - y) / inject_Z (Z.of_nat r - 1 - Z.of_nat l + 1)).
  { apply Qlt_shift_div_l.
    - change 0 with (inject_Z 0). rewrite <- Zlt_Qlt. lia.
    - rewrite (Hb r Hr). lra. }
  apply Qlt_bool_iff in Hpos. rewrite Hpos. reflexivity.
Qed.

Lemma process_zero (a0 b : list Q) (y : Q) :
  sortedb a0 = true ->
  length b = length a0 ->
  (forall i, (i < length a0)%nat -> nth i b 0 == nth i a0 0) ->
  forall i, (i < length a0)%nat -> nth i (process 0 b y) 0 == nth i a0 0.
Proof.
  intros Hs Hlen Hb i Hi.
  destruct (first_delta_zero a0 b y Hs Hlen Hb) as (HL & HR & Hd).
  pose proof (count_side_le_length Right a0 y) as Hrlen.
  unfold process. rewrite HL, HR.
  set (l := count_side Left a0 y) in *. set (r := count_side Right a0 y) in *.
  destruct (Nat.le_gt_cases (l + 2) r) as [Hn|Hn].
  - rewrite (Hd Hn), bump_nth by (rewrite Hlen; lia).
    destruct (_ && _); [|auto]. rewrite dbl_zero, Hb by auto. lra.
  - replace (r - 1 - l)%nat with 0%nat by lia. simpl. auto.
Qed.

Lemma adjusted_zero (a0 : list Q) :
  sortedb a0 = true ->
  forall i, (i < length a0)%nat -> nth i (adjusted 0 a0) 0 == nth i a0 0.
Proof.
  intros Hs. unfold adjusted.
  assert (H : forall dups b,
             length b = length a0 ->
             (forall i, (i < length a0)%nat -> nth i b 0 == nth i a0 0) ->
             forall i, (i < length a0)%nat ->
                       nth i (fold_left (process 0) dups b) 0 == nth i a0 0).
  { induction dups as [|y dups IH]; intros b Hlen Hb; simpl; auto.
    apply IH; [now rewrite process_length | now apply process_zero]. }
  apply H; auto. intros; reflexivity.
Qed.

Lemma index_equals_nth (a b : list Q) :
  length a = length b ->
  (forall i, (i < length b)%nat -> nth i a 0 == nth i b 0) ->
  index_equals a b = true.
Proof.
  revert b. induction a as [|x a IH]; intros [|y b] Hlen H; simpl in *;
    try discriminate; auto.
  apply andb_true_iff. split.
  - apply Qeq_bool_iff. apply (H 0%nat). lia.
  - apply IH; [lia|]. intros i Hi. apply (H (S i)). lia.
Qed.

Section ResolverEdges.

Variable V : Type.
Variable nan : V.

(** Any rounding that returns a float64 unchanged, as rounding to the
    nearest float64 does. *)
Variable rnd : Q -> Q.
Hypothesis rnd_exact : forall x, float64b x = true -> rnd x == x.

Lemma well_formed_after (h : heap) (data : Series V) (a' : list Q) :
  well_formed h data ->
  length a' = length (timestamps h data) ->
  well_formed (upd h (index data) a') (mkSeries (index data) (values data)).
Proof.
  intros Hwf Hlen. destruct (well_formed_buffer _ _ _ Hwf) as (a & Ha & Hl).
  rewrite (timestamps_well_formed V h data a Ha Hl) in Hlen.
  unfold well_formed. simpl. rewrite nth_error_upd_same.
  - congruence.
  - apply nth_error_Some. congruence.
Qed.

Lemma increasing_buffer_run_r (h : heap) (data : Series V) (max_delta : Q)
      (a : list Q) :
  nth_error h (index data) = Some a ->
  increasingb a = true ->
  handle_duplicate_index_r rnd nan data max_delta h
  = Ok (mkSeries (index data) (values data)) h.
Proof.
  intros Ha Hinc.
  rewrite (handle_duplicate_index_r_run rnd V nan h data max_delta a Ha).
  unfold adjusted_r. rewrite (duplicate_free_no_duplicates a Hinc). simpl.
  now rewrite (upd_nth_error h (index data) a Ha).
Qed.


(** X9. max_delta = 0: on a sorted series every timestamp is left as it is,
    so every duplicate stays a duplicate. *)
Theorem zero_max_delta_keeps_timestamps (h : heap) (data : Series V) :
  well_formed h data ->
  sortedb (timestamps h data) = true ->
  exists out h',
    handle_duplicate_index nan data 0 h = Ok out h'
    /\ index_equals (timestamps h' out) (timestamps h data) = true.
Proof.
  intros Hwf Hs.
  destruct (handle_duplicate_index_timestamps V nan h data 0 Hwf)
    as (out & h' & E & Hts).
  exists out, h'. split; [exact E|]. rewrite Hts.
  apply index_equals_nth; [apply adjusted_length|].
  intros i Hi. now apply adjusted_zero.
Qed.



End ResolverEdges.

Section SquashEdges.

Variable V : Type.
Implicit Types (rs : list (Q * V)) (r : Q * V).

(** X12. The shape of the result: with [start <= end], every returned entry
    has its timestamp in [[start, end]]; when the input is sorted, so is
    the result. *)
Theorem result_is_inside_the_window
        (h : heap) (df : Series V) (start_time end_time : Q) :
  well_formed h df ->
  start_time <= end_time ->
  exists out h',
    squash_into_window df (start_time, end_time) h = Ok out h'
    /\ (forall r, In r (rows h' out) -> start_time <= fst r /\ fst r <= end_time)
    /\ (sortedb (timestamps h df) = true -> sortedb (timestamps h' out) = true).
Proof.
  intros Hwf Hse.
  destruct (squash_into_window_run V h df _ start_time end_time
              (well_formed_repr _ _ _ Hwf)) as (out & h' & E & _ & R).
  exists out, h'. split; [exact E|]. unfold timestamps.
  rewrite (repr_rows _ _ _ _ R). split.
  - intros r. now apply squash_rows_in_window.
  - intros Hs. now apply squash_rows_sorted.
Qed.

(** X13. The empty result: with [start <= end], the returned frame is empty
    exactly when no input entry lies strictly before [end]. *)
Theorem result_is_empty_iff_nothing_before_end
        (h : heap) (df : Series V) (start_time end_time : Q) :
  well_formed h df ->
  start_time <= end_time ->
  exists out h',
    squash_into_window df (start_time, end_time) h = Ok out h'
    /\ (rows h' out = [] <-> forall r, In r (rows h df) -> end_time <= fst r).
Proof.
  intros Hwf Hse.
  destruct (squash_into_window_run V h df _ start_time end_time
              (well_formed_repr _ _ _ Hwf)) as (out & h' & E & _ & R).
  exists out, h'. split; [exact E|].
  rewrite (repr_rows _ _ _ _ R). now apply squash_rows_empty_iff.
Qed.

(** X14. A window that starts after it ends: the result holds no window row
    and no end entry, only the last entry before [start], relabelled to
    [start], when there is one. *)
Theorem reversed_window_keeps_first_event_only
        (h : heap) (df : Series V) (start_time end_time : Q) :
  well_formed h df ->
  end_time < start_time ->
  exists out h',
    squash_into_window df (start_time, end_time) h = Ok out h'
    /\ rows h' out
       = relabel start_time (last_row (filter (before start_time) (rows h df)))
    /\ (length (rows h' out) <= 1)%nat.
Proof.
  intros Hwf Hes.
  destruct (squash_into_window_run V h df _ start_time end_time
              (well_formed_repr _ _ _ Hwf)) as (out & h' & E & _ & R).
  exists out, h'. split; [exact E|].
  rewrite (repr_rows _ _ _ _ R), squash_rows_reversed_window by assumption.
  split; [reflexivity | apply head_length].
Qed.

(** X15. No invented values: for every window, every value of the returned
    frame is the value of some input entry. *)
Theorem result_values_come_from_input
        (h : heap) (df : Series V) (window : Q * Q) :
  well_formed h df ->
  exists out h',
    squash_into_window df window h = Ok out h'
    /\ forall r, In r (rows h' out) ->
                 exists r', In r' (rows h df) /\ snd r' = snd r.
Proof.
  intros Hwf. destruct window as [start_time end_time].
  destruct (squash_into_window_run V h df _ start_time end_time
              (well_formed_repr _ _ _ Hwf)) as (out & h' & E & _ & R).
  exists out, h'. split; [exact E|].
  rewrite (repr_rows _ _ _ _ R). intros r. apply squash_rows_values.
Qed.

(** X16. Narrowing the end: squashing into [(start, end1)] and then into
    [(start, end2)] with [start < end2 <= end1] gives the rows of
    squashing into [(start, end2)] directly.  With [end2 = end1]: on a
    window that is not empty a second call changes nothing. *)
Theorem squash_again_with_earlier_end
        (h : heap) (df : Series V) (start_time end1 end2 : Q) :
  well_formed h df ->
  start_time < end2 ->
  end2 <= end1 ->
  exists out1 h1 out2 h2 out h',
    squash_into_window df (start_time, end1) h = Ok out1 h1
    /\ squash_into_window out1 (start_time, end2) h1 = Ok out2 h2
    /\ squash_into_window df (start_time, end2) h = Ok out h'
    /\ rows h2 out2 = rows h' out.
Proof.
  intros Hwf Hs He. pose proof (well_formed_repr _ _ _ Hwf) as Hr.
  destruct (squash_into_window_run V h df _ start_time end1 Hr)
    as (out1 & h1 & E1 & _ & R1).
  destruct (squash_into_window_run V h1 out1 _ start_time end2 R1)
    as (out2 & h2 & E2 & _ & R2).
  destruct (squash_into_window_run V h df _ start_time end2 Hr)
    as (out & h' & E & _ & R).
  exists out1, h1, out2, h2, out, h'. repeat (split; [assumption|]).
  rewrite (repr_rows _ _ _ _ R2), (repr_rows _ _ _ _ R).
  now apply squash_rows_same_start.
Qed.

(** X17. Nested windows: on a sorted frame, squashing into [(start1, end1)]
    and then into a window [(start2, end2)] inside it that starts later
    ([start1 < start2 <= end2 <= end1]) gives the rows of squashing into
    [(start2, end2)] directly. *)
Theorem squash_into_nested_window
        (h : heap) (df : Series V) (start1 end1 start2 end2 : Q) :
  well_formed h df ->
  sortedb (timestamps h df) = true ->
  start1 < start2 ->
  start2 <= end2 ->
  end2 <= end1 ->
  exists out1 h1 out2 h2 out h',
    squash_into_window df (start1, end1) h = Ok out1 h1
    /\ squash_into_window out1 (start2, end2) h1 = Ok out2 h2
    /\ squash_into_window df (start2, end2) h = Ok out h'
    /\ rows h2 out2 = rows h' out.
Proof.
  intros Hwf Hsorted Hs Hse He. pose proof (well_formed_repr _ _ _ Hwf) as Hr.
  destruct (squash_into_window_run V h df _ start1 end1 Hr)
    as (out1 & h1 & E1 & _ & R1).
  destruct (squash_into_window_run V h1 out1 _ start2 end2 R1)
    as (out2 & h2 & E2 & _ & R2).
  destruct (squash_into_window_run V h df _ start2 end2 Hr)
    as (out & h' & E & _ & R).
  exists out1, h1, out2, h2, out, h'. repeat (split; [assumption|]).
  rewrite (repr_rows _ _ _ _ R2), (repr_rows _ _ _ _ R).
  now apply squash_rows_nested.
Qed.

End SquashEdges.

Section SquashEmptyWindow.

Variable V : Type.

(** X18. The empty window [start = end]: no input row is in it; the result is
    the last entry before [start] relabelled to [start], twice (once as
    the first event and once as the last), or nothing when no entry lies
    before [start].  An input entry at [start] itself is dropped. *)
Theorem empty_window_repeats_held_value
        (h : heap) (df : Series V) (start_time : Q) :
  well_formed h df ->
  exists out h',
    squash_into_window df (start_time, start_time) h = Ok out h'
    /\ rows h' out
       = relabel start_time (last_row (filter (before start_time) (rows h df)))
         ++ relabel start_time
              (last_row (filter (before start_time) (rows h df))).
Proof.
  intros Hwf.
  destruct (squash_into_window_run V h df _ start_time start_time
              (well_formed_repr _ _ _ Hwf)) as (out & h' & E & _ & R).
  exists out, h'. split; [exact E|].
  rewrite (repr_rows _ _ _ _ R).
  rewrite (squash_rows_parts V _ start_time start_time (Qle_refl _)).
  rewrite (filter_none V (within start_time start_time)).
  - rewrite !app_nil_r, last_row_relabel, relabel_relabel.
    rewrite (last_row_short (last_row _)); auto.
    rewrite last_row_length. destruct (_ =? _)%nat; lia.
  - intros r _. unfold within.
    destruct (Qle_bool start_time (fst r)) eqn:E1; auto. simpl.
    apply Qle_bool_iff in E1. now apply Qlt_bool_false_iff.
Qed.

End SquashEmptyWindow.

(** * listify *)

(** X19. listify always gives a list that holds its argument or the
    argument's own items: applying it to its own result changes nothing,
    anything that is not a list (a tuple included) comes back as the
    only item, and the result is empty only for the empty list. *)
Theorem listify_idempotent {A : Type} (x : pyobj A) :
  listify (PyList (listify x)) = listify x
  /\ (isinstance_list x = false -> listify x = [x])
  /\ (listify x = [] <-> x = PyList []).
Proof.
  destruct x as [a|items|items].
  - repeat split; try reflexivity; discriminate.
  - repeat split; try reflexivity; discriminate.
  - split; [reflexivity|]. split; [discriminate|].
    change (listify (PyList items)) with items. split.
    + now intros ->.
    + intros H. now inversion H.
Qed.

(** * The further properties at the repository's examples *)


Lemma zero_max_delta_keeps_timestamps_witness :
  well_formed docstring_store docstring_series
  /\ sortedb (timestamps docstring_store docstring_series) = true
  /\ exists out h',
       handle_duplicate_index 0%Z docstring_series 0 docstring_store = Ok out h'
       /\ index_equals (timestamps h' out)
                       (timestamps docstring_store docstring_series) = true.
Proof.
  split; [reflexivity|]. split; [reflexivity|].
  apply (zero_max_delta_keeps_timestamps Z 0%Z docstring_store docstring_series);
    reflexivity.
Defined.



Lemma result_is_inside_the_window_witness :
  well_formed test_store test_frame
  /\ 1 # 2 <= 29 # 10
  /\ exists out h',
       squash_into_window test_frame (1 # 2, 29 # 10) test_store = Ok out h'
       /\ (forall r, In r (rows h' out) -> 1 # 2 <= fst r /\ fst r <= 29 # 10)
       /\ (sortedb (timestamps test_store test_frame) = true ->
           sortedb (timestamps h' out) = true).
Proof.
  split; [reflexivity|]. split; [discriminate|].
  apply (result_is_inside_the_window Z test_store test_frame (1 # 2) (29 # 10));
    [reflexivity | discriminate].
Defined.

Lemma result_is_empty_iff_nothing_before_end_witness :
  well_formed test_store test_frame
  /\ -2 <= -1
  /\ exists out h',
       squash_into_window test_frame (-2, -1) test_store = Ok out h'
       /\ (rows h' out = []
           <-> forall r, In r (rows test_store test_frame) -> -1 <= fst r).
Proof.
  split; [reflexivity|]. split; [discriminate|].
  apply (result_is_empty_iff_nothing_before_end Z test_store test_frame (-2) (-1));
    [reflexivity | discriminate].
Defined.

Lemma reversed_window_keeps_first_event_only_witness :
  well_formed test_store test_frame
  /\ 1 # 2 < 29 # 10
  /\ exists out h',
       squash_into_window test_frame (29 # 10, 1 # 2) test_store = Ok out h'
       /\ rows h' out
          = relabel (29 # 10)
              (last_row (filter (before (29 # 10)) (rows test_store test_frame)))
       /\ (length (rows h' out) <= 1)%nat.
Proof.
  split; [reflexivity|]. split; [reflexivity|].
  apply (reversed_window_keeps_first_event_only Z test_store test_frame
           (29 # 10) (1 # 2));
    reflexivity.
Defined.

Lemma result_values_come_from_input_witness :
  well_formed test_store test_frame
  /\ exists out h',
       squash_into_window test_frame (1 # 2, 29 # 10) test_store = Ok out h'
       /\ forall r, In r (rows h' out) ->
                    exists r', In r' (rows test_store test_frame) /\ snd r' = snd r.
Proof.
  split; [reflexivity|].
  apply (result_values_come_from_input Z test_store test_frame (1 # 2, 29 # 10)).
  reflexivity.
Defined.

Lemma squash_again_with_earlier_end_witness :
  well_formed test_store test_frame
  /\ 1 # 2 < 21 # 10
  /\ 21 # 10 <= 29 # 10
  /\ exists out1 h1 out2 h2 out h',
       squash_into_window test_frame (1 # 2, 29 # 10) test_store = Ok out1 h1
       /\ squash_into_window out1 (1 # 2, 21 # 10) h1 = Ok out2 h2
       /\ squash_into_window test_frame (1 # 2, 21 # 10) test_store = Ok out h'
       /\ rows h2 out2 = rows h' out.
Proof.
  split; [reflexivity|]. split; [reflexivity|]. split; [discriminate|].
  apply (squash_again_with_earlier_end Z test_store test_frame
           (1 # 2) (29 # 10) (21 # 10));
    [reflexivity | reflexivity | discriminate].
Defined.

Lemma squash_into_nested_window_witness :
  well_formed test_store test_frame
  /\ sortedb (timestamps test_store test_frame) = true
  /\ 1 # 2 < 3 # 2
  /\ 3 # 2 <= 5 # 2
  /\ 5 # 2 <= 7 # 2
  /\ exists out1 h1 out2 h2 out h',
       squash_into_window test_frame (1 # 2, 7 # 2) test_store = Ok out1 h1
       /\ squash_into_window out1 (3 # 2, 5 # 2) h1 = Ok out2 h2
       /\ squash_into_window test_frame (3 # 2, 5 # 2) test_store = Ok out h'
       /\ rows h2 out2 = rows h' out.
Proof.
  split; [reflexivity|]. split; [reflexivity|]. split; [reflexivity|].
  split; [discriminate|]. split; [discriminate|].
  apply (squash_into_nested_window Z test_store test_frame
           (1 # 2) (7 # 2) (3 # 2) (5 # 2));
    [reflexivity | reflexivity | reflexivity | discriminate | discriminate].
Defined.

Lemma empty_window_repeats_held_value_witness :
  well_formed test_store test_frame
  /\ exists out h',
       squash_into_window test_frame (5 # 2, 5 # 2) test_store = Ok out h'
       /\ rows h' out
          = relabel (5 # 2)
              (last_row (filter (before (5 # 2)) (rows test_store test_frame)))
            ++ relabel (5 # 2)
                 (last_row (filter (before (5 # 2)) (rows test_store test_frame))).
Proof.
  split; [reflexivity|].
  apply (empty_window_repeats_held_value Z test_store test_frame (5 # 2)).
  reflexivity.
Defined.

(** * The run in float64, evaluated *)

(** With [round64] the run gives the float64 numbers that the docstring
    and the two tests of the repository expect: 1 + 0.000001, 1 + 0.001
    and 6 + 0.001 round to the float64 numbers written 1.000001, 1.001
    and 6.001. *)
Lemma float64_run_of_the_tests :
  (exists out h',
      handle_duplicate_index_r round64 0%Z docstring_series
        (round64 default_max_delta) docstring_store = Ok out h'
      /\ index_equals (timestamps h' out)
                      [0; 1; round64 (1000001 # 1000000); 6; 7] = true)
  /\ (exists out h',
         handle_duplicate_index_r round64 0%Z (mkSeries 0%nat [0; 1; 2; 3; 4]%Z)
           (round64 (1 # 1000)) [[0; 1; 1; 6; 7]] = Ok out h'
         /\ index_equals (timestamps h' out)
                         [0; 1; round64 (1001 # 1000); 6; 7] = true)
  /\ (exists out h',
         handle_duplicate_index_r round64 0%Z (mkSeries 0%nat [0; 1; 2; 3; 4]%Z)
           (round64 (1 # 1000)) [[0; 1; 2; 6; 6]] = Ok out h'
         /\ index_equals (timestamps h' out)
                         [0; 1; 2; 6; round64 (6001 # 1000)] = true).
Proof.
  repeat split; do 2 eexists; (split; [vm_compute; reflexivity|]);
    vm_compute; reflexivity.
Qed.

(** Where rounding shows, on sorted indexes that fit but on which
    [exact64b] fails.  Next to [2^53] the float64 numbers are 2 apart:
    the sum of [2^53] and the default max_delta rounds back to [2^53] and
    the duplicate stays.  Next to [1.7e12] they are [2^-12] apart: an
    increment of 0.00013 moves the duplicate by [2^-12], more than
    max_delta.  And when the third entry of a group is rounded onto the
    next timestamp [c], the search for [c] starts one entry early and
    the first entry of the group of [c] is moved. *)
Lemma float64_run_rounds :
  (sortedb [inject_Z (2 ^ 53); inject_Z (2 ^ 53); inject_Z (2 ^ 53) + 2] = true
   /\ fitsb (round64 default_max_delta)
            [inject_Z (2 ^ 53); inject_Z (2 ^ 53); inject_Z (2 ^ 53) + 2] = true
   /\ exact64b (round64 default_max_delta)
               [inject_Z (2 ^ 53); inject_Z (2 ^ 53); inject_Z (2 ^ 53) + 2] = false
   /\ exists out h',
        handle_duplicate_index_r round64 0%Z (mkSeries 0%nat [0; 1; 2]%Z)
          (round64 default_max_delta)
          [[inject_Z (2 ^ 53); inject_Z (2 ^ 53); inject_Z (2 ^ 53) + 2]]
        = Ok out h'
        /\ index_equals (timestamps h' out)
             [inject_Z (2 ^ 53); inject_Z (2 ^ 53); inject_Z (2 ^ 53) + 2] = true)
  /\ (fitsb (round64 (13 # 100000))
            [1700000000000; 1700000000000; 1700000000001] = true
      /\ exact64b (round64 (13 # 100000))
                  [1700000000000; 1700000000000; 1700000000001] = false
      /\ exists out h',
           handle_duplicate_index_r round64 0%Z (mkSeries 0%nat [0; 1; 2]%Z)
             (round64 (13 # 100000))
             [[1700000000000; 1700000000000; 1700000000001]] = Ok out h'
           /\ Qeq_bool (nth 1 (timestamps h' out) 0 - 1700000000000) (1 # 4096)
              = true
           /\ Qlt_bool (round64 (13 # 100000))
                       (nth 1 (timestamps h' out) 0 - 1700000000000) = true)
  /\ (fitsb 10 [inject_Z (2 ^ 53); inject_Z (2 ^ 53); inject_Z (2 ^ 53);
                inject_Z (2 ^ 53) + 2; inject_Z (2 ^ 53) + 2;
                inject_Z (2 ^ 53) + 302] = true
      /\ exact64b 10 [inject_Z (2 ^ 53); inject_Z (2 ^ 53); inject_Z (2 ^ 53);
                      inject_Z (2 ^ 53) + 2; inject_Z (2 ^ 53) + 2;
                      inject_Z (2 ^ 53) + 302] = false
      /\ exists out h',
           handle_duplicate_index_r round64 0%Z
             (mkSeries 0%nat [0; 1; 2; 3; 4; 5]%Z) 10
             [[inject_Z (2 ^ 53); inject_Z (2 ^ 53); inject_Z (2 ^ 53);
               inject_Z (2 ^ 53) + 2; inject_Z (2 ^ 53) + 2;
               inject_Z (2 ^ 53) + 302]] = Ok out h'
           /\ index_equals (timestamps h' out)
                [inject_Z (2 ^ 53); inject_Z (2 ^ 53); inject_Z (2 ^ 53) + 2;
                 inject_Z (2 ^ 53) + 12; inject_Z (2 ^ 53) + 22;
                 inject_Z (2 ^ 53) + 302] = true).
Proof.
  repeat split; try (vm_compute; reflexivity);
    do 2 eexists; (split; [vm_compute; reflexivity|]);
    repeat split; vm_compute; reflexivity.
Qed.

(** The inputs of the claims C1 to C3, as float64 numbers, in the run
    with [round64]: the fourth entry lands on the fifth, the third entry
    of a group at the end moves by more than max_delta, and the fifth
    entry passes the next timestamp. *)
Lemma float64_run_of_the_doubling :
  (exists out h',
      handle_duplicate_index_r round64 0%Z (mkSeries 0%nat [10; 11; 12; 13; 14]%Z)
        (round64 default_max_delta)
        [[1; 1; 1; 1; round64 (1000001 # 1000000)]] = Ok out h'
      /\ Qeq_bool (nth 3 (timestamps h' out) 0) (nth 4 (timestamps h' out) 0) = true
      /\ increasingb (timestamps h' out) = false)
  /\ (exists out h',
         handle_duplicate_index_r round64 0%Z
           (mkSeries 0%nat [0; 1; 2; 3; 4; 5]%Z) (round64 (1 # 1000))
           [[0; 1; 2; 6; 6; 6]] = Ok out h'
         /\ Qlt_bool (round64 (1 # 1000)) (nth 5 (timestamps h' out) 0 - 6) = true)
  /\ (exists out h',
         handle_duplicate_index_r round64 0%Z
           (mkSeries 0%nat [10; 11; 12; 13; 14; 15]%Z) (round64 default_max_delta)
           [[1; 1; 1; 1; 1; round64 (1000001 # 1000000)]] = Ok out h'
         /\ Qlt_bool (round64 (1000001 # 1000000))
                     (nth 4 (timestamps h' out) 0) = true).
Proof.
  repeat split; do 2 eexists; (split; [vm_compute; reflexivity|]);
    repeat split; vm_compute; reflexivity.
Qed.
